(** * client-go: union store, ART node allocator and range-task runner

    A shallow embedding of
    - [internal/unionstore/union_store.go]  (KVUnionStore over a MemBuffer
      and a remote snapshot),
    - [internal/unionstore/art/art_arena.go] (the ART node allocator),
    - [txnkv/rangetask/range_task.go]        (the range-task runner),
    - the error values and predicates of [error/error.go],
    - the region keys and region errors of the API v1 codec (package
      [apicodec]),
    together with the properties the specification states about them and
    further properties of the code. *)

From stdpp Require Import gmap list sorting.
From Stdlib Require Import Strings.Byte ZArith Lia.

Local Open Scope Z_scope.

(** ** Go values shared by all packages *)

(** A Go [[]byte] used as a key: [nil] and the empty slice both have
    length 0 and compare equal under [bytes.Compare], so a key is the list
    of its bytes. *)
Abbreviation bytes := (list byte).

(** A Go [[]byte] where [nil] is told apart from a slice: [None] is [nil]. *)
Abbreviation slice := (option (list byte)).

Definition len (v : slice) : nat :=
  match v with
  | None => 0%nat
  | Some l => length l
  end.

(** [bytes.Compare]: lexicographic order on byte strings, bytes compared as
    unsigned numbers. *)
Fixpoint bytes_Compare (a b : bytes) : comparison :=
  match a, b with
  | [], [] => Eq
  | [], _ :: _ => Lt
  | _ :: _, [] => Gt
  | x :: a', y :: b' =>
      match N.compare (Byte.to_N x) (Byte.to_N y) with
      | Eq => bytes_Compare a' b'
      | c => c
      end
  end.

Definition bytes_lt (a b : bytes) : Prop := bytes_Compare a b = Lt.

(** The outcome of a call that may panic. *)
Inductive outcome (A : Type) : Type :=
| Returns (a : A)
| Panics.
Arguments Returns {A} _.
Arguments Panics {A}.

(** Little-endian fixed-width integers in memory. *)
Definition byte_of_Z (x : Z) : byte :=
  default "000"%byte (Byte.of_N (Z.to_N (x mod 256))).

Definition Z_of_byte (b : byte) : Z := Z.of_N (Byte.to_N b).

Fixpoint le_bytes (n : nat) (x : Z) : list byte :=
  match n with
  | O => []
  | S n' => byte_of_Z x :: le_bytes n' (x / 256)
  end.

Fixpoint le_value (l : list byte) : Z :=
  match l with
  | [] => 0
  | b :: l' => Z_of_byte b + 256 * le_value l'
  end.

(** ** Package [error] *)

Module tikverr.

(** The error values that reach the modelled code.  The sentinels are the
    package-level [errors.New] variables; [WithStack e] is
    [errors.WithStack(e)], whose [Unwrap] is [e]. *)
Inductive error : Type :=
| ErrBodyMissing
| ErrTiDBShuttingDown
| ErrNotExist
| ErrCannotSetNilValue
| ErrInvalidTxn
| ErrUnknown
| ErrResultUndetermined
| ErrKeyTooLarge (KeySize : Z)
| ErrEntryTooLarge (Limit Size : Z)
| ErrTxnTooLarge (Size : Z)
| ContextCanceled
| ContextDeadlineExceeded
| ErrorString (id : nat)
| WithStack (e : error).

#[export] Instance error_eq_dec : EqDecision error.
Proof. solve_decision. Defined.

(** [errors.Is(err, target)] for a non-nil [err]: compare, then follow
    [Unwrap]. *)
Fixpoint errors_Is (err target : error) : bool :=
  if decide (err = target) then true
  else match err with
       | WithStack e => errors_Is e target
       | _ => false
       end.

(** [IsErrNotFound]: [errors.Is(err, ErrNotExist)]; a nil [err] matches
    no target. *)
Definition IsErrNotFound (err : option error) : bool :=
  match err with
  | None => false
  | Some e => errors_Is e ErrNotExist
  end.



End tikverr.
Export tikverr.

(** ** Package [kv]: key flags *)

Module kv.

(** Modelled from the spec: [kv.KeyFlags], its flag operations and
    [HasPresumeKeyNotExists] (kv/keyflags.go) are not under src/.  Spec 3.5:
    a small bitset recorded per key, and "flag operations take an ordered
    list of additive/subtractive deltas applied in order".  The bit layout
    is free (spec 9); bits are numbered in the order spec 3.5 lists them. *)
Inductive Flag : Type :=
| PresumeKeyNotExists
| KeyLocked
| NeedLocked
| NeedCheckExists
| NoNeedCommit
| AssertExists
| AssertNotExists
| NewlyInserted.

(** Modelled from the spec: the bit of each flag.  The bit layout is free
    (spec 9); the bits are numbered in the order spec 3.5 lists the flags. *)
Definition flag_bit (f : Flag) : Z :=
  match f with
  | PresumeKeyNotExists => 0
  | KeyLocked => 1
  | NeedLocked => 2
  | NeedCheckExists => 3
  | NoNeedCommit => 4
  | AssertExists => 5
  | AssertNotExists => 6
  | NewlyInserted => 7
  end.

(** A [KeyFlags] value is the bitmask itself. *)
Abbreviation KeyFlags := Z.

(** Modelled from the spec: the mask of one flag in the bitset of spec 3.5. *)
Definition flag_mask (f : Flag) : KeyFlags := Z.shiftl 1 (flag_bit f).

(** Modelled from the spec: whether the bitset holds the flag. *)
Definition has_flag (flags : KeyFlags) (f : Flag) : bool :=
  negb (Z.land flags (flag_mask f) =? 0).

(** Modelled from the spec: [KeyFlags.HasPresumeKeyNotExists()], the bit of
    spec 3.5: "the transaction promised this key is absent". *)
Definition HasPresumeKeyNotExists (flags : KeyFlags) : bool :=
  has_flag flags PresumeKeyNotExists.

(** Modelled from the spec: a flag operation, an additive ([SetFlag]) or a
    subtractive ([DelFlag]) delta (spec 3.5). *)
Inductive FlagsOp : Type :=
| SetFlag (f : Flag)
| DelFlag (f : Flag).

(** Modelled from the spec: [kv.SetPresumeKeyNotExists], the additive delta
    of the flag. *)
Definition SetPresumeKeyNotExists : FlagsOp := SetFlag PresumeKeyNotExists.

(** Modelled from the spec: [kv.DelPresumeKeyNotExists], the subtractive
    delta of the flag. *)
Definition DelPresumeKeyNotExists : FlagsOp := DelFlag PresumeKeyNotExists.

(** Modelled from the spec: one delta applied to a bitset: an additive delta
    sets the bit, a subtractive delta clears it. *)
Definition applyFlagsOp (origin : KeyFlags) (op : FlagsOp) : KeyFlags :=
  match op with
  | SetFlag f => Z.lor origin (flag_mask f)
  | DelFlag f => Z.ldiff origin (flag_mask f)
  end.

(** Modelled from the spec: "flag operations take an ordered list of
    additive/subtractive deltas applied in order" (spec 3.5). *)
Definition ApplyFlagsOps (origin : KeyFlags) (ops : list FlagsOp) : KeyFlags :=
  foldl applyFlagsOp origin ops.

End kv.

(** ** Package [unionstore] *)

Module unionstore.

(** *** Iterators

    The [Iterator] interface ([Valid], [Key], [Value], [Next], [Close]) as
    the sequence an iterator still has to yield: [ItEnd] is an exhausted
    iterator ([Valid() = false]), [ItItem k v next] is positioned on
    [(k, v)] and [Next()] moves to [next]; [ItErr e] is the position reached
    by a [Next()] that returned the error [e]. *)
Inductive Iterator : Type :=
| ItEnd
| ItItem (k v : bytes) (next : Iterator)
| ItErr (e : error).

Definition Valid (it : Iterator) : bool :=
  match it with
  | ItItem _ _ _ => true
  | _ => false
  end.

Definition Key (it : Iterator) : bytes :=
  match it with
  | ItItem k _ _ => k
  | _ => []
  end.



(** An iterator that yields the pairs of [l] in order and never fails. *)
Fixpoint iterator_of (l : list (bytes * bytes)) : Iterator :=
  match l with
  | [] => ItEnd
  | (k, v) :: l' => ItItem k v (iterator_of l')
  end.

(** *** Interfaces *)

(** The methods of the [MemBuffer] interface the union store calls, over
    the state [M] of an implementation.  Methods with a pointer receiver
    that write return the new state.  [Iter] and [IterReverse] return
    [(Iterator, error)]: the iterator is only looked at when the error is
    nil, and is then a usable (non-nil) iterator. *)
Class MemBuffer (M : Type) : Type := {
  MemBuffer_Get : M -> bytes -> slice * option error;
  MemBuffer_GetFlags : M -> bytes -> kv.KeyFlags * option error;
  MemBuffer_Set : M -> bytes -> bytes -> M * option error;
  MemBuffer_UpdateFlags : M -> bytes -> list kv.FlagsOp -> M;
  MemBuffer_Iter : M -> bytes -> bytes -> Iterator * option error;
  MemBuffer_IterReverse : M -> bytes -> bytes -> Iterator * option error;
  MemBuffer_SetEntrySizeLimit : M -> Z -> Z -> M
}.

(** The [uSnapshot] interface. *)
Class uSnapshot (S : Type) : Type := {
  uSnapshot_Get : S -> bytes -> slice * option error;
  uSnapshot_Iter : S -> bytes -> bytes -> Iterator * option error;
  uSnapshot_IterReverse : S -> bytes -> bytes -> Iterator * option error
}.

Record KVUnionStore (M S : Type) : Type := NewUnionStore_ {
  memBuffer : M;
  snapshot : S
}.
Arguments NewUnionStore_ {M S} _ _.
Arguments memBuffer {M S} _.
Arguments snapshot {M S} _.

(** [NewUnionStore] takes the buffer first. *)
Definition NewUnionStore {M S} (mb : M) (sn : S) : KVUnionStore M S :=
  {| memBuffer := mb; snapshot := sn |}.

Definition GetMemBuffer {M S} (us : KVUnionStore M S) : M := memBuffer us.

(** Modelled from the spec: the constant [unlimitedSize] (memdb.go) is not
    under src/.  Spec 4.F: "a sentinel "unlimited" value disables each
    limit"; the limits are [uint64], the sentinel is the largest one. *)
Definition unlimitedSize : Z := 2 ^ 64 - 1.

(** *** The union iterator *)

(** Modelled from the spec: the comparator of the iteration's direction
    (4.G: "reverse direction uses the symmetric comparator"):
    [bytes.Compare], reversed for a reverse iteration. *)
Definition cmp_dir (reverse : bool) (a b : bytes) : comparison :=
  if reverse then CompOpp (bytes_Compare a b) else bytes_Compare a b.

(** Modelled from the spec: a buffer entry whose value is empty is a
    tombstone (4.G). *)
Definition tombstone (v : bytes) : bool :=
  match v with
  | [] => true
  | _ => false
  end.

(** Modelled from the spec: [NewUnionIter] and [UnionIter]
    (union_iter.go) are not under src/.  Spec 4.G: at each step examine the
    current key on each side and emit the smaller; [B.key < S.key]: emit B,
    advance B; [B.key > S.key]: emit S, advance S; [B.key = S.key]: emit B,
    advance both; in every case skip emissions whose buffer value is empty;
    the reverse direction uses the symmetric comparator; either side's
    exhaustion reduces the remaining iteration to the other side, still
    filtering tombstones; errors from either side propagate. *)
Fixpoint union (reverse : bool) (b : Iterator) : Iterator -> Iterator :=
  fix union_s (s : Iterator) : Iterator :=
    match b, s with
    | ItErr e, _ => ItErr e
    | _, ItErr e => ItErr e
    | ItEnd, ItEnd => ItEnd
    | ItEnd, ItItem ks vs s' => ItItem ks vs (union_s s')
    | ItItem kb vb b', ItEnd =>
        if tombstone vb then union reverse b' ItEnd
        else ItItem kb vb (union reverse b' ItEnd)
    | ItItem kb vb b', ItItem ks vs s' =>
        match cmp_dir reverse kb ks with
        | Lt =>
            if tombstone vb then union reverse b' s
            else ItItem kb vb (union reverse b' s)
        | Gt => ItItem ks vs (union_s s')
        | Eq =>
            if tombstone vb then union reverse b' s'
            else ItItem kb vb (union reverse b' s')
        end
    end.

(** Modelled from the spec: [NewUnionIter(dirtyIt, snapshotIt, reverse)],
    as [KVUnionStore.Iter] calls it: the union iterator positioned on its
    first entry; "errors from either side propagate" (4.G). *)
Definition NewUnionIter (dirtyIt snapshotIt : Iterator) (reverse : bool)
  : option Iterator * option error :=
  match union reverse dirtyIt snapshotIt with
  | ItErr e => (None, Some e)
  | it => (Some it, None)
  end.

(** *** What the union iterator is specified to yield *)

(** [l] is strictly ordered by key in the direction of the iteration
    (ascending, or descending for a reverse iteration). *)
Definition key_before (reverse : bool) (x y : bytes * bytes) : Prop :=
  cmp_dir reverse x.1 y.1 = Lt.

Definition sorted_dir (reverse : bool) (l : list (bytes * bytes)) : Prop :=
  StronglySorted (key_before reverse) l.

(** [(k, v)] belongs to the union of the buffer entries [B] and the
    snapshot entries [S]: it is a buffer entry that is no tombstone, or a
    snapshot entry whose key the buffer does not hold. *)
Definition union_member (B S : list (bytes * bytes)) (k v : bytes) : Prop :=
  ((k, v) ∈ B ∧ v ≠ []) ∨ ((k ∉ B.*1) ∧ (k, v) ∈ S).

(** The calls [Get] makes on its two sides, in order. *)
Inductive call : Type :=
| CallMemBufferGet (k : bytes)
| CallSnapshotGet (k : bytes).

Section UnionStore.
Context {M S : Type} `{!MemBuffer M, !uSnapshot S}.

(** [KVUnionStore.Get], with the calls it made. *)
Definition Get (us : KVUnionStore M S) (k : bytes)
  : list call * (slice * option error) :=
  let '(v, err) := MemBuffer_Get (memBuffer us) k in
  let calls := [CallMemBufferGet k] in
  let '(calls, (v, err)) :=
    if IsErrNotFound err
    then (calls ++ [CallSnapshotGet k], uSnapshot_Get (snapshot us) k)
    else (calls, (v, err)) in
  match err with
  | Some e => (calls, (v, Some e))
  | None =>
      if (len v =? 0)%nat
      then (calls, (None, Some ErrNotExist))
      else (calls, (v, None))
  end.

(** [KVUnionStore.Iter]. *)
Definition Iter (us : KVUnionStore M S) (k upperBound : bytes)
  : option Iterator * option error :=
  match MemBuffer_Iter (memBuffer us) k upperBound with
  | (_, Some err) => (None, Some err)
  | (bufferIt, None) =>
      match uSnapshot_Iter (snapshot us) k upperBound with
      | (_, Some err) => (None, Some err)
      | (retrieverIt, None) => NewUnionIter bufferIt retrieverIt false
      end
  end.

(** [KVUnionStore.IterReverse]. *)
Definition IterReverse (us : KVUnionStore M S) (k lowerBound : bytes)
  : option Iterator * option error :=
  match MemBuffer_IterReverse (memBuffer us) k lowerBound with
  | (_, Some err) => (None, Some err)
  | (bufferIt, None) =>
      match uSnapshot_IterReverse (snapshot us) k lowerBound with
      | (_, Some err) => (None, Some err)
      | (retrieverIt, None) => NewUnionIter bufferIt retrieverIt true
      end
  end.

(** [KVUnionStore.HasPresumeKeyNotExists]. *)
Definition HasPresumeKeyNotExists (us : KVUnionStore M S) (k : bytes) : bool :=
  let '(flags, err) := MemBuffer_GetFlags (memBuffer us) k in
  match err with
  | Some _ => false
  | None => kv.HasPresumeKeyNotExists flags
  end.

(** [KVUnionStore.UnmarkPresumeKeyNotExists]. *)
Definition UnmarkPresumeKeyNotExists (us : KVUnionStore M S) (k : bytes)
  : KVUnionStore M S :=
  {| memBuffer := MemBuffer_UpdateFlags (memBuffer us) k [kv.DelPresumeKeyNotExists];
     snapshot := snapshot us |}.

(** [KVUnionStore.SetEntrySizeLimit]; the limits are [uint64]. *)
Definition SetEntrySizeLimit (us : KVUnionStore M S) (entryLimit bufferLimit : Z)
  : KVUnionStore M S :=
  let entryLimit := if entryLimit =? 0 then unlimitedSize else entryLimit in
  let bufferLimit := if bufferLimit =? 0 then unlimitedSize else bufferLimit in
  {| memBuffer := MemBuffer_SetEntrySizeLimit (memBuffer us) entryLimit bufferLimit;
     snapshot := snapshot us |}.

End UnionStore.

End unionstore.

(** ** The MemBuffer of the specification *)

#[export] Instance byte_eq_dec : EqDecision byte := Byte.byte_eq_dec.

#[export] Instance byte_countable : Countable byte :=
  inj_countable Byte.to_N Byte.of_N Byte.of_to_N.

#[export] Instance comparison_eq_dec : EqDecision comparison.
Proof. solve_decision. Defined.

Module memdb.
Import unionstore.

(** Modelled from the spec: the MemBuffer implementations ([MemDB], the ART
    index, the value log and their iterators) are not under src/; only the
    [MemBuffer] interface and its documentation are.  The buffer below
    follows spec 3.3 (a leaf holds flags and a vlog head that is NULL for a
    flags-only leaf; an empty logged value is a tombstone), 3.6 and 4.E
    (the staging stack), 4.D ([get], [insert], [delete], [get_flags],
    [update_flags], [iter]) and 4.F (the entry size limits).  The value a
    vlog head leads to stands for the head; a checkpoint keeps the content
    it restores. *)
Record leaf : Type := Leaf {
  vAddr : option bytes;
  flags : kv.KeyFlags
}.

(** Modelled from the spec: the buffer: the ordered index (3.2), the stack
    of checkpoints (3.6), the two size limits (4.F), the logical size, and
    the generation counter of the index (4.D). *)
Record MemDB : Type := {
  index : gmap bytes leaf;
  stages : list (gmap bytes leaf * Z);
  entrySizeLimit : Z;
  bufferSizeLimit : Z;
  size : Z;
  seqNo : Z
}.

(** Modelled from the spec: a fresh buffer: empty, no stage, both limits at
    the unlimited sentinel. *)
Definition newMemDB : MemDB :=
  {| index := ∅; stages := []; entrySizeLimit := unlimitedSize;
     bufferSizeLimit := unlimitedSize; size := 0; seqNo := 0 |}.

(** [uint64(n)] of a Go [int]. *)
Definition uint64 (n : Z) : Z := n mod 2 ^ 64.

(** Modelled from the spec: a mutation of the index bumps its generation
    counter (4.D: "the iterator is invalidated by any mutation ... a
    generation counter on the index"). *)
Definition write (db : MemDB) (idx : gmap bytes leaf) (sz : Z) : MemDB :=
  {| index := idx; stages := stages db; entrySizeLimit := entrySizeLimit db;
     bufferSizeLimit := bufferSizeLimit db; size := sz; seqNo := seqNo db + 1 |}.

(** Modelled from the spec: [get(key) -> value | missing] (4.D): the logged
    value; "empty value => tombstone => missing"; a flags-only leaf has no
    value. *)
Definition Get (db : MemDB) (k : bytes) : slice * option error :=
  match index db !! k with
  | Some (Leaf (Some (b :: v)) _) => (Some (b :: v), None)
  | _ => (None, Some ErrNotExist)
  end.

(** Modelled from the spec: [get_flags(key) -> flags]: "missing if no leaf
    exists" (4.D). *)
Definition GetFlags (db : MemDB) (k : bytes) : kv.KeyFlags * option error :=
  match index db !! k with
  | Some lf => (flags lf, None)
  | None => (0, Some ErrNotExist)
  end.

(** Modelled from the spec: [update_flags(key, ops...)]: "materialize a leaf
    if needed (no vlog write; the leaf carries vAddr = NULL); apply each op
    in order" (4.D). *)
Definition UpdateFlags (db : MemDB) (k : bytes) (ops : list kv.FlagsOp) : MemDB :=
  let lf := default (Leaf None 0) (index db !! k) in
  write db (<[k := Leaf (vAddr lf) (kv.ApplyFlagsOps (flags lf) ops)]> (index db))
        (size db).

(** Modelled from the spec: the logical byte size of the buffer (4.F,
    [size()]) after [v] is written under [k]. *)
Definition size_after (db : MemDB) (k v : bytes) : Z :=
  match index db !! k with
  | Some (Leaf (Some old) _) => size db + Z.of_nat (length v) - Z.of_nat (length old)
  | _ => size db + Z.of_nat (length k) + Z.of_nat (length v)
  end.

(** Modelled from the spec: [insert(key, value)] (4.D) under the limits of
    4.F: "[set] fails with [EntryTooLarge] if [len(key)+len(value) >
    per_entry]; fails with [TxnTooLarge] if cumulative buffer bytes would
    exceed [total]"; a failed write leaves the state unchanged (8.2.6). *)
Definition insert (db : MemDB) (k v : bytes) (ops : list kv.FlagsOp)
  : MemDB * option error :=
  let sz := uint64 (Z.of_nat (length k + length v)) in
  if entrySizeLimit db <? sz
  then (db, Some (ErrEntryTooLarge (entrySizeLimit db) sz))
  else if bufferSizeLimit db <? uint64 (size_after db k v)
  then (db, Some (ErrTxnTooLarge (size_after db k v)))
  else
    let lf := default (Leaf None 0) (index db !! k) in
    (write db (<[k := Leaf (Some v) (kv.ApplyFlagsOps (flags lf) ops)]> (index db))
            (size_after db k v), None).

(** Modelled from the spec: [set_with_flags(key, value, ops...)] (4.F): a
    "single write that both updates value and applies flag ops".  An empty
    value is refused: error.go has [ErrCannotSetNilValue], "the error when
    sets an empty value". *)
Definition SetWithFlags (db : MemDB) (k v : bytes) (ops : list kv.FlagsOp)
  : MemDB * option error :=
  match v with
  | [] => (db, Some ErrCannotSetNilValue)
  | _ => insert db k v ops
  end.

(** Modelled from the spec: [set(key, value)], a write without flag
    operations. *)
Definition Set_ (db : MemDB) (k v : bytes) : MemDB * option error :=
  SetWithFlags db k v [].

(** Modelled from the spec: [delete(key)]: "[insert(key, empty)], a
    tombstone, not physical removal" (4.D). *)
Definition Delete (db : MemDB) (k : bytes) : MemDB * option error :=
  insert db k [] [].

(** Modelled from the spec: [entry_size_limit(per_entry, total)] (4.F)
    records the two limits. *)
Definition SetEntrySizeLimit (db : MemDB) (entryLimit bufferLimit : Z) : MemDB :=
  {| index := index db; stages := stages db; entrySizeLimit := entryLimit;
     bufferSizeLimit := bufferLimit; size := size db; seqNo := seqNo db |}.

(** Modelled from the spec: [staging() -> h] (4.E): pushes a checkpoint and
    returns its 1-based handle. *)
Definition Staging (db : MemDB) : MemDB * Z :=
  ({| index := index db; stages := stages db ++ [(index db, size db)];
      entrySizeLimit := entrySizeLimit db; bufferSizeLimit := bufferSizeLimit db;
      size := size db; seqNo := seqNo db |},
   Z.of_nat (length (stages db)) + 1).




(** Modelled from the spec: [checkpoint() -> token] (4.E). *)
Definition Checkpoint (db : MemDB) : gmap bytes leaf * Z := (index db, size db).


(** Modelled from the spec: the order of the index: keys in lexicographic
    order (3.2). *)
Definition key_le (x y : bytes * bytes) : Prop := bytes_Compare x.1 y.1 ≠ Gt.

(** Modelled from the spec: what a scan of the index meets, in ascending key
    order: the leaves that carry a value, tombstones among them (the union
    iterator of 4.G filters them); a flags-only leaf has none. *)
Definition entries (db : MemDB) : list (bytes * bytes) :=
  merge_sort key_le
    (omap (fun kl : bytes * leaf => (fun v => (kl.1, v)) <$> vAddr kl.2)
          (map_to_list (index db))).

(** Modelled from the spec: half-open bounds (4.D); an empty bound is
    unbounded. *)
Definition in_range (lower upper : bytes) (kv : bytes * bytes) : bool :=
  (match lower with
   | [] => true
   | _ => negb (bool_decide (bytes_Compare kv.1 lower = Lt))
   end)
  && (match upper with
      | [] => true
      | _ => bool_decide (bytes_Compare kv.1 upper = Lt)
      end).

(** Modelled from the spec: an iterator of the buffer: what it still has to
    yield, and the generation of the index it was made at (4.D). *)
Record MemIter : Type := {
  it_seqNo : Z;
  it_cur : Iterator
}.

(** Modelled from the spec: [iter(lower, upper)] (4.D): "ordered scan with
    half-open bounds". *)
Definition Iter (db : MemDB) (lower upper : bytes) : MemIter :=
  {| it_seqNo := seqNo db;
     it_cur := iterator_of (filter (fun kv => in_range lower upper kv = true) (entries db)) |}.

(** Modelled from the spec: the reverse scan (4.D): "reverse scans from
    upper downward". *)
Definition IterReverse (db : MemDB) (upper lower : bytes) : MemIter :=
  {| it_seqNo := seqNo db;
     it_cur := iterator_of
                 (reverse (filter (fun kv => in_range lower upper kv = true) (entries db))) |}.

(** Modelled from the spec: the iterators of the buffer are not under src/.
    Spec 4.D: "a generation counter on the index is checked on every next".
    What a failed check does is taken from the source instead: the contract
    documented on [MemBuffer.Iter] and [MemBuffer.IterReverse] in
    union_store.go says "Any write operation to the memdb invalidates this
    iterator immediately after its creation.  Attempting to use such an
    invalidated iterator will result in a panic." *)
Definition checked {A : Type} (db : MemDB) (it : MemIter) (a : A) : outcome A :=
  if it_seqNo it =? seqNo db then Returns a else Panics.

(** Modelled from the spec: [Valid()] of an iterator of the buffer, after
    the generation check. *)
Definition MemIter_Valid (db : MemDB) (it : MemIter) : outcome bool :=
  checked db it (Valid (it_cur it)).







(** The buffer of the specification behind the [MemBuffer] interface. *)
#[global] Instance MemDB_MemBuffer : MemBuffer MemDB := {|
  MemBuffer_Get := Get;
  MemBuffer_GetFlags := GetFlags;
  MemBuffer_Set := Set_;
  MemBuffer_UpdateFlags := UpdateFlags;
  MemBuffer_Iter := fun db k upperBound => (it_cur (Iter db k upperBound), None);
  MemBuffer_IterReverse := fun db k lowerBound => (it_cur (IterReverse db k lowerBound), None);
  MemBuffer_SetEntrySizeLimit := SetEntrySizeLimit
|}.

(** Modelled from the spec: the snapshot collaborator of spec 6.1, by the
    entries it holds, in ascending key order. *)
Record listSnapshot : Type := { snapshot_entries : list (bytes * bytes) }.

(** Modelled from the spec: [get(context, key) -> value | not_found | error]
    of the snapshot collaborator (6.1). *)
Definition listSnapshot_Get (sn : listSnapshot) (k : bytes) : slice * option error :=
  match list_find (fun kv : bytes * bytes => kv.1 = k) (snapshot_entries sn) with
  | Some (_, (_, v)) => (Some v, None)
  | None => (None, Some ErrNotExist)
  end.

(** The snapshot collaborator behind the [uSnapshot] interface. *)
#[global] Instance listSnapshot_uSnapshot : uSnapshot listSnapshot := {|
  uSnapshot_Get := listSnapshot_Get;
  uSnapshot_Iter := fun sn k upperBound =>
    (iterator_of (filter (fun kv => in_range k upperBound kv = true) (snapshot_entries sn)), None);
  uSnapshot_IterReverse := fun sn k lowerBound =>
    (iterator_of (reverse (filter (fun kv => in_range lowerBound k kv = true)
                                  (snapshot_entries sn))), None)
|}.

End memdb.

(** ** Package [arena] *)

Module arena.

(** Modelled from the spec: the package [arena] (arena.go) is not under
    src/.  Spec 3.1: an arena address is a 64-bit opaque identifier
    encoding a block index and an offset, with one reserved sentinel NULL;
    here two [uint32], the sentinel being the largest address. *)
Record MemdbArenaAddr : Type := {
  idx : Z;
  off : Z
}.

#[global] Instance MemdbArenaAddr_eq_dec : EqDecision MemdbArenaAddr.
Proof. solve_decision. Defined.

(** Modelled from the spec: the reserved sentinel NULL (3.1). *)
Definition NullAddr : MemdbArenaAddr := {| idx := 2 ^ 32 - 1; off := 2 ^ 32 - 1 |}.

(** Modelled from the spec: [addr.IsNull()]: the address is the sentinel. *)
Definition IsNull (addr : MemdbArenaAddr) : bool := bool_decide (addr = NullAddr).

(** Modelled from the spec: a block of the arena (spec 4.A): [cap] bytes of
    capacity, of which [data] are handed out.  Memory that was never handed
    out is zero. *)
Record memdbArenaBlock : Type := {
  cap : Z;
  data : list byte
}.

(** Modelled from the spec: the arena: its blocks, oldest first; "growth
    appends blocks" (3.1). *)
Record MemdbArena : Type := {
  blocks : list memdbArenaBlock
}.

(** Modelled from the spec: the capacity of the first block. *)
Definition initBlockSize : Z := 4 * 1024.

(** Modelled from the spec: the hard cap of a block's capacity, "e.g. 4 MiB"
    (4.A). *)
Definition maxBlockSize : Z := 4 * 1024 * 1024.

(** Modelled from the spec: allocations are "aligned to 8" (4.A). *)
Definition align8 (n : Z) : Z := (n + 7) / 8 * 8.

(** Modelled from the spec: the allocation in the current block, when it has
    room: the region starts at the next multiple of 8 and is zero, as all
    memory that was never handed out. *)
Definition allocInLastBlock (a : MemdbArena) (size : Z)
  : option (MemdbArenaAddr * MemdbArena) :=
  match last (blocks a) with
  | None => None
  | Some b =>
      let used := Z.of_nat (length (data b)) in
      let offset := align8 used in
      if offset + size <=? cap b
      then
        let i := (length (blocks a) - 1)%nat in
        Some ({| idx := Z.of_nat i; off := offset |},
              {| blocks :=
                   <[i := {| cap := cap b;
                             data := data b ++ replicate (Z.to_nat (offset - used)) "000"%byte
                                            ++ replicate (Z.to_nat size) "000"%byte |}]>
                     (blocks a) |})
      else None
  end.

(** Modelled from the spec: a block size doubled until it holds [size]
    bytes. *)
Fixpoint grow (fuel : nat) (blockSize size : Z) : Z :=
  match fuel with
  | O => blockSize
  | S fuel' => if blockSize <? size then grow fuel' (2 * blockSize) size else blockSize
  end.

(** Modelled from the spec: "appends a new block whose capacity doubles up
    to a hard cap" (4.A). *)
Definition enlarge (a : MemdbArena) (size : Z) : MemdbArena :=
  let start :=
    match last (blocks a) with
    | None => initBlockSize
    | Some b => Z.max initBlockSize (2 * cap b)
    end in
  {| blocks := blocks a ++ [ {| cap := Z.min maxBlockSize (grow 64 start size); data := [] |} ] |}.

(** Modelled from the spec: [alloc(size, zero) -> (addr, slice)] "allocates
    [size] bytes aligned to 8.  If the current block lacks room, appends a
    new block whose capacity doubles up to a hard cap, then retries.  If
    [zero], the returned region is zeroed."  The slice is the [size] bytes
    at the address in the arena returned; they are zero whether or not
    [zero] asks for it, as the region was never handed out before.  A size
    beyond the cap is a caller bug ([None]). *)
Definition Alloc (a : MemdbArena) (size : Z) (zero : bool)
  : option (MemdbArenaAddr * MemdbArena) :=
  if (size <? 0) || (maxBlockSize <? size) then None
  else
    match allocInLastBlock a size with
    | Some r => Some r
    | None => allocInLastBlock (enlarge a size) size
    end.

(** Modelled from the spec: [get(addr) -> slice] "returns the region
    previously allocated at [addr]".  The slice runs from the address to
    the end of what the block handed out; [None] is an out-of-bounds
    address, a caller bug. *)
Definition GetData (a : MemdbArena) (addr : MemdbArenaAddr) : option (list byte) :=
  if (idx addr <? 0) || (off addr <? 0) then None
  else
    match blocks a !! Z.to_nat (idx addr) with
    | None => None
    | Some b =>
        if off addr <=? Z.of_nat (length (data b))
        then Some (drop (Z.to_nat (off addr)) (data b))
        else None
    end.

(** A store through a pointer into the arena: [bs] written at [addr].
    [None] when the bytes do not lie in what the block handed out. *)
Definition store (a : MemdbArena) (addr : MemdbArenaAddr) (bs : list byte)
  : option MemdbArena :=
  if (idx addr <? 0) || (off addr <? 0) then None
  else
    match blocks a !! Z.to_nat (idx addr) with
    | None => None
    | Some b =>
        let o := Z.to_nat (off addr) in
        if (o + length bs <=? length (data b))%nat
        then Some {| blocks :=
                       <[Z.to_nat (idx addr) :=
                           {| cap := cap b;
                              data := take o (data b) ++ bs ++ drop (o + length bs) (data b) |}]>
                         (blocks a) |}
        else None
    end.

(** A load through a pointer into the arena: [n] bytes at [addr]. *)
Definition load (a : MemdbArena) (addr : MemdbArenaAddr) (n : nat) : option (list byte) :=
  match GetData a addr with
  | Some d => if (n <=? length d)%nat then Some (take n d) else None
  | None => None
  end.

(** [n] zero bytes. *)
Definition zeros (n : Z) : list byte := replicate (Z.to_nat n) "000"%byte.

(** [addr] lies at or beyond everything its block has handed out in [a],
    or in a block [a] does not have: no earlier allocation of [a] overlaps
    anything allocated at [addr]. *)
Definition fresh (a : MemdbArena) (addr : MemdbArenaAddr) : Prop :=
  match blocks a !! Z.to_nat (idx addr) with
  | Some b => Z.of_nat (length (data b)) <= off addr
  | None => True
  end.

(** The address a field at byte [n] of the object at [addr] has. *)
Definition field (addr : MemdbArenaAddr) (n : Z) : MemdbArenaAddr :=
  {| idx := idx addr; off := off addr + n |}.

End arena.

(** ** Package [art]: the node allocator *)

Module art.
Import arena.

(** [nodeArena]: the arena and the free lists of the three smaller node
    sizes. *)
Record nodeArena : Type := {
  MemdbArena_ : MemdbArena;
  freeNode4 : list MemdbArenaAddr;
  freeNode16 : list MemdbArenaAddr;
  freeNode48 : list MemdbArenaAddr
}.

(** [artAllocator]; its value log allocator takes no part in what follows. *)
Record artAllocator : Type := {
  nodeAllocator : nodeArena
}.

Definition with_arena (f : artAllocator) (a : MemdbArena) : artAllocator :=
  {| nodeAllocator :=
       {| MemdbArena_ := a;
          freeNode4 := freeNode4 (nodeAllocator f);
          freeNode16 := freeNode16 (nodeAllocator f);
          freeNode48 := freeNode48 (nodeAllocator f) |} |}.

Definition with_freeNode4 (f : artAllocator) (l : list MemdbArenaAddr) : artAllocator :=
  {| nodeAllocator :=
       {| MemdbArena_ := MemdbArena_ (nodeAllocator f);
          freeNode4 := l;
          freeNode16 := freeNode16 (nodeAllocator f);
          freeNode48 := freeNode48 (nodeAllocator f) |} |}.

Definition with_freeNode16 (f : artAllocator) (l : list MemdbArenaAddr) : artAllocator :=
  {| nodeAllocator :=
       {| MemdbArena_ := MemdbArena_ (nodeAllocator f);
          freeNode4 := freeNode4 (nodeAllocator f);
          freeNode16 := l;
          freeNode48 := freeNode48 (nodeAllocator f) |} |}.

Definition with_freeNode48 (f : artAllocator) (l : list MemdbArenaAddr) : artAllocator :=
  {| nodeAllocator :=
       {| MemdbArena_ := MemdbArena_ (nodeAllocator f);
          freeNode4 := freeNode4 (nodeAllocator f);
          freeNode16 := freeNode16 (nodeAllocator f);
          freeNode48 := l |} |}.

(** [init()]: the allocator after it, over a given arena. *)
Definition init (a : MemdbArena) : artAllocator :=
  {| nodeAllocator :=
       {| MemdbArena_ := a; freeNode4 := []; freeNode16 := []; freeNode48 := [] |} |}.

(** Modelled from the spec: the node structs and their [init()]
    (art_node.go) are not under src/.  Spec 4.B: [alloc_nodeK] "always
    returns a zero-initialized node": [init()] on the node at [addr], of
    [size] bytes, leaves those bytes zero.  [None] is the panic of
    [&data[0]] on an empty slice or of a store outside the block. *)
Definition node_init (a : MemdbArena) (addr : MemdbArenaAddr) (size : Z)
  : option MemdbArena :=
  match GetData a addr with
  | Some (_ :: _) => store a addr (replicate (Z.to_nat size) "000"%byte)
  | _ => None
  end.

Section NodeSizes.

(** The sizes [unsafe.Sizeof] gives the node structs, which are declared
    in art_node.go. *)
Variables node4size node16size node48size node256size : Z.

(** [allocNode4]: the address and the allocator after the call; the
    [*node4] returned points at the address. *)
Definition allocNode4 (f : artAllocator) : option (MemdbArenaAddr * artAllocator) :=
  match last (freeNode4 (nodeAllocator f)) with
  | Some addr =>
      let f := with_freeNode4 f (removelast (freeNode4 (nodeAllocator f))) in
      match node_init (MemdbArena_ (nodeAllocator f)) addr node4size with
      | Some a => Some (addr, with_arena f a)
      | None => None
      end
  | None =>
      match Alloc (MemdbArena_ (nodeAllocator f)) node4size true with
      | Some (addr, a) =>
          match node_init a addr node4size with
          | Some a' => Some (addr, with_arena f a')
          | None => None
          end
      | None => None
      end
  end.

Definition freeNode4_ (f : artAllocator) (addr : MemdbArenaAddr) : artAllocator :=
  with_freeNode4 f (freeNode4 (nodeAllocator f) ++ [addr]).

Definition allocNode16 (f : artAllocator) : option (MemdbArenaAddr * artAllocator) :=
  match last (freeNode16 (nodeAllocator f)) with
  | Some addr =>
      let f := with_freeNode16 f (removelast (freeNode16 (nodeAllocator f))) in
      match node_init (MemdbArena_ (nodeAllocator f)) addr node16size with
      | Some a => Some (addr, with_arena f a)
      | None => None
      end
  | None =>
      match Alloc (MemdbArena_ (nodeAllocator f)) node16size true with
      | Some (addr, a) =>
          match node_init a addr node16size with
          | Some a' => Some (addr, with_arena f a')
          | None => None
          end
      | None => None
      end
  end.

Definition freeNode16_ (f : artAllocator) (addr : MemdbArenaAddr) : artAllocator :=
  with_freeNode16 f (freeNode16 (nodeAllocator f) ++ [addr]).

Definition allocNode48 (f : artAllocator) : option (MemdbArenaAddr * artAllocator) :=
  match last (freeNode48 (nodeAllocator f)) with
  | Some addr =>
      let f := with_freeNode48 f (removelast (freeNode48 (nodeAllocator f))) in
      match node_init (MemdbArena_ (nodeAllocator f)) addr node48size with
      | Some a => Some (addr, with_arena f a)
      | None => None
      end
  | None =>
      match Alloc (MemdbArena_ (nodeAllocator f)) node48size true with
      | Some (addr, a) =>
          match node_init a addr node48size with
          | Some a' => Some (addr, with_arena f a')
          | None => None
          end
      | None => None
      end
  end.

Definition freeNode48_ (f : artAllocator) (addr : MemdbArenaAddr) : artAllocator :=
  with_freeNode48 f (freeNode48 (nodeAllocator f) ++ [addr]).

Definition allocNode256 (f : artAllocator) : option (MemdbArenaAddr * artAllocator) :=
  match Alloc (MemdbArena_ (nodeAllocator f)) node256size true with
  | Some (addr, a) =>
      match node_init a addr node256size with
      | Some a' => Some (addr, with_arena f a')
      | None => None
      end
  | None => None
  end.

(** [getNode4] and its siblings: the node at [addr]; [None] is the panic
    of an address out of bounds. *)
Definition getNode (f : artAllocator) (addr : MemdbArenaAddr) (size : Z)
  : option (list byte) :=
  load (MemdbArena_ (nodeAllocator f)) addr (Z.to_nat size).

End NodeSizes.

(** Modelled from the spec: the struct [artLeaf] (art_node.go) is not under
    src/.  Spec 3.3: "a leaf holds: key length, key bytes (inline tail), a
    KeyFlags bitmask, and a vlog head address"; [allocLeaf] names the
    fields [vAddr] (an arena address), [klen] (a [uint16]) and [flags].
    The header is laid out in that order, little-endian: [vAddr] in bytes
    0..8, [klen] in 8..10, [flags] in 10..12. *)
Definition leafSize : Z := 12.

(** Modelled from the spec: where the header keeps [vAddr]. *)
Definition vAddr_offset : Z := 0.

(** Modelled from the spec: where the header keeps [klen]. *)
Definition klen_offset : Z := 8.

(** Modelled from the spec: where the header keeps [flags]. *)
Definition flags_offset : Z := 10.

(** Modelled from the spec: an arena address in memory, "a 64-bit opaque
    identifier encoding a block index and offset" (3.1): the index, then
    the offset, four bytes each. *)
Definition encode_addr (addr : MemdbArenaAddr) : list byte :=
  le_bytes 4 (idx addr) ++ le_bytes 4 (off addr).

(** Modelled from the spec: the address eight bytes of memory hold. *)
Definition decode_addr (bs : list byte) : MemdbArenaAddr :=
  {| idx := le_value (take 4 bs); off := le_value (drop 4 bs) |}.

(** Stores through a [*artLeaf]. *)
Definition set_klen (a : MemdbArena) (lf : MemdbArenaAddr) (klen : Z) : option MemdbArena :=
  store a (field lf klen_offset) (le_bytes 2 klen).

Definition set_flags (a : MemdbArena) (lf : MemdbArenaAddr) (flags : Z) : option MemdbArena :=
  store a (field lf flags_offset) (le_bytes 2 flags).

Definition set_vAddr (a : MemdbArena) (lf : MemdbArenaAddr) (v : MemdbArenaAddr)
  : option MemdbArena :=
  store a (field lf vAddr_offset) (encode_addr v).

(** Loads through a [*artLeaf]. *)
Definition klen (a : MemdbArena) (lf : MemdbArenaAddr) : option Z :=
  le_value <$> load a (field lf klen_offset) 2.

Definition flags (a : MemdbArena) (lf : MemdbArenaAddr) : option Z :=
  le_value <$> load a (field lf flags_offset) 2.

Definition vAddr (a : MemdbArena) (lf : MemdbArenaAddr) : option MemdbArenaAddr :=
  decode_addr <$> load a (field lf vAddr_offset) 8.

(** The [n] bytes that follow the header of the leaf. *)
Definition key_bytes (a : MemdbArena) (lf : MemdbArenaAddr) (n : nat) : option (list byte) :=
  load a (field lf leafSize) n.

(** [allocLeaf]: the address and the allocator after the call; the
    [*artLeaf] returned points at the address.  [uint16(len(key))]
    truncates. *)
Definition allocLeaf (f : artAllocator) (key : bytes)
  : option (MemdbArenaAddr * artAllocator) :=
  let size := leafSize + Z.of_nat (length key) in
  match Alloc (MemdbArena_ (nodeAllocator f)) size true with
  | None => None
  | Some (addr, a) =>
      match set_klen a addr (Z.of_nat (length key) mod 2 ^ 16) with
      | None => None
      | Some a =>
          match set_flags a addr 0 with
          | None => None
          | Some a =>
              match set_vAddr a addr NullAddr with
              | None => None
              | Some a =>
                  match store a (field addr leafSize) key with
                  | None => None
                  | Some a => Some (addr, with_arena f a)
                  end
              end
          end
      end
  end.

(** The key length stored in the leaf [allocLeaf] returns. *)
Definition allocLeaf_klen (f : artAllocator) (key : bytes) : option Z :=
  match allocLeaf f key with
  | Some (addr, f') => klen (MemdbArena_ (nodeAllocator f')) addr
  | None => None
  end.

(** [getLeaf]: [Returns None] is a nil [*artLeaf], [Returns (Some p)] a
    pointer to the leaf at [p]; [Panics] is an address out of bounds. *)
Definition getLeaf (f : artAllocator) (addr : MemdbArenaAddr)
  : outcome (option MemdbArenaAddr) :=
  if IsNull addr then Returns None
  else
    match GetData (MemdbArena_ (nodeAllocator f)) addr with
    | Some (_ :: _) => Returns (Some addr)
    | _ => Panics
    end.

(** [n] calls of an allocation function, one after the other: the
    addresses returned, in order, and the allocator after the last. *)
Fixpoint allocs (alloc : artAllocator -> option (MemdbArenaAddr * artAllocator))
    (n : nat) (f : artAllocator) : option (list MemdbArenaAddr * artAllocator) :=
  match n with
  | O => Some ([], f)
  | S n' =>
      match alloc f with
      | Some (addr, f') =>
          match allocs alloc n' f' with
          | Some (l, f'') => Some (addr :: l, f'')
          | None => None
          end
      | None => None
      end
  end.

(** What an allocation returns, with [g] applied to the allocator after
    it. *)
Definition and_then (g : artAllocator -> artAllocator)
    (r : option (MemdbArenaAddr * artAllocator)) : option (MemdbArenaAddr * artAllocator) :=
  match r with
  | Some (addr, f') => Some (addr, g f')
  | None => None
  end.

(** A node of [size] bytes lies at [addr]: the arena has handed out that
    many bytes at least from [addr] on. *)
Definition holds_node (a : MemdbArena) (size : Z) (addr : MemdbArenaAddr) : Prop :=
  exists R, GetData a addr = Some R /\ 0 < size /\ (Z.to_nat size <= length R)%nat.

(** Every byte [a] has handed out is in [a'], at the same address. *)
Definition extends (a a' : MemdbArena) : Prop :=
  forall addr R, GetData a addr = Some R ->
    exists R', GetData a' addr = Some (R ++ R').

(** No block is larger than the cap, as in every arena [Alloc] has built:
    offsets stay below the NULL sentinel. *)
Definition capped (a : MemdbArena) : Prop :=
  Forall (fun b => cap b <= maxBlockSize) (blocks a).

End art.

(** ** Package [rangetask] *)

Module rangetask.

(** [kv.KeyRange]. *)
Record KeyRange : Type := {
  StartKey : bytes;
  EndKey : bytes
}.

Record TaskStat : Type := {
  CompletedRegions : Z;
  FailedRegions : Z
}.

(** [TaskHandler]: what the handler returns for a range. *)
Definition TaskHandler : Type := KeyRange -> TaskStat * option error.

(** The one method of the store the runner calls:
    [GetRegionCache().BatchLoadRegionsFromKey(bo, key, count)], the end key
    of the last region loaded (empty: unbounded) or an error. *)
Record storage : Type := {
  BatchLoadRegionsFromKey : bytes -> Z -> bytes * option error
}.

Record Runner : Type := {
  store : storage;
  concurrency : Z;
  handler : TaskHandler;
  regionsPerTask : Z;
  completedRegions : Z;
  failedRegions : Z
}.

Definition defaultRegionsPerTask : Z := 128.

Definition NewRangeTaskRunner (store : storage) (concurrency : Z) (handler : TaskHandler)
  : Runner :=
  {| store := store; concurrency := concurrency; handler := handler;
     regionsPerTask := defaultRegionsPerTask;
     completedRegions := 0; failedRegions := 0 |}.

(** [SetRegionsPerTask]; it panics below 1. *)
Definition SetRegionsPerTask (s : Runner) (n : Z) : outcome Runner :=
  if n <? 1 then Panics
  else Returns {| store := store s; concurrency := concurrency s; handler := handler s;
                  regionsPerTask := n;
                  completedRegions := completedRegions s;
                  failedRegions := failedRegions s |}.

(** [int32(n)] and the wrap-around of [atomic.AddInt32]. *)
Definition int32 (n : Z) : Z := (n + 2 ^ 31) mod 2 ^ 32 - 2 ^ 31.

(** The guard of [RunOnRange]: the range is empty. *)
Definition emptyRange (startKey endKey : bytes) : bool :=
  negb (length endKey =? 0)%nat
  && negb (bool_decide (bytes_Compare startKey endKey = Lt)).

(** [isLast] for the end key the region cache returned. *)
Definition isLast (endKey rangeEndKey : bytes) : bool :=
  (length rangeEndKey =? 0)%nat
  || ((0 <? length endKey)%nat
      && negb (bool_decide (bytes_Compare rangeEndKey endKey = Lt))).

(** *** The goroutines of [RunOnRange]

    [RunOnRange] runs a dispatch loop and [concurrency] workers over one
    buffered channel and one cancellable context.  A state of the run: *)
Inductive dispatcher : Type :=
| Dispatching (key : bytes)
| Closed
| LoadFailed (err : error).

(** A worker: still in its loop or returned, and its [err] field. *)
Record rangeTaskWorker : Type := {
  running : bool;
  err : option error
}.

Record state : Type := {
  loop : dispatcher;
  taskCh : list KeyRange;
  ctxErr : option error;
  workers : list rangeTaskWorker;
  completed : Z;
  failed : Z;
  pushed : list KeyRange;
  lastPushed : bool;
  handled : list (KeyRange * option error)
}.

(** What a schedule is made of: one turn of the dispatch loop (with the
    choice [select] makes when the channel has room and the context is
    done), one turn of a worker, or the caller's context ending with an
    error ([context.Canceled], [context.DeadlineExceeded]). *)
Inductive event : Type :=
| EvDispatch (pickDone : bool)
| EvWorker (i : nat)
| EvCtxDone (e : error).

Section Run.
Variable s : Runner.
Variables startKey endKey : bytes.

(** The state when the loop is entered: the workers are running, nothing
    is pushed.  [ctx0] is the error of the caller's context, if it is done
    already.  On an empty range [RunOnRange] returns before it makes a
    worker or the channel. *)
Definition enter (ctx0 : option error) : state :=
  if emptyRange startKey endKey
  then {| loop := Closed; taskCh := []; ctxErr := ctx0; workers := [];
          completed := 0; failed := failedRegions s;
          pushed := []; lastPushed := false; handled := [] |}
  else {| loop := Dispatching startKey; taskCh := []; ctxErr := ctx0;
          workers := replicate (Z.to_nat (concurrency s))
                               {| running := true; err := None |};
          completed := 0; failed := failedRegions s;
          pushed := []; lastPushed := false; handled := [] |}.

Definition set_loop (st : state) (d : dispatcher) : state :=
  {| loop := d; taskCh := taskCh st; ctxErr := ctxErr st; workers := workers st;
     completed := completed st; failed := failed st;
     pushed := pushed st; lastPushed := lastPushed st; handled := handled st |}.

(** The task the loop builds at [key] from the end key the region cache
    returned. *)
Definition task_at (key rangeEndKey : bytes) : KeyRange :=
  {| StartKey := key;
     EndKey := if isLast endKey rangeEndKey then endKey else rangeEndKey |}.

(** One turn of the dispatch loop: the region load, the task it builds and
    the [select] that pushes it or sees the context done, taken as one
    step.  With no room in the channel and a live context the loop waits. *)
Definition dispatch (st : state) (pickDone : bool) : state :=
  match loop st with
  | Dispatching key =>
      match BatchLoadRegionsFromKey (store s) key (regionsPerTask s) with
      | (_, Some e) => set_loop st (LoadFailed e)
      | (rangeEndKey, None) =>
          let task := task_at key rangeEndKey in
          let room := (Z.of_nat (length (taskCh st)) <? concurrency s) in
          let done := bool_decide (ctxErr st ≠ None) in
          if room && negb (done && pickDone)
          then {| loop := if isLast endKey rangeEndKey then Closed
                          else Dispatching (EndKey task);
                  taskCh := taskCh st ++ [task]; ctxErr := ctxErr st;
                  workers := workers st;
                  completed := completed st; failed := failed st;
                  pushed := pushed st ++ [task];
                  lastPushed := isLast endKey rangeEndKey;
                  handled := handled st |}
          else if done then set_loop st Closed
          else st
      end
  | _ => st
  end.

(** The channel is closed once the loop is left. *)
Definition closed (st : state) : bool :=
  match loop st with
  | Dispatching _ => false
  | _ => true
  end.

(** One turn of [rangeTaskWorker.run] for the worker [i]: the receive from
    the channel, the check of the context, the handler call and what the
    worker records, taken as one step. *)
Definition work (st : state) (i : nat) : state :=
  match workers st !! i with
  | Some {| running := true; err := werr |} =>
      match taskCh st with
      | r :: rest =>
          match ctxErr st with
          | Some e =>
              {| loop := loop st; taskCh := rest; ctxErr := ctxErr st;
                 workers := <[i := {| running := false; err := Some e |}]> (workers st);
                 completed := completed st; failed := failed st;
                 pushed := pushed st; lastPushed := lastPushed st;
                 handled := handled st |}
          | None =>
              let '(stat, herr) := handler s r in
              {| loop := loop st; taskCh := rest;
                 ctxErr := match herr with
                           | Some _ => Some ContextCanceled
                           | None => None
                           end;
                 workers := match herr with
                            | Some e => <[i := {| running := false; err := Some e |}]> (workers st)
                            | None => workers st
                            end;
                 completed := int32 (completed st + int32 (CompletedRegions stat));
                 failed := int32 (failed st + int32 (FailedRegions stat));
                 pushed := pushed st; lastPushed := lastPushed st;
                 handled := handled st ++ [(r, herr)] |}
          end
      | [] =>
          if closed st
          then {| loop := loop st; taskCh := []; ctxErr := ctxErr st;
                  workers := <[i := {| running := false; err := werr |}]> (workers st);
                  completed := completed st; failed := failed st;
                  pushed := pushed st; lastPushed := lastPushed st;
                  handled := handled st |}
          else st
      end
  | _ => st
  end.

(** The caller's context ends; a context that is done stays as it is. *)
Definition ctx_done (st : state) (e : error) : state :=
  match ctxErr st with
  | Some _ => st
  | None =>
      {| loop := loop st; taskCh := taskCh st; ctxErr := Some e; workers := workers st;
         completed := completed st; failed := failed st;
         pushed := pushed st; lastPushed := lastPushed st; handled := handled st |}
  end.

Definition step (st : state) (ev : event) : state :=
  match ev with
  | EvDispatch pickDone => dispatch st pickDone
  | EvWorker i => work st i
  | EvCtxDone e => ctx_done st e
  end.

Fixpoint run (st : state) (evs : list event) : state :=
  match evs with
  | [] => st
  | ev :: evs' => run (step st ev) evs'
  end.

(** The first worker, in the order they were made, whose [err] is set. *)
Fixpoint first_err (ws : list rangeTaskWorker) : option error :=
  match ws with
  | [] => None
  | w :: ws' =>
      match err w with
      | Some e => Some e
      | None => first_err ws'
      end
  end.

(** What [RunOnRange] returns, once it returns: after the loop is left and
    [wg.Wait()] has seen every worker return.  A failed region load returns
    its error (the deferred function closes the channel and waits);
    otherwise the first worker error is returned, wrapped by
    [errors.WithStack]. *)
Definition returned (st : state) : option (option error) :=
  if forallb (fun w => negb (running w)) (workers st)
  then match loop st with
       | Dispatching _ => None
       | LoadFailed e => Some (Some e)
       | Closed =>
           Some (match first_err (workers st) with
                 | Some e => Some (WithStack e)
                 | None => None
                 end)
       end
  else None.


(** [RunOnRange] under the schedule [evs]: [Returns (Some r)] when it has
    returned [r], [Returns None] when it has not returned yet.  On an empty
    range it returns nil at once; a negative [concurrency] makes [make]
    panic. *)
Definition RunOnRange (ctx0 : option error) (evs : list event)
  : outcome (option (option error)) :=
  if emptyRange startKey endKey then Returns (Some None)
  else if concurrency s <? 0 then Panics
  else Returns (returned (run (enter ctx0) evs)).

(** Where the loop stands after pushing [ts]. *)
Definition cursor (ts : list KeyRange) : bytes :=
  match last ts with
  | Some t => EndKey t
  | None => startKey
  end.

(** [ts] is a sequence of contiguous tasks from [startKey] on: the first
    task starts at [startKey]; each next task starts at the end key of the
    one before it, which is the end key the region cache returned for it;
    the task pushed last ends at that end key too, unless [fin] says it is
    the last task of the range, which ends at [endKey]. *)
Definition chain (ts : list KeyRange) (fin : bool) : Prop :=
  (forall t, ts !! 0%nat = Some t -> StartKey t = startKey)
  /\ (forall i t t', ts !! i = Some t -> ts !! S i = Some t' ->
        StartKey t' = EndKey t
        /\ exists rangeEndKey,
             BatchLoadRegionsFromKey (store s) (StartKey t) (regionsPerTask s)
             = (rangeEndKey, None)
             /\ isLast endKey rangeEndKey = false /\ EndKey t = rangeEndKey)
  /\ (forall t, last ts = Some t ->
        exists rangeEndKey,
          BatchLoadRegionsFromKey (store s) (StartKey t) (regionsPerTask s)
          = (rangeEndKey, None)
          /\ fin = isLast endKey rangeEndKey
          /\ EndKey t = if isLast endKey rangeEndKey then endKey else rangeEndKey)
  /\ (ts = [] -> fin = false).

(** What the loop has pushed, and where it stands. *)
Definition loop_inv (st : state) : Prop :=
  chain (pushed st) (lastPushed st)
  /\ match loop st with
     | Dispatching key => lastPushed st = false /\ key = cursor (pushed st)
     | _ => True
     end.

(** How the loop was left by [break]: after the last task of the range was
    pushed, or because the context was done.  (On an empty range the loop
    is never entered.) *)
Definition left_by_break (st : state) : Prop :=
  loop st = Closed ->
  emptyRange startKey endKey = true \/ lastPushed st = true \/ ctxErr st ≠ None.

(** The channel is closed and holds nothing, or the context is done: a
    worker that takes its turn returns. *)
Definition draining (st : state) : Prop :=
  closed st = true /\ (taskCh st = [] \/ ctxErr st ≠ None).



(** The schedule that lets the loop push a task and the first worker take
    it, [n] times over, and then lets every worker see the closed channel. *)
Definition in_turn (n : nat) : list event :=
  concat (replicate n [EvDispatch false; EvWorker 0])
  ++ (EvWorker <$> seq 0 (Z.to_nat (concurrency s))).

(** The regions the handler counted, by [f], over the tasks handled. *)
Fixpoint regionsCounted (f : TaskStat -> Z) (hs : list (KeyRange * option error)) : Z :=
  match hs with
  | [] => 0
  | p :: hs' => f (handler s p.1).1 + regionsCounted f hs'
  end.

(** What the two counters hold: [completedRegions] is set to 0 when
    [RunOnRange] starts, [failedRegions] is not; each handled task adds
    what the handler counted, in [int32]. *)
Definition counters_inv (st : state) : Prop :=
  completed st = int32 (regionsCounted CompletedRegions (handled st))
  /\ failed st = match handled st with
                 | [] => failedRegions s
                 | _ => int32 (failedRegions s + regionsCounted FailedRegions (handled st))
                 end.


(** The channel holds at most [concurrency] tasks, and there are exactly
    [concurrency] workers (none on an empty range). *)
Definition capacity_inv (st : state) : Prop :=
  Z.of_nat (length (taskCh st)) <= Z.max 0 (concurrency s)
  /\ length (workers st)
     = if emptyRange startKey endKey then 0%nat else Z.to_nat (concurrency s).


(** The context was done with the error [e] before the loop was entered:
    no task was handled, and a worker that holds an error holds [e]. *)
Definition ctx_held (e : error) (st : state) : Prop :=
  ctxErr st = Some e /\ handled st = [] /\ completed st = 0
  /\ Forall (fun w => err w = None \/ err w = Some e) (workers st).

(** Nothing was pushed or handled, and there is no worker. *)
Definition idle_inv (st : state) : Prop :=
  pushed st = [] /\ handled st = [] /\ workers st = [] /\ taskCh st = [].

End Run.

(** A region cache over the split keys [splits], in ascending order: the
    regions are the gaps between consecutive split keys, and loading
    [count] regions from [key] returns the [count]-th split key after
    [key], or the empty key when the last region is reached. *)
Definition splitRegions (splits : list bytes) : storage :=
  {| BatchLoadRegionsFromKey := fun key count =>
       match filter (fun b => bytes_Compare key b = Lt) splits !! (Z.to_nat count - 1)%nat with
       | Some b => (b, None)
       | None => ([], None)
       end |}.

(** [k] lies in the range of the task [t]: at or after its start key and
    before its end key, an empty end key being unbounded. *)
Definition covers (t : KeyRange) (k : bytes) : Prop :=
  bytes_Compare k (StartKey t) ≠ Lt
  /\ (EndKey t = [] \/ bytes_Compare k (EndKey t) = Lt).

(** The region cache makes progress: the end key it returns for the
    regions loaded from [key] is past [key], or is empty (the last region
    is unbounded). *)
Definition progresses (s : Runner) : Prop :=
  forall key b,
    BatchLoadRegionsFromKey (store s) key (regionsPerTask s) = (b, None) ->
    b = [] \/ bytes_Compare key b = Lt.

(** The tasks [ts] tile the range from [a] to [endKey]: each starts where
    the one before ends, each but the last has a range that is bounded, not
    empty and ends before [endKey], and the last ends at [endKey]. *)
Fixpoint tiles (endKey a : bytes) (ts : list KeyRange) : Prop :=
  match ts with
  | [] => False
  | t :: ts' =>
      StartKey t = a
      /\ match ts' with
         | [] => EndKey t = endKey
         | _ :: _ =>
             EndKey t ≠ [] /\ bytes_Compare a (EndKey t) = Lt
             /\ (endKey = [] \/ bytes_Compare (EndKey t) endKey = Lt)
             /\ tiles endKey (EndKey t) ts'
         end
  end.

End rangetask.

(** ** Package [apicodec]: the codec of API v1 *)

(** [metapb.Region], by its id and its range; the epoch and the peers take
    no part in what the codec does. *)
Module metapb.

Record Region : Type := {
  Id : Z;
  StartKey : bytes;
  EndKey : bytes
}.

End metapb.

(** [errorpb.Error], by the two members the codec looks at; [Message]
    stands for every member it leaves alone.  Members that are pointers
    are [option]s, [None] being nil. *)
Module errorpb.

Record KeyNotInRegion : Type := {
  Key : bytes;
  RegionId : Z;
  StartKey : bytes;
  EndKey : bytes
}.

Record EpochNotMatch : Type := {
  CurrentRegions : list (option metapb.Region)
}.

Record Error : Type := {
  Message : list byte;
  KeyNotInRegion_ : option KeyNotInRegion;
  EpochNotMatch_ : option EpochNotMatch
}.

End errorpb.

Module apicodec.

(** The [memCodec] interface, as the value a [codecV1] holds: its two
    methods. *)
Record memCodec : Type := {
  encodeKey : bytes -> bytes;
  decodeKey : bytes -> bytes * option error
}.

Record codecV1 : Type := {
  memCodec_ : memCodec
}.

(** [EncodeRegionKey]: an empty key means no bound and is not encoded. *)
Definition EncodeRegionKey (c : codecV1) (key : bytes) : bytes :=
  if (length key =? 0)%nat then key else encodeKey (memCodec_ c) key.

(** [DecodeRegionKey]. *)
Definition DecodeRegionKey (c : codecV1) (encodedKey : bytes) : bytes * option error :=
  if (length encodedKey =? 0)%nat then (encodedKey, None)
  else decodeKey (memCodec_ c) encodedKey.

(** [EncodeRegionRange]. *)
Definition EncodeRegionRange (c : codecV1) (start end_ : bytes) : bytes * bytes :=
  (EncodeRegionKey c start, EncodeRegionKey c end_).

(** [DecodeRegionRange]: both keys are nil when either fails to decode. *)
Definition DecodeRegionRange (c : codecV1) (encodedStart encodedEnd : bytes)
  : bytes * bytes * option error :=
  match DecodeRegionKey c encodedStart with
  | (_, Some err) => ([], [], Some err)
  | (start, None) =>
      match DecodeRegionKey c encodedEnd with
      | (_, Some err) => ([], [], Some err)
      | (end_, None) => (start, end_, None)
      end
  end.

(** The loop of [decodeRegionError] over [errInfo.CurrentRegions]: the
    regions after it, and the error that ended it.  Each region is written
    before the error is looked at; a nil region panics. *)
Fixpoint decodeCurrentRegions (c : codecV1) (metas : list (option metapb.Region))
  : outcome (list (option metapb.Region) * option error) :=
  match metas with
  | [] => Returns ([], None)
  | None :: _ => Panics
  | Some meta :: rest =>
      let '(start, end_, err) :=
        DecodeRegionRange c (metapb.StartKey meta) (metapb.EndKey meta) in
      let meta' := {| metapb.Id := metapb.Id meta;
                      metapb.StartKey := start; metapb.EndKey := end_ |} in
      match err with
      | Some e => Returns (Some meta' :: rest, Some e)
      | None =>
          match decodeCurrentRegions c rest with
          | Returns (rest', err') => Returns (Some meta' :: rest', err')
          | Panics => Panics
          end
      end
  end.

(** [decodeRegionError].  It decodes the keys of [regionError] in place:
    the result is what [regionError] points at after the call, then the
    two values returned, of which the first is [regionError] itself or nil. *)
Definition decodeRegionError (c : codecV1) (regionError : option errorpb.Error)
  : outcome (option errorpb.Error * (option errorpb.Error * option error)) :=
  match regionError with
  | None => Returns (None, (None, None))
  | Some re =>
      let '(kn, err) :=
        match errorpb.KeyNotInRegion_ re with
        | Some errInfo =>
            let '(start, end_, err) :=
              DecodeRegionRange c (errorpb.StartKey errInfo) (errorpb.EndKey errInfo) in
            (Some {| errorpb.Key := errorpb.Key errInfo;
                     errorpb.RegionId := errorpb.RegionId errInfo;
                     errorpb.StartKey := start; errorpb.EndKey := end_ |}, err)
        | None => (None, None)
        end in
      match err with
      | Some e =>
          Returns (Some {| errorpb.Message := errorpb.Message re;
                           errorpb.KeyNotInRegion_ := kn;
                           errorpb.EpochNotMatch_ := errorpb.EpochNotMatch_ re |},
                   (None, Some e))
      | None =>
          match errorpb.EpochNotMatch_ re with
          | Some errInfo =>
              match decodeCurrentRegions c (errorpb.CurrentRegions errInfo) with
              | Panics => Panics
              | Returns (metas, err) =>
                  let re' := {| errorpb.Message := errorpb.Message re;
                                errorpb.KeyNotInRegion_ := kn;
                                errorpb.EpochNotMatch_ :=
                                  Some {| errorpb.CurrentRegions := metas |} |} in
                  match err with
                  | Some e => Returns (Some re', (None, Some e))
                  | None => Returns (Some re', (Some re', None))
                  end
              end
          | None =>
              let re' := {| errorpb.Message := errorpb.Message re;
                            errorpb.KeyNotInRegion_ := kn;
                            errorpb.EpochNotMatch_ := None |} in
              Returns (Some re', (Some re', None))
          end
      end
  end.

(** A codec whose [decodeKey] undoes [encodeKey] on every key that is not
    empty, and whose [encodeKey] never makes such a key empty. *)
Definition round_trips (m : memCodec) : Prop :=
  forall k, k <> [] -> encodeKey m k <> [] /\ decodeKey m (encodeKey m k) = (k, None).

(** The keys of a region error, encoded: what a store behind the codec
    sends for the region error [re]. *)
Definition encodeRegion (c : codecV1) (meta : metapb.Region) : metapb.Region :=
  {| metapb.Id := metapb.Id meta;
     metapb.StartKey := EncodeRegionKey c (metapb.StartKey meta);
     metapb.EndKey := EncodeRegionKey c (metapb.EndKey meta) |}.

Definition encodeRegionError (c : codecV1) (re : errorpb.Error) : errorpb.Error :=
  {| errorpb.Message := errorpb.Message re;
     errorpb.KeyNotInRegion_ :=
       (fun errInfo : errorpb.KeyNotInRegion =>
          {| errorpb.Key := errorpb.Key errInfo;
             errorpb.RegionId := errorpb.RegionId errInfo;
             errorpb.StartKey := EncodeRegionKey c (errorpb.StartKey errInfo);
             errorpb.EndKey := EncodeRegionKey c (errorpb.EndKey errInfo) |})
       <$> errorpb.KeyNotInRegion_ re;
     errorpb.EpochNotMatch_ :=
       (fun errInfo : errorpb.EpochNotMatch =>
          {| errorpb.CurrentRegions :=
               option_map (encodeRegion c) <$> errorpb.CurrentRegions errInfo |})
       <$> errorpb.EpochNotMatch_ re |}.

End apicodec.

(** ** Scenarios of the specification *)

Module scenario.
Import unionstore memdb.

(** Scenario 8.2.4: the snapshot holds [a], [b] and [c]; the buffer
    overwrites [a] and deletes [b]. *)
Definition the_snapshot : listSnapshot :=
  {| snapshot_entries :=
       [(["a"%byte], ["S"%byte]); (["b"%byte], ["S"%byte]); (["c"%byte], ["S"%byte])] |}.

Definition the_buffer : MemDB :=
  (Delete (Set_ newMemDB ["a"%byte] ["B"%byte]).1 ["b"%byte]).1.

Definition the_store : KVUnionStore MemDB listSnapshot :=
  NewUnionStore the_buffer the_snapshot.

(** A runner over the regions split at [g], [n] and [t], one region per
    task, two workers, a handler that never fails. *)
Definition the_runner : rangetask.Runner :=
  {| rangetask.store := rangetask.splitRegions [["g"%byte]; ["n"%byte]; ["t"%byte]];
     rangetask.concurrency := 2;
     rangetask.handler := fun _ =>
       ({| rangetask.CompletedRegions := 1; rangetask.FailedRegions := 0 |}, None);
     rangetask.regionsPerTask := 1;
     rangetask.completedRegions := 0;
     rangetask.failedRegions := 0 |}.

(** The same runner with a handler that fails on the range starting at [g]. *)
Definition the_failing_runner : rangetask.Runner :=
  {| rangetask.store := rangetask.splitRegions [["g"%byte]; ["n"%byte]; ["t"%byte]];
     rangetask.concurrency := 2;
     rangetask.handler := fun r =>
       ({| rangetask.CompletedRegions := 0; rangetask.FailedRegions := 1 |},
        if bool_decide (rangetask.StartKey r = ["g"%byte]) then Some ErrUnknown else None);
     rangetask.regionsPerTask := 1;
     rangetask.completedRegions := 0;
     rangetask.failedRegions := 0 |}.


(** A schedule in which the second worker runs the first two tasks and the
    first worker takes the third. *)
Definition failing_schedule : list rangetask.event :=
  [rangetask.EvDispatch false; rangetask.EvWorker 1; rangetask.EvDispatch false;
   rangetask.EvDispatch false; rangetask.EvWorker 1; rangetask.EvWorker 0;
   rangetask.EvWorker 0].


(** A runner with no worker and an unbuffered channel. *)
Definition the_idle_runner : rangetask.Runner :=
  {| rangetask.store := rangetask.splitRegions [["g"%byte]; ["n"%byte]; ["t"%byte]];
     rangetask.concurrency := 0;
     rangetask.handler := fun _ =>
       ({| rangetask.CompletedRegions := 1; rangetask.FailedRegions := 0 |}, None);
     rangetask.regionsPerTask := 1;
     rangetask.completedRegions := 0;
     rangetask.failedRegions := 0 |}.

(** A runner whose region cache fails when asked for the regions from
    [g] on. *)
Definition the_broken_runner : rangetask.Runner :=
  {| rangetask.store :=
       {| rangetask.BatchLoadRegionsFromKey := fun key count =>
            if bool_decide (key = ["g"%byte]) then ([], Some (ErrorString 1))
            else rangetask.BatchLoadRegionsFromKey
                   (rangetask.splitRegions [["g"%byte]; ["n"%byte]; ["t"%byte]]) key count |};
     rangetask.concurrency := 2;
     rangetask.handler := fun _ =>
       ({| rangetask.CompletedRegions := 1; rangetask.FailedRegions := 0 |}, None);
     rangetask.regionsPerTask := 1;
     rangetask.completedRegions := 0;
     rangetask.failedRegions := 0 |}.

(** A codec for examples: a key is encoded by the byte [x] in front of
    it. *)
Definition prefix_codec : apicodec.memCodec :=
  {| apicodec.encodeKey := fun k => "x"%byte :: k;
     apicodec.decodeKey := fun k =>
       match k with
       | "x"%byte :: k' => (k', None)
       | _ => ([], Some (ErrorString 0))
       end |}.

Definition the_codec : apicodec.codecV1 := {| apicodec.memCodec_ := prefix_codec |}.

(** A region error with both members the codec decodes: the range of the
    region that does not hold the key, and two current regions, the second
    unbounded. *)
Definition the_region_error : errorpb.Error :=
  {| errorpb.Message := [];
     errorpb.KeyNotInRegion_ :=
       Some {| errorpb.Key := ["k"%byte]; errorpb.RegionId := 2;
               errorpb.StartKey := ["a"%byte]; errorpb.EndKey := ["g"%byte] |};
     errorpb.EpochNotMatch_ :=
       Some {| errorpb.CurrentRegions :=
                 [ Some {| metapb.Id := 2; metapb.StartKey := ["a"%byte];
                           metapb.EndKey := ["g"%byte] |};
                   Some {| metapb.Id := 3; metapb.StartKey := ["g"%byte];
                           metapb.EndKey := [] |} ] |} |}.

(** A region error whose second region has an end key the codec cannot
    decode. *)
Definition the_undecodable_region_error : errorpb.Error :=
  {| errorpb.Message := [];
     errorpb.KeyNotInRegion_ := None;
     errorpb.EpochNotMatch_ :=
       Some {| errorpb.CurrentRegions :=
                 [ Some {| metapb.Id := 2; metapb.StartKey := ["x"%byte; "a"%byte];
                           metapb.EndKey := ["x"%byte; "g"%byte] |};
                   Some {| metapb.Id := 3; metapb.StartKey := ["x"%byte; "g"%byte];
                           metapb.EndKey := ["g"%byte] |};
                   Some {| metapb.Id := 4; metapb.StartKey := ["x"%byte; "n"%byte];
                           metapb.EndKey := [] |} ] |} |}.

(** An allocator that has handed out one [node4], of 52 bytes, and the
    address of that node: the first of the arena. *)
Definition the_node_allocator : art.artAllocator :=
  match art.allocNode4 52 (art.init {| arena.blocks := [] |}) with
  | Some (_, f) => f
  | None => art.init {| arena.blocks := [] |}
  end.

Definition the_node : arena.MemdbArenaAddr := {| arena.idx := 0; arena.off := 0 |}.

(** An allocator that has handed out one leaf, for the key [key]. *)
Definition the_allocator : art.artAllocator :=
  match art.allocLeaf (art.init {| arena.blocks := [] |})
                      ["k"%byte; "e"%byte; "y"%byte] with
  | Some (_, f) => f
  | None => art.init {| arena.blocks := [] |}
  end.

(** The same allocator after a [node4] was allocated next to the leaf and
    freed again. *)
Definition the_freed_allocator : art.artAllocator :=
  match art.allocNode4 52 the_allocator with
  | Some (addr, f) => art.freeNode4_ f addr
  | None => the_allocator
  end.

End scenario.

(** * Properties *)

(** ** [bytes.Compare] is a total order *)

Lemma byte_to_N_inj (x y : byte) : Byte.to_N x = Byte.to_N y -> x = y.
Proof.
  intros H. pose proof (Byte.of_to_N x) as Hx. rewrite H, Byte.of_to_N in Hx.
  congruence.
Qed.

Lemma bytes_Compare_refl (a : bytes) : bytes_Compare a a = Eq.
Proof. induction a as [|x a IH]; simpl; [done|]. by rewrite N.compare_refl. Qed.

Lemma bytes_Compare_eq (a b : bytes) : bytes_Compare a b = Eq <-> a = b.
Proof.
  split; [|intros ->; apply bytes_Compare_refl].
  revert b. induction a as [|x a IH]; intros [|y b]; simpl; try done.
  destruct (N.compare_spec (Byte.to_N x) (Byte.to_N y)) as [E| |]; try done.
  intros H. f_equal; [by apply byte_to_N_inj | by apply IH].
Qed.

Lemma bytes_Compare_antisym (a b : bytes) :
  bytes_Compare b a = CompOpp (bytes_Compare a b).
Proof.
  revert b. induction a as [|x a IH]; intros [|y b]; simpl; try done.
  rewrite (N.compare_antisym (Byte.to_N x) (Byte.to_N y)).
  destruct (Byte.to_N x ?= Byte.to_N y)%N; simpl; auto.
Qed.

Lemma bytes_Compare_trans (a b c : bytes) :
  bytes_Compare a b = Lt -> bytes_Compare b c = Lt -> bytes_Compare a c = Lt.
Proof.
  revert b c. induction a as [|x a IH]; intros [|y b] [|z c]; simpl; try done.
  destruct (N.compare_spec (Byte.to_N x) (Byte.to_N y)) as [E|L|G]; try done.
  - rewrite E. destruct (Byte.to_N y ?= Byte.to_N z)%N; try done. apply IH.
  - destruct (N.compare_spec (Byte.to_N y) (Byte.to_N z)) as [E'|L'|G']; try done.
    + rewrite <- E'. intros _ _. by apply N.compare_lt_iff in L as ->.
    + intros _ _. assert (Byte.to_N x < Byte.to_N z)%N as ->%N.compare_lt_iff by lia.
      done.
Qed.

(** ** The direction's comparator *)

Lemma cmp_dir_eq (reverse : bool) (a b : bytes) :
  unionstore.cmp_dir reverse a b = Eq <-> a = b.
Proof.
  unfold unionstore.cmp_dir. destruct reverse; [|apply bytes_Compare_eq].
  rewrite <- bytes_Compare_eq. destruct (bytes_Compare a b); simpl; split; congruence.
Qed.

Lemma cmp_dir_antisym (reverse : bool) (a b : bytes) :
  unionstore.cmp_dir reverse b a = CompOpp (unionstore.cmp_dir reverse a b).
Proof.
  unfold unionstore.cmp_dir. destruct reverse; rewrite (bytes_Compare_antisym a b); done.
Qed.

Lemma cmp_dir_trans (reverse : bool) (a b c : bytes) :
  unionstore.cmp_dir reverse a b = Lt -> unionstore.cmp_dir reverse b c = Lt ->
  unionstore.cmp_dir reverse a c = Lt.
Proof.
  unfold unionstore.cmp_dir. destruct reverse; [|apply bytes_Compare_trans].
  rewrite (bytes_Compare_antisym b a), (bytes_Compare_antisym c b),
    (bytes_Compare_antisym c a).
  destruct (bytes_Compare b a) eqn:Hba; try done.
  destruct (bytes_Compare c b) eqn:Hcb; try done.
  intros _ _. by rewrite (bytes_Compare_trans c b a).
Qed.

Lemma cmp_dir_irrefl (reverse : bool) (a : bytes) :
  unionstore.cmp_dir reverse a a ≠ Lt.
Proof. by rewrite (proj2 (cmp_dir_eq reverse a a) eq_refl). Qed.

(** ** The union iterator *)

Section UnionIter.
Import unionstore.
Variable reverse : bool.

Lemma union_end_item ks vs s' :
  union reverse ItEnd (ItItem ks vs s') = ItItem ks vs (union reverse ItEnd s').
Proof. reflexivity. Qed.

Lemma union_item_end kb vb b' :
  union reverse (ItItem kb vb b') ItEnd =
  if tombstone vb then union reverse b' ItEnd
  else ItItem kb vb (union reverse b' ItEnd).
Proof. reflexivity. Qed.

Lemma union_item_item kb vb b' ks vs s' :
  union reverse (ItItem kb vb b') (ItItem ks vs s') =
  match cmp_dir reverse kb ks with
  | Lt => if tombstone vb then union reverse b' (ItItem ks vs s')
          else ItItem kb vb (union reverse b' (ItItem ks vs s'))
  | Gt => ItItem ks vs (union reverse (ItItem kb vb b') s')
  | Eq => if tombstone vb then union reverse b' s'
          else ItItem kb vb (union reverse b' s')
  end.
Proof. reflexivity. Qed.

Lemma tombstone_spec v : tombstone v = true <-> v = [].
Proof. destruct v; simpl; split; congruence. Qed.

Lemma key_before_not_in (x : bytes * bytes) (l : list (bytes * bytes)) :
  Forall (key_before reverse x) l -> x.1 ∉ l.*1.
Proof.
  intros HF Hin. apply list_elem_of_fmap in Hin as [y [Heq Hy]].
  rewrite Forall_forall in HF. specialize (HF y Hy). unfold key_before in HF.
  rewrite Heq in HF. by apply cmp_dir_irrefl in HF.
Qed.

Lemma key_before_Forall_trans (x y : bytes * bytes) (l : list (bytes * bytes)) :
  key_before reverse x y -> Forall (key_before reverse y) l ->
  Forall (key_before reverse x) l.
Proof.
  intros Hxy HF. eapply Forall_impl; [exact HF|]. intros z Hyz.
  unfold key_before in *. by eapply cmp_dir_trans.
Qed.

Lemma Forall_union_member (x : bytes * bytes) (B S U : list (bytes * bytes)) :
  (forall k v, (k, v) ∈ U -> union_member B S k v) ->
  Forall (key_before reverse x) B -> Forall (key_before reverse x) S ->
  Forall (key_before reverse x) U.
Proof.
  intros H HB HS. rewrite Forall_forall in *. intros [k v] Hin.
  destruct (H k v Hin) as [[? _]|[_ ?]]; auto.
Qed.

Lemma union_member_nil_l (S : list (bytes * bytes)) k v :
  union_member [] S k v <-> (k, v) ∈ S.
Proof.
  unfold union_member. rewrite fmap_nil. split.
  - intros [[H _]|[_ H]]; [by apply not_elem_of_nil in H|done].
  - intros H. right. split; [apply not_elem_of_nil|done].
Qed.

Lemma union_member_cons_l kb vb (B' S : list (bytes * bytes)) k v :
  (forall k' v', (k', v') ∈ S -> k' ≠ kb) ->
  union_member ((kb, vb) :: B') S k v <->
  ((k, v) = (kb, vb) /\ vb ≠ []) \/ union_member B' S k v.
Proof.
  intros HS. unfold union_member. rewrite fmap_cons, !elem_of_cons. simpl.
  split.
  - intros [[[Heq|Hin] Hv]|[Hk Hin]].
    + left. split; [done|congruence].
    + right. by left.
    + right. right. split; [|done]. intros Hk'. apply Hk. by right.
  - intros [[Heq Hv]|[[Hin Hv]|[Hk Hin]]].
    + left. split; [by left|congruence].
    + left. split; [by right|done].
    + right. split; [|done]. intros [->|Hk']; [by eapply HS|done].
Qed.

Lemma union_member_cons_both kb vb vs (B' S' : list (bytes * bytes)) k v :
  (forall k' v', (k', v') ∈ S' -> k' ≠ kb) ->
  union_member ((kb, vb) :: B') ((kb, vs) :: S') k v <->
  ((k, v) = (kb, vb) /\ vb ≠ []) \/ union_member B' S' k v.
Proof.
  intros HS. unfold union_member. rewrite fmap_cons, !elem_of_cons. simpl.
  split.
  - intros [[[Heq|Hin] Hv]|[Hk [Heq|Hin]]].
    + left. split; [done|congruence].
    + right. by left.
    + exfalso. apply Hk. left. congruence.
    + right. right. split; [|done]. intros Hk'. apply Hk. by right.
  - intros [[Heq Hv]|[[Hin Hv]|[Hk Hin]]].
    + left. split; [by left|congruence].
    + left. split; [by right|done].
    + right. split; [|by right]. intros [->|Hk']; [by eapply HS|done].
Qed.

Lemma union_member_cons_r ks vs (B S' : list (bytes * bytes)) k v :
  ks ∉ B.*1 ->
  union_member B ((ks, vs) :: S') k v <->
  (k, v) = (ks, vs) \/ union_member B S' k v.
Proof.
  intros HB. unfold union_member. rewrite !elem_of_cons. split.
  - intros [[Hin Hv]|[Hk [Heq|Hin]]]; [right; by left|by left|right; by right].
  - intros [Heq|[[Hin Hv]|[Hk Hin]]].
    + right. split; [congruence|by left].
    + by left.
    + right. split; [done|by right].
Qed.

Lemma keys_after_ne (x : bytes * bytes) (l : list (bytes * bytes)) :
  Forall (key_before reverse x) l ->
  forall k' v', (k', v') ∈ l -> k' ≠ x.1.
Proof.
  intros HF k' v' Hin ->. apply (key_before_not_in x l HF).
  apply list_elem_of_fmap. by exists (x.1, v').
Qed.

Lemma union_yields (B : list (bytes * bytes)) :
  sorted_dir reverse B -> forall S, sorted_dir reverse S ->
  exists U, union reverse (iterator_of B) (iterator_of S) = iterator_of U
    /\ (forall k v, (k, v) ∈ U <-> union_member B S k v)
    /\ sorted_dir reverse U.
Proof.
  induction B as [|[kb vb] B' IHB]; intros HB S; induction S as [|[ks vs] S' IHS]; intros HS.
  - exists []. split; [done|]. split; [|constructor].
    intros k v. by rewrite union_member_nil_l.
  - apply StronglySorted_inv in HS as [HS' HFS].
    destruct (IHS HS') as (U' & HU & Hmem & Hsort).
    exists ((ks, vs) :: U'). simpl iterator_of in *. rewrite union_end_item, HU.
    split; [done|]. split.
    + intros k v. rewrite union_member_nil_l, !elem_of_cons, Hmem.
      by rewrite union_member_nil_l.
    + constructor; [done|]. eapply Forall_union_member; [apply Hmem|constructor|done].
  - apply StronglySorted_inv in HB as [HB' HFB].
    destruct (IHB HB' [] HS) as (U' & HU & Hmem & Hsort).
    simpl iterator_of in *. rewrite union_item_end, HU.
    assert (forall k v, union_member ((kb, vb) :: B') [] k v <->
              ((k, v) = (kb, vb) /\ vb ≠ []) \/ (k, v) ∈ U') as Hm.
    { intros k v. rewrite Hmem. apply union_member_cons_l.
      intros k' v' Hin. by apply not_elem_of_nil in Hin. }
    destruct (tombstone vb) eqn:Ht.
    + apply tombstone_spec in Ht as ->. exists U'. split; [done|]. split; [|done].
      intros k v. rewrite Hm. split; [tauto|]. intros [[_ Hne]|?]; [by destruct Hne|done].
    + assert (vb ≠ []) by (intros ->; done).
      exists ((kb, vb) :: U'). split; [done|]. split.
      * intros k v. rewrite elem_of_cons, Hm. tauto.
      * constructor; [done|]. eapply Forall_union_member; [apply Hmem|done|constructor].
  - pose proof HB as HB0. pose proof HS as HS0.
    apply StronglySorted_inv in HB as [HB' HFB].
    apply StronglySorted_inv in HS as [HS' HFS].
    simpl iterator_of. rewrite union_item_item.
    destruct (cmp_dir reverse kb ks) eqn:Hc.
    + apply cmp_dir_eq in Hc as <-.
      destruct (IHB HB' S' HS') as (U' & HU & Hmem & Hsort). rewrite HU.
      assert (forall k v, union_member ((kb, vb) :: B') ((kb, vs) :: S') k v <->
                ((k, v) = (kb, vb) /\ vb ≠ []) \/ (k, v) ∈ U') as Hm.
      { intros k v. rewrite Hmem. apply union_member_cons_both.
        apply (keys_after_ne (kb, vs) S' HFS). }
      destruct (tombstone vb) eqn:Ht.
      * apply tombstone_spec in Ht as ->. exists U'. split; [done|]. split; [|done].
        intros k v. rewrite Hm. split; [tauto|]. intros [[_ Hne]|?]; [by destruct Hne|done].
      * assert (vb ≠ []) by (intros ->; done).
        exists ((kb, vb) :: U'). split; [done|]. split.
        -- intros k v. rewrite elem_of_cons, Hm. tauto.
        -- constructor; [done|]. eapply Forall_union_member; [apply Hmem|done|done].
    + assert (Forall (key_before reverse (kb, vb)) ((ks, vs) :: S')) as HFS'.
      { constructor; [exact Hc|]. apply (key_before_Forall_trans _ (ks, vs)); [exact Hc|done]. }
      destruct (IHB HB' _ HS0) as (U' & HU & Hmem & Hsort).
      simpl iterator_of in HU. rewrite HU.
      assert (forall k v, union_member ((kb, vb) :: B') ((ks, vs) :: S') k v <->
                ((k, v) = (kb, vb) /\ vb ≠ []) \/ (k, v) ∈ U') as Hm.
      { intros k v. rewrite Hmem. apply union_member_cons_l.
        apply (keys_after_ne (kb, vb) _ HFS'). }
      destruct (tombstone vb) eqn:Ht.
      * apply tombstone_spec in Ht as ->. exists U'. split; [done|]. split; [|done].
        intros k v. rewrite Hm. split; [tauto|]. intros [[_ Hne]|?]; [by destruct Hne|done].
      * assert (vb ≠ []) by (intros ->; done).
        exists ((kb, vb) :: U'). split; [done|]. split.
        -- intros k v. rewrite elem_of_cons, Hm. tauto.
        -- constructor; [done|]. eapply Forall_union_member; [apply Hmem|done|done].
    + assert (key_before reverse (ks, vs) (kb, vb)) as Hlt.
      { unfold key_before. simpl. rewrite cmp_dir_antisym, Hc. done. }
      assert (Forall (key_before reverse (ks, vs)) ((kb, vb) :: B')) as HFB'.
      { constructor; [exact Hlt|]. apply (key_before_Forall_trans _ (kb, vb)); [exact Hlt|done]. }
      destruct (IHS HS') as (U' & HU & Hmem & Hsort).
      simpl iterator_of in HU. rewrite HU.
      exists ((ks, vs) :: U'). split; [done|]. split.
      * intros k v. rewrite elem_of_cons, Hmem. symmetry.
        apply union_member_cons_r. apply (key_before_not_in (ks, vs) _ HFB').
      * constructor; [done|]. eapply Forall_union_member; [apply Hmem|done|done].
Qed.
End UnionIter.

(** ** The union store *)

Section UnionStoreProperties.
Import unionstore.
Context {M S : Type} `{!MemBuffer M, !uSnapshot S}.

(** C1.  [KVUnionStore.Get] consults the MemBuffer first and then the
    snapshot exactly when the buffer's error is of the NotExist kind
    ([IsErrNotFound]); any other buffer error is returned with the buffer's
    value, unchanged; a value obtained without error from either side is
    returned as it is when it is not empty, and as [nil] with [ErrNotExist]
    when it is empty. *)
Theorem Get_buffer_then_snapshot (us : KVUnionStore M S) (k : bytes) :
  let bv := MemBuffer_Get (memBuffer us) k in
  let sv := uSnapshot_Get (snapshot us) k in
  let fallback := IsErrNotFound bv.2 in
  let got := if fallback then sv else bv in
  (Get us k).1 = CallMemBufferGet k :: (if fallback then [CallSnapshotGet k] else [])
  ∧ (∀ e, bv.2 = Some e -> fallback = false -> (Get us k).2 = (bv.1, Some e))
  ∧ (got.2 = None -> len got.1 = 0%nat -> (Get us k).2 = (None, Some ErrNotExist))
  ∧ (got.2 = None -> len got.1 ≠ 0%nat -> (Get us k).2 = got)
  ∧ (∀ e, got.2 = Some e -> (Get us k).2 = got).
Proof.
  unfold Get. cbv zeta.
  destruct (MemBuffer_Get (memBuffer us) k) as [v err] eqn:Hb.
  destruct (uSnapshot_Get (snapshot us) k) as [v' err'] eqn:Hs.
  simpl. destruct (IsErrNotFound err) eqn:Hnf; simpl.
  - destruct err' as [e'|]; simpl.
    + repeat split; try done; congruence.
    + destruct (Nat.eqb_spec (len v') 0) as [Hz|Hz]; repeat split; try done.
  - destruct err as [e|]; simpl.
    + repeat split; try done; congruence.
    + destruct (Nat.eqb_spec (len v) 0) as [Hz|Hz]; repeat split; try done.
Qed.

(** C2.  Over a buffer iterator yielding [B] and a snapshot iterator
    yielding [Sn], both strictly ordered by key in the direction of the
    iteration, [KVUnionStore.Iter] (ascending) and [KVUnionStore.IterReverse]
    (descending) return an iterator that yields, strictly ordered in the
    same direction, exactly the buffer's pairs whose value is not empty and
    the snapshot's pairs whose key the buffer does not hold; on a key both
    sides hold, the buffer's entry is the one emitted (or skipped when it is
    a tombstone) and both sides advance. *)
Theorem Iter_yields_union (us : KVUnionStore M S) (k bound : bytes)
    (B Sn : list (bytes * bytes)) :
  (MemBuffer_Iter (memBuffer us) k bound = (iterator_of B, None) ->
   uSnapshot_Iter (snapshot us) k bound = (iterator_of Sn, None) ->
   sorted_dir false B -> sorted_dir false Sn ->
   exists U, Iter us k bound = (Some (iterator_of U), None)
     /\ sorted_dir false U
     /\ forall k' v, (k', v) ∈ U <-> union_member B Sn k' v)
  /\ (MemBuffer_IterReverse (memBuffer us) k bound = (iterator_of B, None) ->
      uSnapshot_IterReverse (snapshot us) k bound = (iterator_of Sn, None) ->
      sorted_dir true B -> sorted_dir true Sn ->
      exists U, IterReverse us k bound = (Some (iterator_of U), None)
        /\ sorted_dir true U
        /\ forall k' v, (k', v) ∈ U <-> union_member B Sn k' v)
  /\ (forall reverse kb vb b' vs s',
        union reverse (ItItem kb vb b') (ItItem kb vs s') =
        if tombstone vb then union reverse b' s'
        else ItItem kb vb (union reverse b' s')).
Proof.
  split; [|split].
  - intros Hb Hs HB HS. unfold Iter. rewrite Hb, Hs.
    destruct (union_yields false B HB Sn HS) as (U & HU & Hmem & Hsort).
    exists U. unfold NewUnionIter. rewrite HU. by destruct U as [|[??] ?].
  - intros Hb Hs HB HS. unfold IterReverse. rewrite Hb, Hs.
    destruct (union_yields true B HB Sn HS) as (U & HU & Hmem & Hsort).
    exists U. unfold NewUnionIter. rewrite HU. by destruct U as [|[??] ?].
  - intros reverse kb vb b' vs s'. rewrite union_item_item.
    by rewrite (proj2 (cmp_dir_eq reverse kb kb) eq_refl).
Qed.

End UnionStoreProperties.

(** ** The union store over the buffer of the specification *)

Section UnionScenario.
Import unionstore memdb scenario.

Example scenario_forward :
  unionstore.Iter the_store [] [] =
  (Some (iterator_of [(["a"%byte], ["B"%byte]); (["c"%byte], ["S"%byte])]), None).
Proof. vm_compute. reflexivity. Qed.

Example scenario_reverse :
  unionstore.IterReverse the_store [] [] =
  (Some (iterator_of [(["c"%byte], ["S"%byte]); (["a"%byte], ["B"%byte])]), None).
Proof. vm_compute. reflexivity. Qed.

Lemma Iter_yields_union_witness :
  exists U, unionstore.Iter the_store [] [] = (Some (iterator_of U), None)
    /\ sorted_dir false U
    /\ forall k' v,
         (k', v) ∈ U <->
         union_member [(["a"%byte], ["B"%byte]); (["b"%byte], [])]
                      (snapshot_entries the_snapshot) k' v.
Proof.
  apply (proj1 (Iter_yields_union the_store [] []
                  [(["a"%byte], ["B"%byte]); (["b"%byte], [])]
                  (snapshot_entries the_snapshot))).
  - vm_compute. reflexivity.
  - vm_compute. reflexivity.
  - repeat constructor.
  - repeat constructor.
Defined.

End UnionScenario.

(** ** Iterators of the buffer and mutations *)

Section IteratorInvalidation.
Import unionstore memdb.




(** An iterator used on the buffer it was made on, before any mutation,
    does not panic. *)
Lemma fresh_iterator_returns (db : MemDB) (lower upper : bytes) :
  MemIter_Valid db (Iter db lower upper)
  = Returns (Valid (it_cur (Iter db lower upper))).
Proof. unfold MemIter_Valid, checked. simpl. by rewrite Z.eqb_refl. Qed.




End IteratorInvalidation.

(** ** Entry size limits *)

Section EntrySizeLimit.
Import unionstore.

Lemma uint64_le_unlimited (n : Z) : (unlimitedSize <? memdb.uint64 n) = false.
Proof.
  apply Z.ltb_ge. unfold memdb.uint64, unlimitedSize.
  pose proof (Z.mod_pos_bound n (2 ^ 64)). lia.
Qed.

(** With the unlimited sentinel as the per-entry limit a memdb.write is never
    refused as too large an entry. *)
Lemma unlimited_entry_insert (db : memdb.MemDB) (k v : bytes) (ops : list kv.FlagsOp)
    (limit sz : Z) :
  memdb.entrySizeLimit db = unlimitedSize ->
  (memdb.insert db k v ops).2 ≠ Some (ErrEntryTooLarge limit sz).
Proof.
  intros Hl. unfold memdb.insert. rewrite Hl, uint64_le_unlimited.
  by destruct (memdb.bufferSizeLimit db <? _).
Qed.

(** With the unlimited sentinel as the total limit a memdb.write is never refused
    as making the transaction too large. *)
Lemma unlimited_buffer_insert (db : memdb.MemDB) (k v : bytes) (ops : list kv.FlagsOp)
    (sz : Z) :
  memdb.bufferSizeLimit db = unlimitedSize ->
  (memdb.insert db k v ops).2 ≠ Some (ErrTxnTooLarge sz).
Proof.
  intros Hl. unfold memdb.insert. rewrite Hl, uint64_le_unlimited.
  by destruct (memdb.entrySizeLimit db <? _).
Qed.

(** C6.  [KVUnionStore.SetEntrySizeLimit] hands the MemBuffer the given
    limits, a zero limit replaced by [unlimitedSize], and leaves the
    snapshot alone; on the buffer of the specification, after a zero entry
    limit no [Set] or [memdb.Delete] fails with [ErrEntryTooLarge], and after a
    zero buffer limit none fails with [ErrTxnTooLarge]. *)
Theorem SetEntrySizeLimit_zero_is_unlimited :
  (forall (M S : Type) (HM : MemBuffer M) (HS : uSnapshot S)
          (us : KVUnionStore M S) (entryLimit bufferLimit : Z),
      memBuffer (SetEntrySizeLimit us entryLimit bufferLimit) =
        MemBuffer_SetEntrySizeLimit (memBuffer us)
          (if entryLimit =? 0 then unlimitedSize else entryLimit)
          (if bufferLimit =? 0 then unlimitedSize else bufferLimit)
      /\ snapshot (SetEntrySizeLimit us entryLimit bufferLimit) = snapshot us)
  /\ (forall (S : Type) (HS : uSnapshot S) (us : KVUnionStore memdb.MemDB S)
             (bufferLimit : Z) (k v : bytes) (limit sz : Z),
        let mb := memBuffer (SetEntrySizeLimit us 0 bufferLimit) in
        memdb.entrySizeLimit mb = unlimitedSize
        /\ (MemBuffer_Set mb k v).2 ≠ Some (ErrEntryTooLarge limit sz)
        /\ (memdb.Delete mb k).2 ≠ Some (ErrEntryTooLarge limit sz))
  /\ (forall (S : Type) (HS : uSnapshot S) (us : KVUnionStore memdb.MemDB S)
             (entryLimit : Z) (k v : bytes) (sz : Z),
        let mb := memBuffer (SetEntrySizeLimit us entryLimit 0) in
        memdb.bufferSizeLimit mb = unlimitedSize
        /\ (MemBuffer_Set mb k v).2 ≠ Some (ErrTxnTooLarge sz)
        /\ (memdb.Delete mb k).2 ≠ Some (ErrTxnTooLarge sz)).
Proof.
  split; [|split].
  - intros M S HM HS us entryLimit bufferLimit. by unfold SetEntrySizeLimit.
  - intros S HS us bufferLimit k v limit sz mb.
    assert (memdb.entrySizeLimit mb = unlimitedSize) as Hl by done.
    split; [done|]. split.
    + simpl. unfold memdb.Set_, memdb.SetWithFlags. destruct v as [|b v]; [done|].
      by apply unlimited_entry_insert.
    + by apply unlimited_entry_insert.
  - intros S HS us entryLimit k v sz mb.
    assert (memdb.bufferSizeLimit mb = unlimitedSize) as Hl by done.
    split; [done|]. split.
    + simpl. unfold memdb.Set_, memdb.SetWithFlags. destruct v as [|b v]; [done|].
      by apply unlimited_buffer_insert.
    + by apply unlimited_buffer_insert.
Qed.

(** Scenario 8.2.6: with a per-entry limit of 16 a 20-byte value is refused
    and the state is unchanged; with the limit 0 it is accepted. *)
Example oversize_entry :
  let us := NewUnionStore memdb.newMemDB scenario.the_snapshot in
  let v := repeat "x"%byte 20 in
  MemBuffer_Set (memBuffer (SetEntrySizeLimit us 16 0)) ["k"%byte] v
  = (memBuffer (SetEntrySizeLimit us 16 0), Some (ErrEntryTooLarge 16 21))
  /\ (MemBuffer_Set (memBuffer (SetEntrySizeLimit us 0 0)) ["k"%byte] v).2 = None.
Proof. split; vm_compute; reflexivity. Qed.

End EntrySizeLimit.

(** ** The PresumeKeyNotExists flag *)

Section PresumeKeyNotExists.
Import unionstore.

Lemma has_flag_ldiff (flags : kv.KeyFlags) (f : kv.Flag) :
  kv.has_flag (Z.ldiff flags (kv.flag_mask f)) f = false.
Proof. unfold kv.has_flag. by rewrite Z.land_ldiff. Qed.

Lemma GetFlags_UpdateFlags (db : memdb.MemDB) (k : bytes) (ops : list kv.FlagsOp) :
  memdb.GetFlags (memdb.UpdateFlags db k ops) k =
  (kv.ApplyFlagsOps (memdb.flags (default (memdb.Leaf None 0) (memdb.index db !! k))) ops, None).
Proof.
  unfold memdb.GetFlags, memdb.UpdateFlags, memdb.write. simpl. by rewrite lookup_insert_eq.
Qed.

(** C9.  [HasPresumeKeyNotExists(k)] is true exactly when [memdb.GetFlags(k)]
    returns no error and flags with the PresumeKeyNotExists bit; it is
    false when [memdb.GetFlags] fails, as it does on the buffer of the
    specification when no leaf exists for [k]; and after
    [UnmarkPresumeKeyNotExists(k)], which applies the subtractive delta
    [DelPresumeKeyNotExists], it is false. *)
Theorem HasPresumeKeyNotExists_spec :
  (forall (M S : Type) (HM : MemBuffer M) (HS : uSnapshot S)
          (us : KVUnionStore M S) (k : bytes),
      (HasPresumeKeyNotExists us k = true <->
       exists flags, MemBuffer_GetFlags (memBuffer us) k = (flags, None)
                     /\ kv.HasPresumeKeyNotExists flags = true)
      /\ memBuffer (UnmarkPresumeKeyNotExists us k) =
           MemBuffer_UpdateFlags (memBuffer us) k [kv.DelPresumeKeyNotExists])
  /\ (forall (S : Type) (HS : uSnapshot S) (us : KVUnionStore memdb.MemDB S) (k : bytes),
        (memdb.index (memBuffer us) !! k = None ->
         memdb.GetFlags (memBuffer us) k = (0, Some ErrNotExist)
         /\ HasPresumeKeyNotExists us k = false)
        /\ HasPresumeKeyNotExists (UnmarkPresumeKeyNotExists us k) k = false).
Proof.
  split.
  - intros M S HM HS us k. split; [|done]. unfold HasPresumeKeyNotExists.
    destruct (MemBuffer_GetFlags (memBuffer us) k) as [flags [e|]]; split.
    + done.
    + by intros (f & [= _ ?] & _).
    + intros H. by exists flags.
    + by intros (f & [= <-] & H).
  - intros S HS us k. split.
    + intros Hk. unfold HasPresumeKeyNotExists. simpl. unfold memdb.GetFlags.
      by rewrite Hk.
    + unfold HasPresumeKeyNotExists, UnmarkPresumeKeyNotExists. simpl.
      rewrite GetFlags_UpdateFlags. simpl. apply has_flag_ldiff.
Qed.

(** Scenario 8.2.5. *)
Example presume_key_not_exists_scenario :
  let k := ["k"%byte] in
  let us0 := NewUnionStore memdb.newMemDB scenario.the_snapshot in
  let us1 := NewUnionStore (memdb.UpdateFlags memdb.newMemDB k [kv.SetPresumeKeyNotExists])
                           scenario.the_snapshot in
  HasPresumeKeyNotExists us0 k = false
  /\ HasPresumeKeyNotExists us1 k = true
  /\ HasPresumeKeyNotExists (UnmarkPresumeKeyNotExists us1 k) k = false
  /\ MemBuffer_Get (memBuffer us1) k = (None, Some ErrNotExist).
Proof. repeat split; vm_compute; reflexivity. Qed.

End PresumeKeyNotExists.

(** ** Little-endian integers *)

Section LittleEndian.

Lemma Z_of_byte_of_Z (x : Z) : Z_of_byte (byte_of_Z x) = x mod 256.
Proof.
  unfold Z_of_byte, byte_of_Z.
  pose proof (Z.mod_pos_bound x 256 ltac:(lia)) as Hb.
  destruct (Byte.of_N (Z.to_N (x mod 256))) as [b|] eqn:Hof.
  - simpl. apply Byte.to_of_N in Hof. rewrite Hof. lia.
  - apply Byte.of_N_None_iff in Hof. lia.
Qed.

Lemma le_value_bytes (n : nat) (x : Z) :
  le_value (le_bytes n x) = x mod 2 ^ (8 * Z.of_nat n).
Proof.
  revert x. induction n as [|n IH]; intros x.
  - simpl. by rewrite Z.mod_1_r.
  - cbn [le_bytes le_value]. rewrite IH, Z_of_byte_of_Z.
    replace (8 * Z.of_nat (S n)) with (8 + 8 * Z.of_nat n) by lia.
    rewrite Z.pow_add_r by lia. change (2 ^ 8) with 256.
    rewrite (Z.rem_mul_r x 256 (2 ^ (8 * Z.of_nat n))) by lia. done.
Qed.

Lemma length_le_bytes (n : nat) (x : Z) : length (le_bytes n x) = n.
Proof. revert x. induction n as [|n IH]; intros x; simpl; [done|]. by rewrite IH. Qed.

End LittleEndian.

Section Arena.
Import arena.

Lemma align8_ge (n : Z) : n <= align8 n.
Proof. unfold align8. pose proof (Z.div_mod (n + 7) 8 ltac:(lia)).
  pose proof (Z.mod_pos_bound (n + 7) 8 ltac:(lia)). lia. Qed.

Lemma grow_ge (fuel : nat) (blockSize size : Z) :
  0 < blockSize -> size <= blockSize * 2 ^ Z.of_nat fuel ->
  size <= grow fuel blockSize size.
Proof.
  revert blockSize. induction fuel as [|fuel IH]; intros bs Hpos Hle.
  - simpl in *. lia.
  - simpl. destruct (Z.ltb_spec bs size); [|lia].
    apply IH; [lia|]. rewrite Nat2Z.inj_succ, Z.pow_succ_r in Hle by lia. lia.
Qed.

Lemma allocInLastBlock_spec (a a' : MemdbArena) (size : Z) (addr : MemdbArenaAddr) :
  0 <= size ->
  allocInLastBlock a size = Some (addr, a') ->
  GetData a' addr = Some (zeros size)
  /\ fresh a addr
  /\ idx addr = Z.of_nat (length (blocks a) - 1)
  /\ 0 <= off addr.
Proof.
  intros Hsize. unfold allocInLastBlock.
  destruct (last (blocks a)) as [b|] eqn:Hlast; [|done].
  pose proof (align8_ge (Z.of_nat (length (data b)))) as Hal.
  destruct (Z.leb_spec (align8 (Z.of_nat (length (data b))) + size) (cap b)); [|done].
  intros [= <- <-]. rewrite last_lookup in Hlast.
  replace (Nat.pred (length (blocks a))) with (length (blocks a) - 1)%nat in Hlast by lia.
  assert (length (blocks a) - 1 < length (blocks a))%nat as Hlt
    by (apply lookup_lt_Some in Hlast; lia).
  split; [|split; [|split]].
  - unfold GetData. simpl.
    destruct (Z.ltb_spec (Z.of_nat (length (blocks a) - 1)) 0); [lia|].
    destruct (Z.ltb_spec (align8 (Z.of_nat (length (data b)))) 0); [lia|]. simpl.
    rewrite Nat2Z.id, list_lookup_insert_eq by done. simpl.
    rewrite !length_app, !length_replicate.
    destruct (Z.leb_spec (align8 (Z.of_nat (length (data b))))
                (Z.of_nat (length (data b)
                   + (Z.to_nat (align8 (Z.of_nat (length (data b))) - Z.of_nat (length (data b)))
                      + Z.to_nat size)))); [|lia].
    f_equal. rewrite app_assoc, drop_app_length'; [done|].
    rewrite length_app, length_replicate. lia.
  - unfold fresh. simpl. rewrite Nat2Z.id, Hlast. done.
  - done.
  - simpl. lia.
Qed.

Lemma last_snoc_block (l : list memdbArenaBlock) (b : memdbArenaBlock) : last (l ++ [b]) = Some b.
Proof. by rewrite last_snoc. Qed.

Lemma Alloc_spec (a : MemdbArena) (size : Z) (zero : bool) :
  0 <= size <= maxBlockSize ->
  exists addr a', Alloc a size zero = Some (addr, a')
    /\ GetData a' addr = Some (zeros size)
    /\ fresh a addr
    /\ 0 <= idx addr /\ 0 <= off addr.
Proof.
  intros [H0 Hmax]. unfold Alloc.
  destruct (Z.ltb_spec size 0); [lia|]. destruct (Z.ltb_spec maxBlockSize size); [lia|].
  simpl. destruct (allocInLastBlock a size) as [[addr a']|] eqn:Ha.
  - exists addr, a'. split; [done|].
    destruct (allocInLastBlock_spec _ _ _ _ H0 Ha) as (? & ? & ? & ?).
    repeat split; try done. lia.
  - set (a1 := enlarge a size).
    assert (exists r, allocInLastBlock a1 size = Some r) as [[addr a'] Hr].
    { unfold allocInLastBlock, a1, enlarge. cbn -[grow]. rewrite last_snoc. cbn -[grow].
      set (start := match last (blocks a) with
                    | Some b => Z.max initBlockSize (2 * cap b)
                    | None => initBlockSize
                    end).
      assert (initBlockSize <= start) as Hs.
      { unfold start. destruct (last (blocks a)); lia. }
      assert (size <= grow 64 start size) as Hg.
      { apply grow_ge; unfold initBlockSize, maxBlockSize in *; [lia|].
        assert (2 ^ 22 <= 2 ^ Z.of_nat 64) by (apply Z.pow_le_mono_r; lia).
        change (4 * 1024 * 1024) with (2 ^ 22) in Hmax. nia. }
      fold start. change (align8 (Z.of_nat 0)) with 0.
      destruct (Z.leb_spec (0 + size) (Z.min maxBlockSize (grow 64 start size))); [|lia].
      eauto. }
    rewrite Hr. exists addr, a'. split; [done|].
    destruct (allocInLastBlock_spec _ _ _ _ H0 Hr) as (? & Hf & Hi & ?).
    repeat split; try done; [|lia].
    unfold fresh. rewrite Hi. unfold a1, enlarge. simpl.
    rewrite length_app. simpl. rewrite Nat2Z.id.
    replace (length (blocks a) + 1 - 1)%nat with (length (blocks a)) by lia.
    by rewrite lookup_ge_None_2.
Qed.

Lemma GetData_inv (a : MemdbArena) (addr : MemdbArenaAddr) (R : list byte) :
  GetData a addr = Some R ->
  exists b, 0 <= idx addr /\ 0 <= off addr
    /\ blocks a !! Z.to_nat (idx addr) = Some b
    /\ (Z.to_nat (off addr) <= length (data b))%nat
    /\ R = drop (Z.to_nat (off addr)) (data b).
Proof.
  unfold GetData. destruct (Z.ltb_spec (idx addr) 0); [done|].
  destruct (Z.ltb_spec (off addr) 0); [done|]. simpl.
  destruct (blocks a !! Z.to_nat (idx addr)) as [b|]; [|done].
  destruct (Z.leb_spec (off addr) (Z.of_nat (length (data b)))); [|done].
  intros [= <-]. exists b. repeat split; try done. lia.
Qed.

Lemma GetData_field (a : MemdbArena) (addr : MemdbArenaAddr) (R : list byte) (k : Z) :
  GetData a addr = Some R -> 0 <= k -> (Z.to_nat k <= length R)%nat ->
  GetData a (field addr k) = Some (drop (Z.to_nat k) R).
Proof.
  intros (b & Hi & Ho & Hb & Hlen & ->)%GetData_inv Hk HkR.
  rewrite length_drop in HkR. unfold GetData, field. simpl.
  destruct (Z.ltb_spec (idx addr) 0); [lia|].
  destruct (Z.ltb_spec (off addr + k) 0); [lia|]. simpl. rewrite Hb.
  destruct (Z.leb_spec (off addr + k) (Z.of_nat (length (data b)))); [|lia].
  rewrite drop_drop. do 2 f_equal. lia.
Qed.

Lemma load_field (a : MemdbArena) (addr : MemdbArenaAddr) (R : list byte) (k : Z) (n : nat) :
  GetData a addr = Some R -> 0 <= k -> (Z.to_nat k + n <= length R)%nat ->
  load a (field addr k) n = Some (take n (drop (Z.to_nat k) R)).
Proof.
  intros HR Hk Hlen. unfold load. rewrite (GetData_field a addr R k HR Hk) by lia.
  rewrite length_drop. destruct (Nat.leb_spec n (length R - Z.to_nat k)); [done|lia].
Qed.

Lemma store_field (a : MemdbArena) (addr : MemdbArenaAddr) (R bs : list byte) (k : Z) :
  GetData a addr = Some R -> 0 <= k -> (Z.to_nat k + length bs <= length R)%nat ->
  exists a', store a (field addr k) bs = Some a'
    /\ GetData a' addr
       = Some (take (Z.to_nat k) R ++ bs ++ drop (Z.to_nat k + length bs) R).
Proof.
  intros (b & Hi & Ho & Hb & Hlen & ->)%GetData_inv Hk HkR.
  rewrite length_drop in HkR. unfold store, field. simpl.
  destruct (Z.ltb_spec (idx addr) 0); [lia|].
  destruct (Z.ltb_spec (off addr + k) 0); [lia|]. simpl. rewrite Hb.
  destruct (Nat.leb_spec (Z.to_nat (off addr + k) + length bs) (length (data b))); [|lia].
  eexists. split; [done|]. unfold GetData. simpl.
  destruct (Z.ltb_spec (idx addr) 0); [lia|].
  destruct (Z.ltb_spec (off addr) 0); [lia|]. simpl.
  rewrite list_lookup_insert_eq by (by eapply lookup_lt_Some). simpl.
  rewrite !length_app, length_take, length_drop.
  destruct (Z.leb_spec (off addr)
              (Z.of_nat (Z.to_nat (off addr + k) `min` length (data b)
                         + (length bs
                            + (length (data b) - (Z.to_nat (off addr + k) + length bs))))));
    [|lia].
  f_equal. replace (Z.to_nat (off addr + k)) with (Z.to_nat (off addr) + Z.to_nat k)%nat by lia.
  rewrite drop_app_le by (rewrite length_take; lia).
  rewrite <- take_drop_commute, drop_drop. do 3 f_equal. lia.
Qed.

End Arena.

Section Allocator.
Import arena art.

Lemma field_0 (addr : MemdbArenaAddr) : field addr 0 = addr.
Proof. destruct addr as [i o]. unfold field. simpl. f_equal. lia. Qed.

Lemma length_zeros (n : Z) : length (zeros n) = Z.to_nat n.
Proof. apply length_replicate. Qed.

Lemma load_GetData (a : MemdbArena) (addr : MemdbArenaAddr) (R : list byte) (n : nat) :
  GetData a addr = Some R -> (n <= length R)%nat -> load a addr n = Some (take n R).
Proof.
  intros HR Hn. unfold load. rewrite HR.
  by destruct (Nat.leb_spec n (length R)); [|lia].
Qed.

(** [init()] on a node whose bytes lie in the arena leaves them zero. *)
Lemma node_init_zero (a : MemdbArena) (addr : MemdbArenaAddr) (R : list byte) (size : Z) :
  GetData a addr = Some R -> 0 < size -> (Z.to_nat size <= length R)%nat ->
  exists a', node_init a addr size = Some a'
    /\ load a' addr (Z.to_nat size) = Some (zeros size).
Proof.
  intros HR Hpos Hlen. unfold node_init. rewrite HR.
  destruct R as [|b R']; [simpl in Hlen; lia|].
  destruct (store_field a addr (b :: R') (zeros size) 0 HR ltac:(lia))
    as (a' & Hst & Hget).
  { rewrite length_zeros. simpl in *. lia. }
  rewrite field_0 in Hst. exists a'. split; [exact Hst|].
  change (take (Z.to_nat 0) (b :: R')) with (@nil byte) in Hget.
  rewrite app_nil_l in Hget.
  rewrite (load_GetData _ _ _ _ Hget) by (rewrite length_app, length_zeros; lia).
  f_equal. rewrite take_app_length'; [done|by rewrite length_zeros].
Qed.

(** A fresh allocation followed by [init()]. *)
Lemma alloc_init_zero (a : MemdbArena) (size : Z) :
  0 < size <= maxBlockSize ->
  exists addr a1 a2, Alloc a size true = Some (addr, a1)
    /\ node_init a1 addr size = Some a2
    /\ load a2 addr (Z.to_nat size) = Some (zeros size)
    /\ fresh a addr.
Proof.
  intros [Hpos Hmax].
  destruct (Alloc_spec a size true ltac:(lia)) as (addr & a1 & HA & HG & Hf & _).
  destruct (node_init_zero a1 addr (zeros size) size HG Hpos) as (a2 & Hi & Hl).
  { rewrite length_zeros. lia. }
  by exists addr, a1, a2.
Qed.

Lemma last_None_nil {A} (l : list A) : last l = None -> l = [].
Proof. destruct l as [|x l] using rev_ind; [done|]. by rewrite last_snoc. Qed.

Section Sizes.
Variables node4size node16size node48size node256size : Z.

Ltac reuse_tac Hl HR Hpos Hlen :=
  rewrite Hl, last_snoc, removelast_last; cbn;
  match goal with
  | |- context [node_init ?a ?addr ?size] =>
      destruct (node_init_zero a addr _ size HR Hpos Hlen) as (a' & -> & Hload)
  end;
  eexists; split; [reflexivity|]; by repeat split.

Ltac fresh_tac f size Hl Hsz :=
  rewrite Hl; cbn;
  destruct (alloc_init_zero (MemdbArena_ (nodeAllocator f)) size Hsz)
    as (addr & a1 & a2 & -> & -> & Hload & Hfresh);
  exists addr, a1; eexists; split; [reflexivity|]; by repeat split.

Lemma allocNode4_reuse (f : artAllocator) (l : list MemdbArenaAddr)
    (addr : MemdbArenaAddr) (R : list byte) :
  freeNode4 (nodeAllocator f) = l ++ [addr] ->
  GetData (MemdbArena_ (nodeAllocator f)) addr = Some R ->
  0 < node4size -> (Z.to_nat node4size <= length R)%nat ->
  exists f', allocNode4 node4size f = Some (addr, f')
    /\ freeNode4 (nodeAllocator f') = l
    /\ freeNode16 (nodeAllocator f') = freeNode16 (nodeAllocator f)
    /\ freeNode48 (nodeAllocator f') = freeNode48 (nodeAllocator f)
    /\ getNode f' addr node4size = Some (zeros node4size).
Proof. intros Hl HR Hpos Hlen. unfold allocNode4. reuse_tac Hl HR Hpos Hlen. Qed.

Lemma allocNode16_reuse (f : artAllocator) (l : list MemdbArenaAddr)
    (addr : MemdbArenaAddr) (R : list byte) :
  freeNode16 (nodeAllocator f) = l ++ [addr] ->
  GetData (MemdbArena_ (nodeAllocator f)) addr = Some R ->
  0 < node16size -> (Z.to_nat node16size <= length R)%nat ->
  exists f', allocNode16 node16size f = Some (addr, f')
    /\ freeNode16 (nodeAllocator f') = l
    /\ freeNode4 (nodeAllocator f') = freeNode4 (nodeAllocator f)
    /\ freeNode48 (nodeAllocator f') = freeNode48 (nodeAllocator f)
    /\ getNode f' addr node16size = Some (zeros node16size).
Proof. intros Hl HR Hpos Hlen. unfold allocNode16. reuse_tac Hl HR Hpos Hlen. Qed.

Lemma allocNode48_reuse (f : artAllocator) (l : list MemdbArenaAddr)
    (addr : MemdbArenaAddr) (R : list byte) :
  freeNode48 (nodeAllocator f) = l ++ [addr] ->
  GetData (MemdbArena_ (nodeAllocator f)) addr = Some R ->
  0 < node48size -> (Z.to_nat node48size <= length R)%nat ->
  exists f', allocNode48 node48size f = Some (addr, f')
    /\ freeNode48 (nodeAllocator f') = l
    /\ freeNode4 (nodeAllocator f') = freeNode4 (nodeAllocator f)
    /\ freeNode16 (nodeAllocator f') = freeNode16 (nodeAllocator f)
    /\ getNode f' addr node48size = Some (zeros node48size).
Proof. intros Hl HR Hpos Hlen. unfold allocNode48. reuse_tac Hl HR Hpos Hlen. Qed.

Lemma allocNode4_fresh (f : artAllocator) :
  freeNode4 (nodeAllocator f) = [] -> 0 < node4size <= maxBlockSize ->
  exists addr a1 f', Alloc (MemdbArena_ (nodeAllocator f)) node4size true = Some (addr, a1)
    /\ allocNode4 node4size f = Some (addr, f')
    /\ getNode f' addr node4size = Some (zeros node4size)
    /\ fresh (MemdbArena_ (nodeAllocator f)) addr
    /\ freeNode4 (nodeAllocator f') = []
    /\ freeNode16 (nodeAllocator f') = freeNode16 (nodeAllocator f)
    /\ freeNode48 (nodeAllocator f') = freeNode48 (nodeAllocator f).
Proof. intros Hl Hsz. unfold allocNode4. fresh_tac f node4size Hl Hsz. Qed.

Lemma allocNode16_fresh (f : artAllocator) :
  freeNode16 (nodeAllocator f) = [] -> 0 < node16size <= maxBlockSize ->
  exists addr a1 f', Alloc (MemdbArena_ (nodeAllocator f)) node16size true = Some (addr, a1)
    /\ allocNode16 node16size f = Some (addr, f')
    /\ getNode f' addr node16size = Some (zeros node16size)
    /\ fresh (MemdbArena_ (nodeAllocator f)) addr
    /\ freeNode16 (nodeAllocator f') = []
    /\ freeNode4 (nodeAllocator f') = freeNode4 (nodeAllocator f)
    /\ freeNode48 (nodeAllocator f') = freeNode48 (nodeAllocator f).
Proof. intros Hl Hsz. unfold allocNode16. fresh_tac f node16size Hl Hsz. Qed.

Lemma allocNode48_fresh (f : artAllocator) :
  freeNode48 (nodeAllocator f) = [] -> 0 < node48size <= maxBlockSize ->
  exists addr a1 f', Alloc (MemdbArena_ (nodeAllocator f)) node48size true = Some (addr, a1)
    /\ allocNode48 node48size f = Some (addr, f')
    /\ getNode f' addr node48size = Some (zeros node48size)
    /\ fresh (MemdbArena_ (nodeAllocator f)) addr
    /\ freeNode48 (nodeAllocator f') = []
    /\ freeNode4 (nodeAllocator f') = freeNode4 (nodeAllocator f)
    /\ freeNode16 (nodeAllocator f') = freeNode16 (nodeAllocator f).
Proof. intros Hl Hsz. unfold allocNode48. fresh_tac f node48size Hl Hsz. Qed.

Lemma allocNode256_always_fresh (f : artAllocator) :
  0 < node256size <= maxBlockSize ->
  exists addr a1 f', Alloc (MemdbArena_ (nodeAllocator f)) node256size true = Some (addr, a1)
    /\ allocNode256 node256size f = Some (addr, f')
    /\ getNode f' addr node256size = Some (zeros node256size)
    /\ fresh (MemdbArena_ (nodeAllocator f)) addr
    /\ freeNode4 (nodeAllocator f') = freeNode4 (nodeAllocator f)
    /\ freeNode16 (nodeAllocator f') = freeNode16 (nodeAllocator f)
    /\ freeNode48 (nodeAllocator f') = freeNode48 (nodeAllocator f).
Proof.
  intros Hsz. unfold allocNode256.
  destruct (alloc_init_zero (MemdbArena_ (nodeAllocator f)) node256size Hsz)
    as (addr & a1 & a2 & -> & -> & Hload & Hfresh).
  exists addr, a1. eexists. split; [reflexivity|]. by repeat split.
Qed.

End Sizes.
End Allocator.

Section Leaf.
Import arena art.

Lemma store_field_splice (a : MemdbArena) (addr : MemdbArenaAddr)
    (P X Q bs : list byte) (k : Z) :
  GetData a addr = Some (P ++ X ++ Q) ->
  k = Z.of_nat (length P) -> length bs = length X ->
  exists a', store a (field addr k) bs = Some a'
    /\ GetData a' addr = Some (P ++ bs ++ Q).
Proof.
  intros HR -> Hlen.
  destruct (store_field a addr (P ++ X ++ Q) bs (Z.of_nat (length P)) HR ltac:(lia))
    as (a' & Hst & Hget).
  { rewrite !length_app. lia. }
  exists a'. split; [done|]. rewrite Hget. f_equal. rewrite Nat2Z.id.
  rewrite take_app_length. f_equal. f_equal.
  rewrite drop_app_add, Hlen. apply drop_app_length.
Qed.

Lemma load_field_splice (a : MemdbArena) (addr : MemdbArenaAddr)
    (P X Q : list byte) (k : Z) (n : nat) :
  GetData a addr = Some (P ++ X ++ Q) ->
  k = Z.of_nat (length P) -> n = length X ->
  load a (field addr k) n = Some X.
Proof.
  intros HR -> ->. rewrite (load_field a addr _ _ _ HR) by (rewrite ?length_app; lia).
  f_equal. rewrite Nat2Z.id, drop_app_length. apply take_app_length.
Qed.

Lemma length_encode_addr (addr : MemdbArenaAddr) : length (encode_addr addr) = 8%nat.
Proof. unfold encode_addr. by rewrite length_app, !length_le_bytes. Qed.

Lemma decode_encode_NullAddr : decode_addr (encode_addr NullAddr) = NullAddr.
Proof. vm_compute. reflexivity. Qed.

(** What [allocLeaf] leaves at the address it returns. *)
Lemma allocLeaf_region (f : artAllocator) (key : bytes) :
  leafSize + Z.of_nat (length key) <= maxBlockSize ->
  exists addr f', allocLeaf f key = Some (addr, f')
    /\ GetData (MemdbArena_ (nodeAllocator f')) addr
       = Some (encode_addr NullAddr
               ++ le_bytes 2 (Z.of_nat (length key) mod 2 ^ 16)
               ++ le_bytes 2 0 ++ key)
    /\ fresh (MemdbArena_ (nodeAllocator f)) addr.
Proof.
  intros Hsz. unfold allocLeaf.
  destruct (Alloc_spec (MemdbArena_ (nodeAllocator f))
              (leafSize + Z.of_nat (length key)) true) as (addr & a0 & -> & HG & Hf & _).
  { unfold leafSize in *. lia. }
  assert (zeros (leafSize + Z.of_nat (length key))
          = replicate 8 "000"%byte ++ replicate 2 "000"%byte
            ++ replicate 2 "000"%byte ++ replicate (length key) "000"%byte) as Hz.
  { unfold zeros, leafSize. rewrite <- !replicate_add. f_equal. lia. }
  rewrite Hz in HG. unfold set_klen, set_flags, set_vAddr.
  destruct (store_field_splice a0 addr (replicate 8 "000"%byte) (replicate 2 "000"%byte) _
              (le_bytes 2 (Z.of_nat (length key) mod 2 ^ 16)) klen_offset HG)
    as (a1 & -> & HG1); [done|by rewrite length_le_bytes|].
  rewrite app_assoc in HG1.
  destruct (store_field_splice a1 addr _ (replicate 2 "000"%byte) _
              (le_bytes 2 0) flags_offset HG1)
    as (a2 & -> & HG2);
    [by rewrite length_app, length_le_bytes|by rewrite length_le_bytes|].
  rewrite <- app_assoc in HG2.
  destruct (store_field_splice a2 addr [] (replicate 8 "000"%byte) _
              (encode_addr NullAddr) vAddr_offset HG2)
    as (a3 & -> & HG3); [done|by rewrite length_encode_addr|].
  rewrite app_nil_l in HG3.
  assert (GetData a3 addr
          = Some ((encode_addr NullAddr
                   ++ le_bytes 2 (Z.of_nat (length key) mod 2 ^ 16) ++ le_bytes 2 0)
                  ++ replicate (length key) "000"%byte ++ [])) as HG3'.
  { rewrite HG3, app_nil_r, <- !app_assoc. done. }
  destruct (store_field_splice a3 addr _ (replicate (length key) "000"%byte) [] key
              leafSize HG3')
    as (a4 & -> & HG4).
  { by rewrite !length_app, length_encode_addr, !length_le_bytes. }
  { by rewrite length_replicate. }
  exists addr. eexists. split; [reflexivity|]. split; [|done].
  cbn. rewrite HG4, app_nil_r, <- !app_assoc. done.
Qed.

End Leaf.

(** ** The node allocator *)

Section NodeAllocator.
Import arena art.

(** C4.  [freeNodeK] pushes the address on the free list of its size and
    touches nothing else.  [allocNodeK] (K = 4, 16, 48) returns the address
    freed last when the list of its size is not empty, popping it, and
    otherwise the address [Alloc] gives for a region of the node's size,
    which no earlier allocation overlaps; either way the node at the
    address is all zero, and the other free lists are as before.
    [allocNode256] returns what [Alloc] gives whatever the free lists hold,
    zeroed, and leaves the free lists alone. *)
Theorem allocNode_reuses_or_allocates
    (node4size node16size node48size node256size : Z) (f : artAllocator) :
  (forall addr,
      freeNode4 (nodeAllocator (freeNode4_ f addr)) = freeNode4 (nodeAllocator f) ++ [addr]
      /\ freeNode16 (nodeAllocator (freeNode16_ f addr)) = freeNode16 (nodeAllocator f) ++ [addr]
      /\ freeNode48 (nodeAllocator (freeNode48_ f addr)) = freeNode48 (nodeAllocator f) ++ [addr]
      /\ MemdbArena_ (nodeAllocator (freeNode4_ f addr)) = MemdbArena_ (nodeAllocator f)
      /\ MemdbArena_ (nodeAllocator (freeNode16_ f addr)) = MemdbArena_ (nodeAllocator f)
      /\ MemdbArena_ (nodeAllocator (freeNode48_ f addr)) = MemdbArena_ (nodeAllocator f))
  /\ (forall l addr R,
        freeNode4 (nodeAllocator f) = l ++ [addr] ->
        GetData (MemdbArena_ (nodeAllocator f)) addr = Some R ->
        0 < node4size -> (Z.to_nat node4size <= length R)%nat ->
        exists f', allocNode4 node4size f = Some (addr, f')
          /\ freeNode4 (nodeAllocator f') = l
          /\ freeNode16 (nodeAllocator f') = freeNode16 (nodeAllocator f)
          /\ freeNode48 (nodeAllocator f') = freeNode48 (nodeAllocator f)
          /\ getNode f' addr node4size = Some (zeros node4size))
  /\ (forall l addr R,
        freeNode16 (nodeAllocator f) = l ++ [addr] ->
        GetData (MemdbArena_ (nodeAllocator f)) addr = Some R ->
        0 < node16size -> (Z.to_nat node16size <= length R)%nat ->
        exists f', allocNode16 node16size f = Some (addr, f')
          /\ freeNode16 (nodeAllocator f') = l
          /\ freeNode4 (nodeAllocator f') = freeNode4 (nodeAllocator f)
          /\ freeNode48 (nodeAllocator f') = freeNode48 (nodeAllocator f)
          /\ getNode f' addr node16size = Some (zeros node16size))
  /\ (forall l addr R,
        freeNode48 (nodeAllocator f) = l ++ [addr] ->
        GetData (MemdbArena_ (nodeAllocator f)) addr = Some R ->
        0 < node48size -> (Z.to_nat node48size <= length R)%nat ->
        exists f', allocNode48 node48size f = Some (addr, f')
          /\ freeNode48 (nodeAllocator f') = l
          /\ freeNode4 (nodeAllocator f') = freeNode4 (nodeAllocator f)
          /\ freeNode16 (nodeAllocator f') = freeNode16 (nodeAllocator f)
          /\ getNode f' addr node48size = Some (zeros node48size))
  /\ (freeNode4 (nodeAllocator f) = [] -> 0 < node4size <= maxBlockSize ->
      exists addr a1 f',
        Alloc (MemdbArena_ (nodeAllocator f)) node4size true = Some (addr, a1)
        /\ allocNode4 node4size f = Some (addr, f')
        /\ getNode f' addr node4size = Some (zeros node4size)
        /\ fresh (MemdbArena_ (nodeAllocator f)) addr
        /\ freeNode4 (nodeAllocator f') = []
        /\ freeNode16 (nodeAllocator f') = freeNode16 (nodeAllocator f)
        /\ freeNode48 (nodeAllocator f') = freeNode48 (nodeAllocator f))
  /\ (freeNode16 (nodeAllocator f) = [] -> 0 < node16size <= maxBlockSize ->
      exists addr a1 f',
        Alloc (MemdbArena_ (nodeAllocator f)) node16size true = Some (addr, a1)
        /\ allocNode16 node16size f = Some (addr, f')
        /\ getNode f' addr node16size = Some (zeros node16size)
        /\ fresh (MemdbArena_ (nodeAllocator f)) addr
        /\ freeNode16 (nodeAllocator f') = []
        /\ freeNode4 (nodeAllocator f') = freeNode4 (nodeAllocator f)
        /\ freeNode48 (nodeAllocator f') = freeNode48 (nodeAllocator f))
  /\ (freeNode48 (nodeAllocator f) = [] -> 0 < node48size <= maxBlockSize ->
      exists addr a1 f',
        Alloc (MemdbArena_ (nodeAllocator f)) node48size true = Some (addr, a1)
        /\ allocNode48 node48size f = Some (addr, f')
        /\ getNode f' addr node48size = Some (zeros node48size)
        /\ fresh (MemdbArena_ (nodeAllocator f)) addr
        /\ freeNode48 (nodeAllocator f') = []
        /\ freeNode4 (nodeAllocator f') = freeNode4 (nodeAllocator f)
        /\ freeNode16 (nodeAllocator f') = freeNode16 (nodeAllocator f))
  /\ (0 < node256size <= maxBlockSize ->
      exists addr a1 f',
        Alloc (MemdbArena_ (nodeAllocator f)) node256size true = Some (addr, a1)
        /\ allocNode256 node256size f = Some (addr, f')
        /\ getNode f' addr node256size = Some (zeros node256size)
        /\ fresh (MemdbArena_ (nodeAllocator f)) addr
        /\ freeNode4 (nodeAllocator f') = freeNode4 (nodeAllocator f)
        /\ freeNode16 (nodeAllocator f') = freeNode16 (nodeAllocator f)
        /\ freeNode48 (nodeAllocator f') = freeNode48 (nodeAllocator f)).
Proof.
  split; [by intros addr|].
  split; [intros l addr R; apply allocNode4_reuse|].
  split; [intros l addr R; apply allocNode16_reuse|].
  split; [intros l addr R; apply allocNode48_reuse|].
  split; [apply allocNode4_fresh|].
  split; [apply allocNode16_fresh|].
  split; [apply allocNode48_fresh|].
  apply allocNode256_always_fresh.
Qed.

(** A fresh node, freed and allocated again: the same address comes back,
    zeroed, with the free list empty again. *)
Example allocNode4_free_alloc :
  let f0 := init {| blocks := [] |} in
  exists addr f1 f3,
    allocNode4 52 f0 = Some (addr, f1)
    /\ allocNode4 52 (freeNode4_ f1 addr) = Some (addr, f3)
    /\ freeNode4 (nodeAllocator f3) = []
    /\ getNode f3 addr 52 = Some (zeros 52).
Proof.
  eexists _, _, _. split; [vm_compute; reflexivity|].
  split; [vm_compute; reflexivity|]. split; vm_compute; reflexivity.
Qed.

(** The node sizes of the struct declarations on a 64-bit platform serve
    as the test sizes. *)
Lemma allocNode_reuses_or_allocates_witness :
  exists addr a1 f',
    Alloc {| blocks := [] |} 52 true = Some (addr, a1)
    /\ allocNode4 52 (init {| blocks := [] |}) = Some (addr, f')
    /\ getNode f' addr 52 = Some (zeros 52)
    /\ fresh {| blocks := [] |} addr
    /\ freeNode4 (nodeAllocator f') = []
    /\ freeNode16 (nodeAllocator f') = []
    /\ freeNode48 (nodeAllocator f') = [].
Proof.
  apply (allocNode_reuses_or_allocates 52 168 656 2096 (init {| blocks := [] |})).
  - reflexivity.
  - unfold maxBlockSize. lia.
Defined.

(** ** Leaves *)

(** C5, as the code has it.  [allocLeaf(key)] returns whenever the leaf
    fits a block, and the leaf it returns is a flags-only leaf: its [vAddr]
    is [NullAddr], its flags are 0, the key bytes follow the header
    verbatim, and its [klen] is [len(key)] truncated to 16 bits, which is
    [len(key)] for a key of at most 65535 bytes. *)
Theorem allocLeaf_flags_only (f : artAllocator) (key : bytes) :
  leafSize + Z.of_nat (length key) <= maxBlockSize ->
  exists addr f', allocLeaf f key = Some (addr, f')
    /\ vAddr (MemdbArena_ (nodeAllocator f')) addr = Some NullAddr
    /\ flags (MemdbArena_ (nodeAllocator f')) addr = Some 0
    /\ klen (MemdbArena_ (nodeAllocator f')) addr
       = Some (Z.of_nat (length key) mod 2 ^ 16)
    /\ (Z.of_nat (length key) < 2 ^ 16 ->
        klen (MemdbArena_ (nodeAllocator f')) addr = Some (Z.of_nat (length key)))
    /\ key_bytes (MemdbArena_ (nodeAllocator f')) addr (length key) = Some key
    /\ fresh (MemdbArena_ (nodeAllocator f)) addr.
Proof.
  intros Hsz. destruct (allocLeaf_region f key Hsz) as (addr & f' & Hal & HG & Hf).
  exists addr, f'. split; [exact Hal|].
  assert (klen (MemdbArena_ (nodeAllocator f')) addr
          = Some (Z.of_nat (length key) mod 2 ^ 16)) as Hklen.
  { unfold klen.
    rewrite (load_field_splice _ addr (encode_addr NullAddr)
               (le_bytes 2 (Z.of_nat (length key) mod 2 ^ 16)) _ klen_offset 2 HG);
      [|by rewrite length_encode_addr|by rewrite length_le_bytes].
    cbn -[le_value le_bytes Z.pow Z.mul Z.modulo Z.of_nat].
    rewrite le_value_bytes. change (8 * Z.of_nat 2) with 16.
    by rewrite Z.mod_mod. }
  split; [|split; [|split; [exact Hklen|split; [|split; [|exact Hf]]]]].
  - unfold vAddr.
    rewrite (load_field_splice _ addr [] (encode_addr NullAddr)
               (le_bytes 2 (Z.of_nat (length key) mod 2 ^ 16) ++ le_bytes 2 0 ++ key)
               vAddr_offset 8 HG);
      [|done|by rewrite length_encode_addr].
    cbn [fmap option_fmap option_map]. by rewrite decode_encode_NullAddr.
  - unfold flags. rewrite !app_assoc in HG. rewrite <- (app_assoc _ _ key) in HG.
    rewrite (load_field_splice _ addr _ (le_bytes 2 0) key flags_offset 2 HG);
      [done|by rewrite length_app, length_encode_addr, length_le_bytes|done].
  - intros Hlt. rewrite Hklen. f_equal. apply Z.mod_small. lia.
  - unfold key_bytes. rewrite !app_assoc in HG.
    rewrite <- (app_nil_r key) in HG at 2.
    rewrite (load_field_splice _ addr _ key [] leafSize (length key) HG);
      [done| |done].
    by rewrite !length_app, length_encode_addr, !length_le_bytes.
Qed.

Lemma allocLeaf_flags_only_witness :
  exists addr f', allocLeaf (init {| blocks := [] |}) ["k"%byte; "e"%byte; "y"%byte]
                  = Some (addr, f')
    /\ vAddr (MemdbArena_ (nodeAllocator f')) addr = Some NullAddr
    /\ flags (MemdbArena_ (nodeAllocator f')) addr = Some 0
    /\ klen (MemdbArena_ (nodeAllocator f')) addr = Some (Z.of_nat 3 mod 2 ^ 16)
    /\ (Z.of_nat 3 < 2 ^ 16 -> klen (MemdbArena_ (nodeAllocator f')) addr = Some (Z.of_nat 3))
    /\ key_bytes (MemdbArena_ (nodeAllocator f')) addr 3 = Some ["k"%byte; "e"%byte; "y"%byte]
    /\ fresh {| blocks := [] |} addr.
Proof.
  apply (allocLeaf_flags_only (init {| blocks := [] |}) ["k"%byte; "e"%byte; "y"%byte]).
  vm_compute. discriminate.
Defined.

(** A leaf that does not fit a block is a caller bug: [allocLeaf] panics. *)
Lemma allocLeaf_too_large (f : artAllocator) (key : bytes) :
  maxBlockSize < leafSize + Z.of_nat (length key) -> allocLeaf f key = None.
Proof.
  intros Hsz. unfold allocLeaf, Alloc.
  destruct (Z.ltb_spec maxBlockSize (leafSize + Z.of_nat (length key))); [|lia].
  by rewrite orb_true_r.
Qed.

(** For a key of 65536 bytes the stored key length is 0, not [len(key)]. *)
Lemma allocLeaf_klen_truncated :
  allocLeaf_klen (init {| blocks := [] |}) (replicate (Z.to_nat 65536) "a"%byte) = Some 0
  /\ Z.of_nat (length (replicate (Z.to_nat 65536) "a"%byte)) = 65536.
Proof. split; vm_compute; reflexivity. Qed.

(** C10.  [getLeaf] returns nil on the NULL address without looking at the
    arena, whatever the arena holds; a leaf it returns is at the address
    asked for, which is not NULL and lies in the arena. *)
Theorem getLeaf_null_is_nil (f : artAllocator) (addr : MemdbArenaAddr) :
  getLeaf f NullAddr = Returns None
  /\ (IsNull addr = true -> getLeaf f addr = Returns None)
  /\ (forall p, getLeaf f addr = Returns (Some p) ->
        p = addr /\ addr ≠ NullAddr /\ IsNull addr = false
        /\ exists b R, GetData (MemdbArena_ (nodeAllocator f)) addr = Some (b :: R)).
Proof.
  split; [done|]. split.
  - intros Hn. unfold getLeaf. by rewrite Hn.
  - intros p. unfold getLeaf, IsNull. case_bool_decide as Hnull; [done|].
    destruct (GetData (MemdbArena_ (nodeAllocator f)) addr) as [[|b R]|] eqn:HG; try done.
    intros [= <-]. repeat split; try done. by exists b, R.
Qed.

(** On an arena with no block at all, where any load would panic. *)
Example getLeaf_null_empty_arena :
  getLeaf (init {| blocks := [] |}) NullAddr = Returns None
  /\ getLeaf (init {| blocks := [] |}) {| idx := 0; off := 0 |} = Panics.
Proof. split; vm_compute; reflexivity. Qed.

End NodeAllocator.

(** ** The range-task runner *)

Section RangeTask.
Import rangetask.
Variable s : Runner.
Variables startKey endKey : bytes.

Local Abbreviation step := (step s endKey).
Local Abbreviation run := (run s endKey).
Local Abbreviation chain := (chain s startKey endKey).
Local Abbreviation cursor := (cursor startKey).
Local Abbreviation load := (BatchLoadRegionsFromKey (store s)).
Local Abbreviation loop_inv := (rangetask.loop_inv s startKey endKey).

Lemma run_app (st : state) (evs1 evs2 : list event) :
  run st (evs1 ++ evs2) = run (run st evs1) evs2.
Proof. revert st. induction evs1 as [|ev evs1 IH]; intros st; simpl; [done|apply IH]. Qed.

Lemma chain_snoc (ts : list KeyRange) (rangeEndKey : bytes) :
  chain ts false ->
  load (cursor ts) (regionsPerTask s) = (rangeEndKey, None) ->
  chain (ts ++ [task_at endKey (cursor ts) rangeEndKey]) (isLast endKey rangeEndKey).
Proof.
  intros (H0 & Hstep & Hlast & Hnil) Hload. unfold rangetask.chain.
  split; [|split; [|split]].
  - intros t. destruct ts as [|t0 ts]; simpl.
    + by intros [= <-].
    + intros [= <-]. by apply H0.
  - intros i t t' Hi HSi.
    destruct (decide (S i < length ts)%nat) as [Hlt|Hge].
    + rewrite lookup_app_l in Hi by lia. rewrite lookup_app_l in HSi by lia. eauto.
    + assert (S i = length ts) as Hlen.
      { apply lookup_lt_Some in HSi. rewrite length_app in HSi. simpl in HSi. lia. }
      rewrite lookup_app_l in Hi by lia.
      rewrite lookup_app_r, Hlen, Nat.sub_diag in HSi by lia. simpl in HSi.
      injection HSi as <-.
      assert (last ts = Some t) as Hl.
      { rewrite last_lookup. replace (Nat.pred (length ts)) with i by lia. done. }
      destruct (Hlast t Hl) as (b0 & Hb0 & Hfin & Hend).
      rewrite <- Hfin in Hend. simpl. unfold rangetask.cursor. rewrite Hl.
      split; [done|]. exists b0. by rewrite <- Hfin.
  - intros t. rewrite last_snoc. intros [= <-]. simpl. by exists rangeEndKey.
  - intros Hn. by destruct ts.
Qed.

Lemma loop_inv_enter (ctx0 : option error) : loop_inv (enter s startKey endKey ctx0).
Proof.
  assert (chain [] false) as Hc.
  { by repeat split. }
  unfold enter, loop_inv. by destruct (emptyRange startKey endKey).
Qed.

Lemma loop_inv_step (st : state) (ev : event) : loop_inv st -> loop_inv (step st ev).
Proof.
  intros [Hc Hl]. destruct ev as [pickDone|i|e]; simpl.
  - unfold dispatch. destruct (loop st) as [key| |e] eqn:Hloop; [|by split; [|rewrite Hloop]..].
    destruct Hl as [Hfin ->].
    destruct (load (cursor (pushed st)) (regionsPerTask s)) as [b [e|]] eqn:Hload.
    { by split. }
    destruct (_ && negb _).
    + split; simpl.
      * rewrite Hfin in Hc. by apply chain_snoc.
      * destruct (isLast endKey b) eqn:Hb; [done|]. split; [done|].
        unfold rangetask.cursor. rewrite last_snoc. simpl. by rewrite Hb.
    + destruct (bool_decide _); [by split|]. split; [done|]. by rewrite Hloop.
  - unfold work. destruct (workers st !! i) as [[[] werr]|]; try (split; [done|exact Hl]).
    destruct (taskCh st) as [|r rest].
    + destruct (closed st); by split.
    + destruct (ctxErr st); [by split|]. destruct (handler s r) as [stat herr]. by split.
  - unfold ctx_done. destruct (ctxErr st); by split.
Qed.

Lemma loop_inv_run (evs : list event) (st : state) : loop_inv st -> loop_inv (run st evs).
Proof.
  revert st. induction evs as [|ev evs IH]; intros st Hst; simpl; [done|].
  apply IH. by apply loop_inv_step.
Qed.

Lemma left_by_break_enter (ctx0 : option error) :
  left_by_break startKey endKey (enter s startKey endKey ctx0).
Proof.
  unfold left_by_break, enter. destruct (emptyRange startKey endKey); [by left|done].
Qed.

Lemma left_by_break_step (st : state) (ev : event) :
  left_by_break startKey endKey st -> left_by_break startKey endKey (step st ev).
Proof.
  unfold left_by_break. intros Hst. destruct ev as [pickDone|i|e]; simpl.
  - unfold dispatch. destruct (loop st) as [key| |e] eqn:Hloop; [|by rewrite Hloop..].
    destruct (load key (regionsPerTask s)) as [b [e|]]; [done|].
    destruct (_ && negb _); simpl.
    + destruct (isLast endKey b); [by right; left|done].
    + destruct (bool_decide (ctxErr st ≠ None)) eqn:Hd; simpl.
      * intros _. right. right. by apply bool_decide_eq_true in Hd.
      * by rewrite Hloop.
  - unfold work. destruct (workers st !! i) as [[[] werr]|]; try exact Hst.
    destruct (taskCh st) as [|r rest].
    + by destruct (closed st).
    + destruct (ctxErr st) as [e|]; simpl.
      * exact Hst.
      * destruct (handler s r) as [stat herr]. simpl. intros Hl.
        destruct (Hst Hl) as [H|[H|H]]; [by left|by right; left|done].
  - unfold ctx_done. destruct (ctxErr st) as [e'|] eqn:Hctx; simpl.
    + by rewrite Hctx.
    + intros Hl. destruct (Hst Hl) as [H|[H|H]]; [by left|by right; left|done].
Qed.

Lemma left_by_break_run (evs : list event) (st : state) :
  left_by_break startKey endKey st -> left_by_break startKey endKey (run st evs).
Proof.
  revert st. induction evs as [|ev evs IH]; intros st Hst; simpl; [done|].
  apply IH. by apply left_by_break_step.
Qed.


(** *** The empty range *)

Lemma empty_range_run (ctx0 : option error) (evs : list event) :
  emptyRange startKey endKey = true ->
  let st := run (enter s startKey endKey ctx0) evs in
  pushed st = [] /\ handled st = [] /\ workers st = [] /\ loop st = Closed.
Proof.
  intros He. unfold enter. rewrite He.
  set (st0 := {| loop := Closed; taskCh := []; ctxErr := ctx0; workers := [];
                 completed := 0; failed := failedRegions s;
                 pushed := []; lastPushed := false; handled := [] |}).
  assert (pushed st0 = [] /\ handled st0 = [] /\ workers st0 = [] /\ loop st0 = Closed)
    as H0 by done.
  clearbody st0. revert st0 H0. induction evs as [|ev evs IH]; intros st0 H0; [done|].
  simpl. apply IH. destruct H0 as (Hp & Hh & Hw & Hl).
  destruct ev as [pickDone|i|e]; simpl.
  - unfold dispatch. by rewrite Hl.
  - unfold work. by rewrite Hw.
  - unfold ctx_done. by destruct (ctxErr st0).
Qed.

(** *** A run that nothing cuts short *)




(** *** Workers on a closed channel *)

Lemma work_drain (st : state) (i : nat) :
  draining st ->
  let st' := work s st i in
  draining st'
  /\ loop st' = loop st /\ handled st' = handled st /\ pushed st' = pushed st
  /\ lastPushed st' = lastPushed st
  /\ length (workers st') = length (workers st)
  /\ (taskCh st = [] -> taskCh st' = [] /\ err <$> workers st' = err <$> workers st)
  /\ (forall j, j ≠ i -> workers st' !! j = workers st !! j)
  /\ (forall w', workers st' !! i = Some w' -> running w' = false).
Proof.
  intros [Hcl Hq]. unfold work.
  destruct (workers st !! i) as [[[] werr]|] eqn:Hw.
  - assert (i < length (workers st))%nat as Hi by (by eapply lookup_lt_Some).
    destruct (taskCh st) as [|r rest] eqn:Hch.
    + rewrite Hcl. unfold draining, closed. cbn [loop taskCh ctxErr workers handled pushed lastPushed].
      split; [by split; [|left]|]. do 4 (split; [done|]).
      split; [apply length_insert|]. split; [|split].
      * intros _. split; [done|]. rewrite list_fmap_insert. apply list_insert_id.
        by rewrite list_lookup_fmap, Hw.
      * intros j Hj. by apply list_lookup_insert_ne.
      * intros w'. rewrite list_lookup_insert_eq by done. by intros [= <-].
    + destruct Hq as [Hq|Hq]; [done|]. destruct (ctxErr st) as [e|] eqn:Hctx; [|done].
      unfold draining, closed. cbn [loop taskCh ctxErr workers handled pushed lastPushed].
      split; [by split; [|right]|]. do 4 (split; [done|]).
      split; [apply length_insert|]. split; [done|]. split.
      * intros j Hj. by apply list_lookup_insert_ne.
      * intros w'. rewrite list_lookup_insert_eq by done. by intros [= <-].
  - repeat split; try done. intros w'. rewrite Hw. by intros [= <-].
  - repeat split; try done. intros w'. by rewrite Hw.
Qed.

Lemma drain_workers (n : nat) (st : state) :
  draining st ->
  let st' := run st (EvWorker <$> seq 0 n) in
  draining st'
  /\ loop st' = loop st /\ handled st' = handled st /\ pushed st' = pushed st
  /\ lastPushed st' = lastPushed st
  /\ length (workers st') = length (workers st)
  /\ (taskCh st = [] -> taskCh st' = [] /\ err <$> workers st' = err <$> workers st)
  /\ (forall j w', (j < n)%nat -> workers st' !! j = Some w' -> running w' = false).
Proof.
  intros Hd. induction n as [|n IH].
  - simpl. repeat split; try done; try apply Hd. intros j w' Hj. lia.
  - rewrite seq_S, fmap_app, run_app. simpl.
    destruct IH as (Hd1 & Hl1 & Hh1 & Hp1 & Hf1 & Hlen1 & Hq1 & Hs1).
    destruct (work_drain _ n Hd1) as (Hd2 & Hl2 & Hh2 & Hp2 & Hf2 & Hlen2 & Hq2 & Ho2 & Hi2).
    split; [exact Hd2|]. rewrite Hl2, Hh2, Hp2, Hf2, Hlen2.
    do 5 (split; [done|]). split.
    + intros Hch. destruct (Hq1 Hch) as [Hch1 He1]. destruct (Hq2 Hch1) as [? He2].
      split; [done|]. by rewrite He2.
    + intros j w' Hj Hw'. destruct (decide (j = n)) as [->|Hne].
      * by apply Hi2.
      * rewrite Ho2 in Hw' by done. apply (Hs1 j w'); [lia|done].
Qed.

Lemma all_stopped (ws : list rangeTaskWorker) :
  (forall j w, (j < length ws)%nat -> ws !! j = Some w -> running w = false) ->
  forallb (fun w => negb (running w)) ws = true.
Proof.
  intros H. apply forallb_forall. intros w Hin.
  apply list_elem_of_In, list_elem_of_lookup in Hin as [j Hj].
  rewrite (H j w); [done| |done]. by eapply lookup_lt_Some.
Qed.

Lemma first_err_None (ws : list rangeTaskWorker) :
  Forall (fun e => e = None) (err <$> ws) -> first_err ws = None.
Proof.
  induction ws as [|w ws IH]; [done|]. rewrite fmap_cons, Forall_cons.
  intros [Hw H]. simpl. rewrite Hw. by apply IH.
Qed.


(** *** Handler errors *)











(** *** A run without failures *)





(** *** The claims about [RunOnRange] *)




End RangeTask.

(** *** The runner over four regions *)

Section RunnerScenario.
Import rangetask scenario.


(** An empty range: nothing is pushed, nil is returned. *)
Example RunOnRange_empty_range :
  RunOnRange the_runner ["p"%byte] ["a"%byte] None [EvDispatch false; EvWorker 0]
  = Returns (Some None).
Proof. vm_compute. reflexivity. Qed.

(** The handler fails on the second task: the worker that ran it cancels
    the context, the other worker drops the third task and records the
    context's error, and [RunOnRange] returns the error of the first worker
    that holds one. *)
Example RunOnRange_handler_fails :
  let st := run the_failing_runner ["p"%byte]
                (enter the_failing_runner ["a"%byte] ["p"%byte] None) failing_schedule in
  handled st = [ ({| StartKey := ["a"%byte]; EndKey := ["g"%byte] |}, None);
                 ({| StartKey := ["g"%byte]; EndKey := ["n"%byte] |}, Some ErrUnknown) ]
  /\ workers st = [ {| running := false; err := Some ContextCanceled |};
                    {| running := false; err := Some ErrUnknown |} ]
  /\ returned st = Some (Some (WithStack ContextCanceled)).
Proof. vm_compute. repeat split; reflexivity. Qed.



End RunnerScenario.

(** * Further properties *)

(** ** Error predicates *)

Section Errors.




End Errors.

(** ** The codec of API v1 *)

Section Codec.
Import apicodec.
Variable c : codecV1.

Lemma DecodeRegionKey_EncodeRegionKey (k : bytes) :
  round_trips (memCodec_ c) -> DecodeRegionKey c (EncodeRegionKey c k) = (k, None).
Proof.
  intros Hrt. unfold EncodeRegionKey, DecodeRegionKey.
  destruct k as [|b k]; [done|]. simpl.
  destruct (Hrt (b :: k)) as [Hne Hdec]; [done|].
  destruct (encodeKey (memCodec_ c) (b :: k)) as [|b' k']; [done|].
  exact Hdec.
Qed.


Lemma DecodeRegionRange_EncodeRegionRange (start end_ : bytes) :
  round_trips (memCodec_ c) ->
  DecodeRegionRange c (EncodeRegionKey c start) (EncodeRegionKey c end_) = (start, end_, None).
Proof.
  intros Hrt. unfold DecodeRegionRange.
  by rewrite !DecodeRegionKey_EncodeRegionKey.
Qed.

(** X2.  [DecodeRegionRange] undoes [EncodeRegionRange] when the [memCodec]
    round-trips, and an unbounded end of a range stays unbounded.  When a
    key fails to decode, [DecodeRegionRange] returns that error with both
    keys nil, the error of the start key first; it returns no error only
    when both keys decode, and then returns what they decode to. *)
Theorem DecodeRegionRange_round_trip_and_errors
    (start end_ encodedStart encodedEnd : bytes) :
  (round_trips (memCodec_ c) ->
   DecodeRegionRange c (EncodeRegionRange c start end_).1 (EncodeRegionRange c start end_).2
   = (start, end_, None))
  /\ (EncodeRegionRange c start []).2 = []
  /\ (EncodeRegionRange c [] end_).1 = []
  /\ match DecodeRegionRange c encodedStart encodedEnd with
     | (start', end', None) =>
         DecodeRegionKey c encodedStart = (start', None)
         /\ DecodeRegionKey c encodedEnd = (end', None)
     | (start', end', Some err) =>
         start' = [] /\ end' = []
         /\ ((DecodeRegionKey c encodedStart).2 = Some err
             \/ ((DecodeRegionKey c encodedStart).2 = None
                 /\ (DecodeRegionKey c encodedEnd).2 = Some err))
     end.
Proof.
  split; [by apply DecodeRegionRange_EncodeRegionRange|]. split; [done|]. split; [done|].
  unfold DecodeRegionRange.
  destruct (DecodeRegionKey c encodedStart) as [s0 [e|]]; [by repeat split; left|].
  destruct (DecodeRegionKey c encodedEnd) as [e' [e|]]; [|done].
  repeat split. by right.
Qed.

Lemma decodeCurrentRegions_encoded (metas : list (option metapb.Region)) :
  round_trips (memCodec_ c) ->
  Forall (fun m => m <> None) metas ->
  decodeCurrentRegions c (option_map (encodeRegion c) <$> metas) = Returns (metas, None).
Proof.
  intros Hrt. induction 1 as [|[meta|] metas Hm _ IH]; [done| |done].
  rewrite fmap_cons. cbn -[fmap list_fmap].
  rewrite DecodeRegionRange_EncodeRegionRange by done.
  rewrite IH. by destruct meta.
Qed.



(** X3.  [decodeRegionError] undoes the encoding of the keys of a region
    error: when the [memCodec] round-trips and no current region is nil, a
    region error whose keys were encoded with [EncodeRegionKey] comes back
    with the keys it had, everything else unchanged, and no error. *)
Theorem decodeRegionError_round_trip (re : errorpb.Error) :
  round_trips (memCodec_ c) ->
  (forall errInfo, errorpb.EpochNotMatch_ re = Some errInfo ->
     Forall (fun m => m <> None) (errorpb.CurrentRegions errInfo)) ->
  decodeRegionError c (Some (encodeRegionError c re)) = Returns (Some re, (Some re, None)).
Proof.
  intros Hrt Hnn. unfold decodeRegionError, encodeRegionError. simpl.
  destruct re as [msg [kn|] [en|]]; simpl in *.
  - rewrite DecodeRegionRange_EncodeRegionRange by done.
    rewrite decodeCurrentRegions_encoded by eauto. by destruct kn, en.
  - rewrite DecodeRegionRange_EncodeRegionRange by done. by destruct kn.
  - rewrite decodeCurrentRegions_encoded by eauto. by destruct en.
  - done.
Qed.


End Codec.

(** ** The node allocator: memory that was handed out *)

Section ArenaFrame.
Import arena art.

Lemma store_GetData_length (a a' : MemdbArena) (x : MemdbArenaAddr) (bs : list byte)
    (addr : MemdbArenaAddr) (R : list byte) :
  store a x bs = Some a' -> GetData a addr = Some R ->
  exists R', GetData a' addr = Some R' /\ length R' = length R.
Proof.
  unfold store. destruct (_ || _); [done|].
  destruct (blocks a !! Z.to_nat (idx x)) as [b|] eqn:Hb; [|done].
  destruct (Nat.leb_spec (Z.to_nat (off x) + length bs) (length (data b))); [|done].
  intros [= <-] (b0 & Hi & Ho & Hb0 & Hlen & ->)%GetData_inv.
  unfold GetData. simpl.
  destruct (Z.ltb_spec (idx addr) 0); [lia|]. destruct (Z.ltb_spec (off addr) 0); [lia|].
  simpl. destruct (decide (Z.to_nat (idx addr) = Z.to_nat (idx x))) as [Heq|Hne].
  - rewrite Heq, list_lookup_insert_eq by (by eapply lookup_lt_Some). simpl.
    rewrite Heq, Hb in Hb0. injection Hb0 as <-.
    rewrite !length_app, length_take, length_drop.
    destruct (Z.leb_spec (off addr)
                (Z.of_nat (Z.to_nat (off x) `min` length (data b)
                           + (length bs + (length (data b) - (Z.to_nat (off x) + length bs))))));
      [|lia].
    eexists. split; [done|]. rewrite !length_drop, !length_app, length_take, length_drop. lia.
  - rewrite list_lookup_insert_ne by done. rewrite Hb0.
    destruct (Z.leb_spec (off addr) (Z.of_nat (length (data b0)))); [|lia].
    by eexists.
Qed.

Lemma node_init_holds_node (a a' : MemdbArena) (x addr : MemdbArenaAddr) (sx size : Z) :
  node_init a x sx = Some a' -> holds_node a size addr -> holds_node a' size addr.
Proof.
  unfold node_init. destruct (GetData a x) as [[|b R0]|]; try done.
  intros Hst (R & HR & Hpos & Hlen).
  destruct (store_GetData_length _ _ _ _ _ _ Hst HR) as (R' & HR' & Hl).
  exists R'. split; [done|]. split; [done|]. lia.
Qed.

Lemma extends_refl (a : MemdbArena) : extends a a.
Proof. intros addr R HR. exists []. by rewrite app_nil_r. Qed.

Lemma extends_load (a a' : MemdbArena) (addr : MemdbArenaAddr) (n : nat) (bs : list byte) :
  extends a a' -> load a addr n = Some bs -> load a' addr n = Some bs.
Proof.
  intros Hext. unfold load. destruct (GetData a addr) as [R|] eqn:HR; [|done].
  destruct (Hext addr R HR) as [R' ->].
  destruct (Nat.leb_spec n (length R)); [|done]. intros [= <-].
  rewrite length_app. destruct (Nat.leb_spec n (length R + length R')); [|lia].
  f_equal. by rewrite take_app_le.
Qed.

Lemma allocInLastBlock_extends (a a' : MemdbArena) (size : Z) (addr : MemdbArenaAddr) :
  allocInLastBlock a size = Some (addr, a') -> extends a a'.
Proof.
  unfold allocInLastBlock. destruct (last (blocks a)) as [b|] eqn:Hlast; [|done].
  destruct (_ <=? _); [|done]. intros [= <- <-] x R HR.
  apply GetData_inv in HR as (b0 & Hi & Ho & Hb0 & Hlen & ->).
  rewrite last_lookup in Hlast.
  replace (Nat.pred (length (blocks a))) with (length (blocks a) - 1)%nat in Hlast by lia.
  unfold GetData. simpl.
  destruct (Z.ltb_spec (idx x) 0); [lia|]. destruct (Z.ltb_spec (off x) 0); [lia|]. simpl.
  destruct (decide (Z.to_nat (idx x) = (length (blocks a) - 1)%nat)) as [Heq|Hne].
  - rewrite Heq, list_lookup_insert_eq by (by eapply lookup_lt_Some). simpl.
    rewrite Heq, Hlast in Hb0. injection Hb0 as <-.
    rewrite !length_app.
    match goal with
    | |- context [?p <=? ?q] => destruct (Z.leb_spec p q); [|lia]
    end.
    eexists. by rewrite drop_app_le by lia.
  - rewrite list_lookup_insert_ne by done. rewrite Hb0.
    destruct (Z.leb_spec (off x) (Z.of_nat (length (data b0)))); [|lia].
    exists []. by rewrite app_nil_r.
Qed.

Lemma enlarge_extends (a : MemdbArena) (size : Z) : extends a (enlarge a size).
Proof.
  intros x R (b0 & Hi & Ho & Hb0 & Hlen & ->)%GetData_inv.
  unfold GetData, enlarge. cbn -[grow].
  destruct (Z.ltb_spec (idx x) 0); [lia|]. destruct (Z.ltb_spec (off x) 0); [lia|]. simpl.
  rewrite lookup_app_l by (by eapply lookup_lt_Some). rewrite Hb0.
  destruct (Z.leb_spec (off x) (Z.of_nat (length (data b0)))); [|lia].
  exists []. by rewrite app_nil_r.
Qed.

Lemma extends_trans (a b c : MemdbArena) : extends a b -> extends b c -> extends a c.
Proof.
  intros Hab Hbc x R HR. destruct (Hab x R HR) as [R1 H1].
  destruct (Hbc x _ H1) as [R2 H2]. exists (R1 ++ R2). by rewrite app_assoc.
Qed.

Lemma Alloc_extends (a a' : MemdbArena) (size : Z) (zero : bool) (addr : MemdbArenaAddr) :
  Alloc a size zero = Some (addr, a') -> extends a a'.
Proof.
  unfold Alloc. destruct (_ || _); [done|].
  destruct (allocInLastBlock a size) as [[addr0 a0]|] eqn:Hin.
  - intros [= <- <-]. by eapply allocInLastBlock_extends.
  - intros Hen. eapply extends_trans; [apply enlarge_extends|].
    by eapply allocInLastBlock_extends.
Qed.

(** A store at or after everything [a] has handed out keeps what [a] has
    handed out. *)
Lemma store_fresh_extends (a a1 a2 : MemdbArena) (x : MemdbArenaAddr) (bs : list byte) :
  extends a a1 -> fresh a x -> store a1 x bs = Some a2 -> extends a a2.
Proof.
  intros Hext Hfresh Hst y R HR. destruct (Hext y R HR) as [R1 H1].
  apply GetData_inv in HR as (b & Hi & Ho & Hb & Hlen & ->).
  apply GetData_inv in H1 as (b1 & _ & _ & Hb1 & Hlen1 & HR1).
  revert Hst. unfold store. destruct (_ || _) eqn:Hneg; [done|].
  apply orb_false_iff in Hneg as [Hxi Hxo].
  apply Z.ltb_ge in Hxi, Hxo.
  destruct (blocks a1 !! Z.to_nat (idx x)) as [bx|] eqn:Hbx; [|done].
  destruct (Nat.leb_spec (Z.to_nat (off x) + length bs) (length (data bx))); [|done].
  intros [= <-]. unfold GetData. simpl.
  destruct (Z.ltb_spec (idx y) 0); [lia|]. destruct (Z.ltb_spec (off y) 0); [lia|]. simpl.
  destruct (decide (Z.to_nat (idx y) = Z.to_nat (idx x))) as [Heq|Hne].
  - rewrite Heq, list_lookup_insert_eq by (by eapply lookup_lt_Some). simpl.
    rewrite Heq, Hbx in Hb1. injection Hb1 as <-.
    unfold fresh in Hfresh. rewrite <- Heq, Hb in Hfresh.
    rewrite !length_app, length_take, length_drop.
    destruct (Z.leb_spec (off y)
                (Z.of_nat (Z.to_nat (off x) `min` length (data bx)
                           + (length bs + (length (data bx) - (Z.to_nat (off x) + length bs))))));
      [|lia].
    assert (length (drop (Z.to_nat (off y)) (data b)) = (length (data b) - Z.to_nat (off y))%nat)
      as HlenR by apply length_drop.
    assert (take (length (data b) - Z.to_nat (off y)) (drop (Z.to_nat (off y)) (data bx))
            = drop (Z.to_nat (off y)) (data b)) as Htake.
    { rewrite <- HR1, <- HlenR. apply take_app_length. }
    set (X := take (Z.to_nat (off x)) (data bx) ++ bs
              ++ drop (Z.to_nat (off x) + length bs) (data bx)).
    set (n := (length (data b) - Z.to_nat (off y))%nat) in *.
    exists (drop n (drop (Z.to_nat (off y)) X)). f_equal.
    rewrite <- (take_drop n (drop (Z.to_nat (off y)) X)) at 1. f_equal.
    rewrite <- Htake. rewrite !take_drop_commute. f_equal. unfold X.
    rewrite take_app_le by (rewrite length_take; lia).
    rewrite take_take. f_equal. lia.
  - rewrite list_lookup_insert_ne by done. rewrite Hb1.
    destruct (Z.leb_spec (off y) (Z.of_nat (length (data b1)))); [|lia].
    exists R1. by rewrite HR1.
Qed.

Lemma fresh_field (a : MemdbArena) (addr : MemdbArenaAddr) (k : Z) :
  fresh a addr -> 0 <= k -> fresh a (field addr k).
Proof.
  unfold fresh, field. simpl. destruct (blocks a !! Z.to_nat (idx addr)); [|done]. lia.
Qed.

(** A store leaves what lies before it or after it, or in another block,
    as it was. *)
Lemma store_load_disjoint (a a' : MemdbArena) (x y : MemdbArenaAddr) (bs r : list byte)
    (n : nat) :
  store a x bs = Some a' -> load a y n = Some r ->
  idx y ≠ idx x \/ off y + Z.of_nat n <= off x
  \/ off x + Z.of_nat (length bs) <= off y ->
  load a' y n = Some r.
Proof.
  unfold store, load. destruct (_ || _) eqn:Hneg; [done|].
  apply orb_false_iff in Hneg as [Hxi Hxo]. apply Z.ltb_ge in Hxi, Hxo.
  destruct (blocks a !! Z.to_nat (idx x)) as [bx|] eqn:Hbx; [|done].
  destruct (Nat.leb_spec (Z.to_nat (off x) + length bs) (length (data bx))); [|done].
  intros [= <-]. destruct (GetData a y) as [R|] eqn:HR; [|done].
  apply GetData_inv in HR as (b & Hi & Ho & Hb & Hlen & ->).
  rewrite length_drop. destruct (Nat.leb_spec n (length (data b) - Z.to_nat (off y))); [|done].
  intros [= <-] Hdis. unfold GetData. simpl.
  destruct (Z.ltb_spec (idx y) 0); [lia|]. destruct (Z.ltb_spec (off y) 0); [lia|]. simpl.
  destruct (decide (Z.to_nat (idx y) = Z.to_nat (idx x))) as [Heq|Hne].
  - rewrite Heq, list_lookup_insert_eq by (by eapply lookup_lt_Some). simpl.
    rewrite Heq, Hbx in Hb. injection Hb as <-.
    set (D := data bx) in *. set (ox := Z.to_nat (off x)) in *.
    set (oy := Z.to_nat (off y)) in *.
    assert (length (take ox D ++ bs ++ drop (ox + length bs) D) = length D) as HlenD.
    { rewrite !length_app, length_take, length_drop. lia. }
    rewrite HlenD.
    destruct (Z.leb_spec (off y) (Z.of_nat (length D))); [|lia].
    rewrite length_drop, HlenD.
    destruct (Nat.leb_spec n (length D - oy)); [|lia]. f_equal.
    destruct Hdis as [Hdis|[Hdis|Hdis]]; [lia| |].
    + rewrite !take_drop_commute. f_equal.
      rewrite take_app_le by (rewrite length_take; lia).
      rewrite take_take. f_equal. lia.
    + f_equal. rewrite app_assoc.
      rewrite drop_app_ge by (rewrite length_app, length_take; lia).
      rewrite length_app, length_take, drop_drop. f_equal. lia.
  - rewrite list_lookup_insert_ne by done. rewrite Hb.
    destruct (Z.leb_spec (off y) (Z.of_nat (length (data b)))); [|lia].
    rewrite length_drop. by destruct (Nat.leb_spec n (length (data b) - Z.to_nat (off y))); [|lia].
Qed.

End ArenaFrame.

(** The free list of one node size, as a stack. *)
Section FreeList.
Import arena art.
Variable size : Z.
Variable alloc : artAllocator -> option (MemdbArenaAddr * artAllocator).
Variable free : artAllocator -> MemdbArenaAddr -> artAllocator.
Variable freeList : artAllocator -> list MemdbArenaAddr.
Variable with_freeList : artAllocator -> list MemdbArenaAddr -> artAllocator.

Hypothesis free_eq : forall f addr, free f addr = with_freeList f (freeList f ++ [addr]).
Hypothesis alloc_pop : forall f l addr,
  freeList f = l ++ [addr] ->
  alloc f = match node_init (MemdbArena_ (nodeAllocator f)) addr size with
            | Some a => Some (addr, with_arena (with_freeList f l) a)
            | None => None
            end.
Hypothesis freeList_with : forall f l a,
  freeList (with_arena (with_freeList f l) a) = l.
Hypothesis arena_with : forall f l a,
  MemdbArena_ (nodeAllocator (with_arena (with_freeList f l) a)) = a.
Hypothesis arena_with_freeList : forall f l,
  MemdbArena_ (nodeAllocator (with_freeList f l)) = MemdbArena_ (nodeAllocator f).
Hypothesis freeList_with_freeList : forall f l, freeList (with_freeList f l) = l.

Lemma foldl_free (f : artAllocator) (l : list MemdbArenaAddr) :
  freeList (foldl free f l) = freeList f ++ l
  /\ MemdbArena_ (nodeAllocator (foldl free f l)) = MemdbArena_ (nodeAllocator f).
Proof.
  revert f. induction l as [|x l IH]; intros f; simpl.
  - by rewrite app_nil_r.
  - destruct (IH (free f x)) as [H1 H2]. rewrite H1, H2, free_eq.
    rewrite freeList_with_freeList, arena_with_freeList, <- app_assoc. done.
Qed.

Lemma allocs_pop (l : list MemdbArenaAddr) :
  forall f base,
    freeList f = base ++ l ->
    Forall (holds_node (MemdbArena_ (nodeAllocator f)) size) l ->
    exists f', allocs alloc (length l) f = Some (reverse l, f')
      /\ freeList f' = base.
Proof.
  induction l as [|x l IH] using rev_ind; intros f base Hl Hv.
  - exists f. by rewrite app_nil_r in Hl.
  - rewrite length_app, Nat.add_comm. simpl. rewrite reverse_snoc.
    rewrite Forall_app, Forall_singleton in Hv. destruct Hv as [Hv Hx].
    rewrite app_assoc in Hl. rewrite (alloc_pop f _ x Hl).
    unfold holds_node in Hx. destruct Hx as (R & HR & Hpos & Hlen).
    destruct (node_init_zero _ _ _ _ HR Hpos Hlen) as (a' & Hinit & _).
    rewrite Hinit.
    destruct (IH (with_arena (with_freeList f (base ++ l)) a') base) as (f' & Hal & Hf').
    + apply freeList_with.
    + rewrite arena_with. eapply Forall_impl; [exact Hv|].
      intros addr Haddr. by eapply node_init_holds_node.
    + rewrite Hal. by exists f'.
Qed.

Lemma frees_then_allocs (f : artAllocator) (l : list MemdbArenaAddr) :
  Forall (holds_node (MemdbArena_ (nodeAllocator f)) size) l ->
  exists f', allocs alloc (length l) (foldl free f l) = Some (reverse l, f')
    /\ freeList f' = freeList f.
Proof.
  intros Hv. destruct (foldl_free f l) as [Hl Ha].
  apply (allocs_pop l _ (freeList f)); [done|]. by rewrite Ha.
Qed.

End FreeList.

Section NodeAllocatorComposition.
Import arena art.

Lemma Alloc_bounds (a a' : MemdbArena) (size : Z) (zero : bool) (addr : MemdbArenaAddr) :
  Alloc a size zero = Some (addr, a') -> 0 <= size <= maxBlockSize.
Proof.
  unfold Alloc. destruct (Z.ltb_spec size 0); [done|].
  destruct (Z.ltb_spec maxBlockSize size); [done|]. lia.
Qed.

Lemma Alloc_fresh (a a' : MemdbArena) (size : Z) (zero : bool) (addr : MemdbArenaAddr) :
  Alloc a size zero = Some (addr, a') -> fresh a addr.
Proof.
  intros HA. destruct (Alloc_spec a size zero (Alloc_bounds _ _ _ _ _ HA))
    as (addr0 & a0 & HA0 & _ & Hf & _).
  rewrite HA in HA0. by injection HA0 as -> ->.
Qed.

Lemma node_init_fresh_extends (a a1 a2 : MemdbArena) (addr : MemdbArenaAddr) (size : Z) :
  extends a a1 -> fresh a addr -> node_init a1 addr size = Some a2 -> extends a a2.
Proof.
  intros Hext Hf. unfold node_init. destruct (GetData a1 addr) as [[|b R]|]; try done.
  by apply store_fresh_extends.
Qed.

Lemma alloc_init_extends (a a1 a2 : MemdbArena) (addr : MemdbArenaAddr) (size : Z) :
  Alloc a size true = Some (addr, a1) -> node_init a1 addr size = Some a2 ->
  extends a a2 /\ fresh a addr.
Proof.
  intros HA Hi. pose proof (Alloc_fresh _ _ _ _ _ HA) as Hf. split; [|done].
  eapply node_init_fresh_extends; [by eapply Alloc_extends|done|done].
Qed.

Lemma allocLeaf_extends (f f' : artAllocator) (key : bytes) (addr : MemdbArenaAddr) :
  allocLeaf f key = Some (addr, f') ->
  extends (MemdbArena_ (nodeAllocator f)) (MemdbArena_ (nodeAllocator f'))
  /\ fresh (MemdbArena_ (nodeAllocator f)) addr
  /\ exists a0, Alloc (MemdbArena_ (nodeAllocator f)) (leafSize + Z.of_nat (length key)) true
                = Some (addr, a0).
Proof.
  unfold allocLeaf, set_klen, set_flags, set_vAddr.
  destruct (Alloc _ _ true) as [[addr0 a0]|] eqn:HA; [|done].
  pose proof (Alloc_fresh _ _ _ _ _ HA) as Hf.
  pose proof (Alloc_extends _ _ _ _ _ HA) as H0.
  destruct (store a0 _ _) as [a1|] eqn:H1; [|done].
  destruct (store a1 _ _) as [a2|] eqn:H2; [|done].
  destruct (store a2 _ _) as [a3|] eqn:H3; [|done].
  destruct (store a3 _ _) as [a4|] eqn:H4; [|done].
  intros [= <- <-]. split; [|split; [done|by exists a0]]. simpl.
  apply (store_fresh_extends _ a3 _ _ _) with (3 := H4); [|by apply fresh_field].
  apply (store_fresh_extends _ a2 _ _ _) with (3 := H3); [|by apply fresh_field].
  apply (store_fresh_extends _ a1 _ _ _) with (3 := H2); [|by apply fresh_field].
  apply (store_fresh_extends _ a0 _ _ _) with (3 := H1); [|by apply fresh_field].
  exact H0.
Qed.

Lemma allocInLastBlock_capped (a a' : MemdbArena) (size : Z) (addr : MemdbArenaAddr) :
  capped a -> 0 <= size -> allocInLastBlock a size = Some (addr, a') ->
  capped a' /\ 0 <= off addr <= maxBlockSize.
Proof.
  unfold capped, allocInLastBlock. intros Hc Hsize.
  destruct (last (blocks a)) as [b|] eqn:Hlast; [|done].
  pose proof (align8_ge (Z.of_nat (length (data b)))) as Hal.
  destruct (Z.leb_spec (align8 (Z.of_nat (length (data b))) + size) (cap b)); [|done].
  intros [= <- <-]. simpl.
  assert (cap b <= maxBlockSize) as Hb.
  { rewrite last_lookup in Hlast. by apply (Forall_lookup_1 _ _ _ _ Hc Hlast). }
  split; [|lia]. apply Forall_insert; [done|]. done.
Qed.

Lemma Alloc_capped (a a' : MemdbArena) (size : Z) (zero : bool) (addr : MemdbArenaAddr) :
  capped a -> Alloc a size zero = Some (addr, a') ->
  capped a' /\ 0 <= off addr <= maxBlockSize.
Proof.
  intros Hc HA. pose proof (Alloc_bounds _ _ _ _ _ HA) as [H0 _]. revert HA.
  unfold Alloc. destruct (_ || _); [done|].
  destruct (allocInLastBlock a size) as [[addr0 a0]|] eqn:Hin.
  - intros [= <- <-]. by eapply allocInLastBlock_capped.
  - apply allocInLastBlock_capped; [|done]. unfold capped, enlarge. cbn -[grow].
    apply Forall_app. split; [done|]. apply Forall_singleton. cbn -[grow]. lia.
Qed.

Lemma store_capped (a a' : MemdbArena) (x : MemdbArenaAddr) (bs : list byte) :
  capped a -> store a x bs = Some a' -> capped a'.
Proof.
  unfold capped, store. intros Hc. destruct (_ || _); [done|].
  destruct (blocks a !! Z.to_nat (idx x)) as [b|] eqn:Hb; [|done].
  destruct (_ <=? _)%nat; [|done]. intros [= <-]. simpl.
  apply Forall_insert; [done|]. simpl. by apply (Forall_lookup_1 _ _ _ _ Hc Hb).
Qed.

Lemma allocLeaf_capped (f f' : artAllocator) (key : bytes) (addr : MemdbArenaAddr) :
  capped (MemdbArena_ (nodeAllocator f)) -> allocLeaf f key = Some (addr, f') ->
  capped (MemdbArena_ (nodeAllocator f')) /\ 0 <= off addr <= maxBlockSize.
Proof.
  intros Hc. unfold allocLeaf, set_klen, set_flags, set_vAddr.
  destruct (Alloc _ _ true) as [[addr0 a0]|] eqn:HA; [|done].
  destruct (Alloc_capped _ _ _ _ _ Hc HA) as [Hc0 Hoff].
  destruct (store a0 _ _) as [a1|] eqn:H1; [|done].
  destruct (store a1 _ _) as [a2|] eqn:H2; [|done].
  destruct (store a2 _ _) as [a3|] eqn:H3; [|done].
  destruct (store a3 _ _) as [a4|] eqn:H4; [|done].
  intros [= <- <-]. split; [|done]. simpl.
  eapply store_capped; [|exact H4]. eapply store_capped; [|exact H3].
  eapply store_capped; [|exact H2]. eapply store_capped; [|exact H1]. done.
Qed.

(** X6.  Each free list is a stack.  After the addresses [l] are freed in
    order with [freeNodeK] (K = 4, 16, 48), the next [len(l)] calls of
    [allocNodeK] return them in the reverse order and leave the free list as
    it was before, provided a node of that size lies at each address.
    Nothing keeps an address from being freed twice: it is then returned
    twice. *)
Theorem free_list_is_a_stack (node4size node16size node48size : Z)
    (f : artAllocator) (l : list MemdbArenaAddr) :
  (Forall (holds_node (MemdbArena_ (nodeAllocator f)) node4size) l ->
   exists f', allocs (allocNode4 node4size) (length l) (foldl freeNode4_ f l)
              = Some (reverse l, f')
     /\ freeNode4 (nodeAllocator f') = freeNode4 (nodeAllocator f))
  /\ (Forall (holds_node (MemdbArena_ (nodeAllocator f)) node16size) l ->
      exists f', allocs (allocNode16 node16size) (length l) (foldl freeNode16_ f l)
                 = Some (reverse l, f')
        /\ freeNode16 (nodeAllocator f') = freeNode16 (nodeAllocator f))
  /\ (Forall (holds_node (MemdbArena_ (nodeAllocator f)) node48size) l ->
      exists f', allocs (allocNode48 node48size) (length l) (foldl freeNode48_ f l)
                 = Some (reverse l, f')
        /\ freeNode48 (nodeAllocator f') = freeNode48 (nodeAllocator f)).
Proof.
  split; [|split].
  - apply (frees_then_allocs node4size (allocNode4 node4size) freeNode4_
             (fun f => freeNode4 (nodeAllocator f)) with_freeNode4); try done.
    intros f0 l0 addr Hl. unfold allocNode4. by rewrite Hl, last_snoc, removelast_last.
  - apply (frees_then_allocs node16size (allocNode16 node16size) freeNode16_
             (fun f => freeNode16 (nodeAllocator f)) with_freeNode16); try done.
    intros f0 l0 addr Hl. unfold allocNode16. by rewrite Hl, last_snoc, removelast_last.
  - apply (frees_then_allocs node48size (allocNode48 node48size) freeNode48_
             (fun f => freeNode48 (nodeAllocator f)) with_freeNode48); try done.
    intros f0 l0 addr Hl. unfold allocNode48. by rewrite Hl, last_snoc, removelast_last.
Qed.

Ltac commute_tac :=
  intros; cbv [allocNode4 allocNode16 allocNode48 allocNode256 allocLeaf
               set_klen set_flags set_vAddr
               freeNode4_ freeNode16_ freeNode48_ and_then
               with_freeNode4 with_freeNode16 with_freeNode48 with_arena
               nodeAllocator MemdbArena_ freeNode4 freeNode16 freeNode48];
  repeat match goal with
         | |- context [match ?x with _ => _ end] => destruct x eqn:?; try done
         end.

(** X7.  The free lists of the three sizes are independent.  Freeing a node
    of one size changes nothing in what an allocation of another size, of a
    [node256] or of a leaf returns: the call returns the same address and
    leaves the same allocator as it would have, with the freed address on
    its list. *)
Theorem free_commutes_with_other_sizes (node4size node16size node48size node256size : Z)
    (f : artAllocator) (addr : MemdbArenaAddr) (key : bytes) :
  (allocNode16 node16size (freeNode4_ f addr)
   = and_then (fun f' => freeNode4_ f' addr) (allocNode16 node16size f)
   /\ allocNode48 node48size (freeNode4_ f addr)
      = and_then (fun f' => freeNode4_ f' addr) (allocNode48 node48size f)
   /\ allocNode256 node256size (freeNode4_ f addr)
      = and_then (fun f' => freeNode4_ f' addr) (allocNode256 node256size f)
   /\ allocLeaf (freeNode4_ f addr) key
      = and_then (fun f' => freeNode4_ f' addr) (allocLeaf f key))
  /\ (allocNode4 node4size (freeNode16_ f addr)
      = and_then (fun f' => freeNode16_ f' addr) (allocNode4 node4size f)
      /\ allocNode48 node48size (freeNode16_ f addr)
         = and_then (fun f' => freeNode16_ f' addr) (allocNode48 node48size f)
      /\ allocNode256 node256size (freeNode16_ f addr)
         = and_then (fun f' => freeNode16_ f' addr) (allocNode256 node256size f)
      /\ allocLeaf (freeNode16_ f addr) key
         = and_then (fun f' => freeNode16_ f' addr) (allocLeaf f key))
  /\ (allocNode4 node4size (freeNode48_ f addr)
      = and_then (fun f' => freeNode48_ f' addr) (allocNode4 node4size f)
      /\ allocNode16 node16size (freeNode48_ f addr)
         = and_then (fun f' => freeNode48_ f' addr) (allocNode16 node16size f)
      /\ allocNode256 node256size (freeNode48_ f addr)
         = and_then (fun f' => freeNode48_ f' addr) (allocNode256 node256size f)
      /\ allocLeaf (freeNode48_ f addr) key
         = and_then (fun f' => freeNode48_ f' addr) (allocLeaf f key)).
Proof.
  destruct f as [[a l4 l16 l48]].
  repeat split; commute_tac.
Qed.

(** X8.  An allocation that takes memory from the arena, that is
    [allocLeaf], [allocNode256], and [allocNodeK] on an empty free list,
    returns an address no earlier allocation overlaps and leaves every byte
    the arena had handed out before as it was: whatever could be read at an
    address before the call is read there after it. *)
Theorem allocation_keeps_memory (node4size node16size node48size node256size : Z)
    (f f' : artAllocator) (key : bytes) (addr : MemdbArenaAddr) :
  allocLeaf f key = Some (addr, f')
  \/ allocNode256 node256size f = Some (addr, f')
  \/ (freeNode4 (nodeAllocator f) = [] /\ allocNode4 node4size f = Some (addr, f'))
  \/ (freeNode16 (nodeAllocator f) = [] /\ allocNode16 node16size f = Some (addr, f'))
  \/ (freeNode48 (nodeAllocator f) = [] /\ allocNode48 node48size f = Some (addr, f')) ->
  fresh (MemdbArena_ (nodeAllocator f)) addr
  /\ (forall addr0 R, GetData (MemdbArena_ (nodeAllocator f)) addr0 = Some R ->
        exists R', GetData (MemdbArena_ (nodeAllocator f')) addr0 = Some (R ++ R'))
  /\ (forall addr0 n bs, load (MemdbArena_ (nodeAllocator f)) addr0 n = Some bs ->
        load (MemdbArena_ (nodeAllocator f')) addr0 n = Some bs).
Proof.
  intros H.
  assert (extends (MemdbArena_ (nodeAllocator f)) (MemdbArena_ (nodeAllocator f'))
          /\ fresh (MemdbArena_ (nodeAllocator f)) addr) as [Hext Hf].
  { destruct H as [H|[H|[[Hl H]|[[Hl H]|[Hl H]]]]].
    - by destruct (allocLeaf_extends _ _ _ _ H) as (? & ? & _).
    - unfold allocNode256 in H.
      destruct (Alloc _ _ true) as [[addr0 a0]|] eqn:HA; [|done].
      destruct (node_init a0 addr0 _) as [a1|] eqn:Hi; [|done].
      injection H as <- <-. by apply (alloc_init_extends _ a0 _ _ node256size).
    - unfold allocNode4 in H. rewrite Hl in H. simpl in H.
      destruct (Alloc _ _ true) as [[addr0 a0]|] eqn:HA; [|done].
      destruct (node_init a0 addr0 _) as [a1|] eqn:Hi; [|done].
      injection H as <- <-. by apply (alloc_init_extends _ a0 _ _ node4size).
    - unfold allocNode16 in H. rewrite Hl in H. simpl in H.
      destruct (Alloc _ _ true) as [[addr0 a0]|] eqn:HA; [|done].
      destruct (node_init a0 addr0 _) as [a1|] eqn:Hi; [|done].
      injection H as <- <-. by apply (alloc_init_extends _ a0 _ _ node16size).
    - unfold allocNode48 in H. rewrite Hl in H. simpl in H.
      destruct (Alloc _ _ true) as [[addr0 a0]|] eqn:HA; [|done].
      destruct (node_init a0 addr0 _) as [a1|] eqn:Hi; [|done].
      injection H as <- <-. by apply (alloc_init_extends _ a0 _ _ node48size). }
  split; [exact Hf|]. split; [exact Hext|].
  intros addr0 n bs. by apply extends_load.
Qed.

(** X9.  [allocLeaf] never returns the NULL address: in an arena whose
    blocks respect the cap, [getLeaf] on the address [allocLeaf] returned
    gives the leaf at that address, not nil; and the blocks of the arena
    still respect the cap afterwards. *)
Theorem allocLeaf_then_getLeaf (f : artAllocator) (key : bytes) :
  capped (MemdbArena_ (nodeAllocator f)) ->
  leafSize + Z.of_nat (length key) <= maxBlockSize ->
  exists addr f', allocLeaf f key = Some (addr, f')
    /\ addr <> NullAddr
    /\ getLeaf f' addr = Returns (Some addr)
    /\ capped (MemdbArena_ (nodeAllocator f')).
Proof.
  intros Hc Hsz. destruct (allocLeaf_region f key Hsz) as (addr & f' & Hal & HG & _).
  destruct (allocLeaf_capped f f' key addr Hc Hal) as [Hc' Hoff].
  exists addr, f'. split; [exact Hal|].
  assert (addr <> NullAddr) as Hne.
  { intros ->. unfold maxBlockSize in Hoff. simpl in Hoff. lia. }
  split; [exact Hne|]. split; [|exact Hc'].
  unfold getLeaf, IsNull. rewrite bool_decide_false by done. by rewrite HG.
Qed.

Lemma node_init_load_disjoint (a a' : MemdbArena) (addr y : MemdbArenaAddr) (size : Z)
    (n : nat) (r : list byte) :
  node_init a addr size = Some a' -> 0 <= size -> load a y n = Some r ->
  idx y ≠ idx addr \/ off y + Z.of_nat n <= off addr \/ off addr + size <= off y ->
  load a' y n = Some r.
Proof.
  unfold node_init. destruct (GetData a addr) as [[|b R]|]; try done.
  intros Hst Hsize Hl Hdis. apply (store_load_disjoint _ _ _ _ _ _ _ Hst Hl).
  rewrite length_replicate. lia.
Qed.

(** X17.  An [allocNodeK] that takes its address from the free list writes
    only the bytes of the node at that address: what could be read in
    another block, before the node or after its last byte is read there
    unchanged after the call. *)
Theorem reused_node_init_touches_only_the_node (node4size node16size node48size size : Z)
    (f f' : artAllocator) (addr : MemdbArenaAddr) :
  (freeNode4 (nodeAllocator f) ≠ [] /\ size = node4size
   /\ allocNode4 node4size f = Some (addr, f'))
  \/ (freeNode16 (nodeAllocator f) ≠ [] /\ size = node16size
      /\ allocNode16 node16size f = Some (addr, f'))
  \/ (freeNode48 (nodeAllocator f) ≠ [] /\ size = node48size
      /\ allocNode48 node48size f = Some (addr, f')) ->
  0 <= size ->
  forall addr0 n bs,
    load (MemdbArena_ (nodeAllocator f)) addr0 n = Some bs ->
    idx addr0 ≠ idx addr \/ off addr0 + Z.of_nat n <= off addr
    \/ off addr + size <= off addr0 ->
    load (MemdbArena_ (nodeAllocator f')) addr0 n = Some bs.
Proof.
  intros H Hsize addr0 n bs Hl Hdis.
  assert (node_init (MemdbArena_ (nodeAllocator f)) addr size
          = Some (MemdbArena_ (nodeAllocator f'))) as Hi.
  { destruct H as [(Hne & -> & H)|[(Hne & -> & H)|(Hne & -> & H)]].
    - unfold allocNode4 in H. destruct (last (freeNode4 (nodeAllocator f))) as [x|] eqn:Hlast;
        [|by apply last_None_nil in Hlast].
      simpl in H. destruct (node_init _ x _) as [a'|] eqn:Hin; [|done].
      by injection H as <- <-.
    - unfold allocNode16 in H. destruct (last (freeNode16 (nodeAllocator f))) as [x|] eqn:Hlast;
        [|by apply last_None_nil in Hlast].
      simpl in H. destruct (node_init _ x _) as [a'|] eqn:Hin; [|done].
      by injection H as <- <-.
    - unfold allocNode48 in H. destruct (last (freeNode48 (nodeAllocator f))) as [x|] eqn:Hlast;
        [|by apply last_None_nil in Hlast].
      simpl in H. destruct (node_init _ x _) as [a'|] eqn:Hin; [|done].
      by injection H as <- <-. }
  by apply (node_init_load_disjoint _ _ addr addr0 size n bs Hi).
Qed.

End NodeAllocatorComposition.

(** ** The range-task runner: counters, channel and workers *)

Section RangeTaskInvariants.
Import rangetask.
Variable s : Runner.
Variables startKey endKey : bytes.

Local Abbreviation step := (step s endKey).
Local Abbreviation run := (run s endKey).
Local Abbreviation load := (BatchLoadRegionsFromKey (store s)).
Local Abbreviation counters_inv := (rangetask.counters_inv s).
Local Abbreviation capacity_inv := (rangetask.capacity_inv s startKey endKey).

(** An invariant of the steps holds all along a run. *)
Lemma run_invariant (P : state -> Prop) (st : state) (evs : list event) :
  (forall st ev, P st -> P (step st ev)) -> P st -> P (run st evs).
Proof.
  intros Hstep. revert st. induction evs as [|ev evs IH]; intros st Hst; [done|].
  simpl. apply IH. by apply Hstep.
Qed.

(** *** The counters *)

Lemma int32_add_r (a b : Z) : int32 (a + int32 b) = int32 (a + b).
Proof.
  unfold int32. f_equal.
  replace (a + ((b + 2 ^ 31) mod 2 ^ 32 - 2 ^ 31) + 2 ^ 31)
    with (a + (b + 2 ^ 31) mod 2 ^ 32) by lia.
  rewrite Zplus_mod_idemp_r. f_equal. lia.
Qed.

Lemma int32_add_l (a b : Z) : int32 (int32 a + b) = int32 (a + b).
Proof. rewrite (Z.add_comm (int32 a)), int32_add_r. f_equal. lia. Qed.

Lemma regionsCounted_snoc (f : TaskStat -> Z) (hs : list (KeyRange * option error))
    (p : KeyRange * option error) :
  regionsCounted s f (hs ++ [p]) = regionsCounted s f hs + f (handler s p.1).1.
Proof. induction hs as [|q hs IH]; simpl; [lia|]. rewrite IH. lia. Qed.

Lemma counters_inv_step (st : state) (ev : event) :
  counters_inv st -> counters_inv (step st ev).
Proof.
  intros (Hc & Hf). destruct ev as [pickDone|i|e]; simpl.
  - unfold dispatch. destruct (loop st); try done.
    destruct (load key (regionsPerTask s)) as [b [e|]]; [done|].
    destruct (_ && negb _); [done|]. by destruct (bool_decide _).
  - unfold work. destruct (workers st !! i) as [[[] werr]|]; try done.
    destruct (taskCh st) as [|r rest].
    + by destruct (closed st).
    + destruct (ctxErr st); [done|]. destruct (handler s r) as [stat herr] eqn:Hh.
      unfold rangetask.counters_inv. cbn [completed failed handled].
      rewrite !regionsCounted_snoc. cbn [fst]. rewrite Hh. cbn [fst].
      rewrite !int32_add_r. split.
      * by rewrite Hc, int32_add_l.
      * rewrite Hf. destruct (handled st) as [|p hs] eqn:Hh0.
        -- simpl. f_equal.
        -- simpl app. cbv iota. rewrite int32_add_l. f_equal. lia.
  - unfold ctx_done. by destruct (ctxErr st).
Qed.

Lemma counters_inv_enter (ctx0 : option error) :
  counters_inv (enter s startKey endKey ctx0).
Proof. unfold enter, rangetask.counters_inv. by destruct (emptyRange _ _). Qed.

(** *** The channel *)



Lemma capacity_inv_step (st : state) (ev : event) :
  capacity_inv st -> capacity_inv (step st ev).
Proof.
  intros [Hc Hw]. destruct ev as [pickDone|i|e]; simpl.
  - unfold dispatch. destruct (loop st); try done.
    destruct (load key (regionsPerTask s)) as [b [e|]]; [done|].
    destruct (Z.ltb_spec (Z.of_nat (length (taskCh st))) (concurrency s)); simpl.
    + destruct (negb _).
      * split; [|done]. cbn [taskCh]. rewrite length_app. simpl. lia.
      * by destruct (bool_decide _).
    + by destruct (bool_decide _).
  - unfold work. destruct (workers st !! i) as [[[] werr]|]; try done.
    destruct (taskCh st) as [|r rest] eqn:Hch.
    + destruct (closed st); [|by split; [rewrite Hch|]].
      split; [simpl; lia|]. cbn [workers]. by rewrite length_insert.
    + simpl in Hc. destruct (ctxErr st).
      * split; [cbn [taskCh]; lia|]. cbn [workers]. by rewrite length_insert.
      * destruct (handler s r) as [stat [e|]]; split; cbn [taskCh workers]; try lia;
          by rewrite ?length_insert.
  - unfold ctx_done. by destruct (ctxErr st).
Qed.

Lemma capacity_inv_enter (ctx0 : option error) :
  capacity_inv (enter s startKey endKey ctx0).
Proof.
  unfold rangetask.capacity_inv, enter. destruct (emptyRange _ _); simpl; [split; [lia|done]|].
  split; [lia|]. by rewrite length_replicate.
Qed.

Lemma closed_step (st : state) (ev : event) : closed st = true -> closed (step st ev) = true.
Proof.
  unfold closed. destruct ev as [pickDone|i|e]; simpl.
  - unfold dispatch. destruct (loop st) as [key| |e] eqn:Hl; [done|by rewrite Hl..].
  - unfold work. destruct (workers st !! i) as [[[] werr]|]; try done.
    destruct (taskCh st) as [|r rest].
    + by destruct (rangetask.closed st).
    + destruct (ctxErr st); [done|]. by destruct (handler s r).
  - unfold ctx_done. by destruct (ctxErr st).
Qed.



Lemma int32_range (a : Z) : - 2 ^ 31 <= int32 a < 2 ^ 31.
Proof. unfold int32. pose proof (Z.mod_pos_bound (a + 2 ^ 31) (2 ^ 32)). lia. Qed.

(** X10.  Under every schedule the completed-regions counter is, in
    [int32], the sum of the regions the handler reported as completed over
    the tasks handled in this run: [RunOnRange] sets it to 0 when it starts.
    The failed-regions counter is not reset: it is the value it had before
    the run, plus what the handler reported as failed. *)
Theorem counters_count_handled_tasks (ctx0 : option error) (evs : list event) :
  let st := run (enter s startKey endKey ctx0) evs in
  completed st = int32 (regionsCounted s CompletedRegions (handled st))
  /\ failed st = match handled st with
                 | [] => failedRegions s
                 | _ => int32 (failedRegions s
                               + regionsCounted s FailedRegions (handled st))
                 end
  /\ - 2 ^ 31 <= completed st < 2 ^ 31.
Proof.
  intros st.
  destruct (run_invariant counters_inv _ evs counters_inv_step (counters_inv_enter ctx0))
    as [Hc Hf].
  fold st in Hc, Hf. split; [exact Hc|]. split; [exact Hf|].
  rewrite Hc. apply int32_range.
Qed.



(** X12.  Under every schedule the channel holds at most [concurrency]
    tasks and [RunOnRange] runs exactly [concurrency] workers (none on an
    empty range).  When the channel is full and the context is not done,
    the loop waits: its turn changes nothing, unless the region load
    fails. *)
Theorem channel_holds_at_most_concurrency (ctx0 : option error) (evs : list event) :
  let st := run (enter s startKey endKey ctx0) evs in
  Z.of_nat (length (taskCh st)) <= Z.max 0 (concurrency s)
  /\ length (workers st)
     = (if emptyRange startKey endKey then 0%nat else Z.to_nat (concurrency s))
  /\ (ctxErr st = None -> concurrency s <= Z.of_nat (length (taskCh st)) ->
      forall pickDone,
        dispatch s endKey st pickDone = st
        \/ exists e, dispatch s endKey st pickDone = set_loop st (LoadFailed e)).
Proof.
  intros st.
  destruct (run_invariant _ _ evs capacity_inv_step (capacity_inv_enter ctx0)) as [Hc Hw].
  fold st in Hc, Hw. split; [exact Hc|]. split; [exact Hw|].
  intros Hctx Hfull pickDone. unfold dispatch.
  destruct (loop st); [|by left..].
  destruct (load key (regionsPerTask s)) as [b [e|]]; [right; by exists e|].
  destruct (Z.ltb_spec (Z.of_nat (length (taskCh st))) (concurrency s)); [lia|].
  simpl. rewrite Hctx. rewrite bool_decide_false by (by intros []). by left.
Qed.

Lemma idle_inv_step (st : state) (ev : event) :
  concurrency s <= 0 -> idle_inv st -> idle_inv (step st ev).
Proof.
  intros Hc (Hp & Hh & Hw & Hch). destruct ev as [pickDone|i|e]; simpl.
  - unfold dispatch. destruct (loop st); try done.
    destruct (load key (regionsPerTask s)) as [b [e|]]; [done|].
    rewrite Hch. cbn [length].
    destruct (Z.ltb_spec (Z.of_nat 0) (concurrency s)); [lia|]. simpl.
    by destruct (bool_decide _).
  - unfold work. by rewrite Hw.
  - unfold ctx_done. by destruct (ctxErr st).
Qed.

Lemma idle_inv_enter (ctx0 : option error) :
  concurrency s <= 0 -> idle_inv (enter s startKey endKey ctx0).
Proof.
  intros Hc. unfold idle_inv, enter. destruct (emptyRange _ _); simpl; [done|].
  by replace (Z.to_nat (concurrency s)) with 0%nat by lia.
Qed.

(** X13.  With [concurrency] 0 there is no worker and the channel has no
    buffer: no task is ever pushed or handled.  [RunOnRange] then returns
    only the error of a failed region load, or nil once the context is done
    (or at once on an empty range); while the context is live and the loads
    succeed it does not return. *)
Theorem zero_concurrency_handles_nothing (ctx0 : option error) (evs : list event) :
  concurrency s = 0 ->
  let st := run (enter s startKey endKey ctx0) evs in
  pushed st = [] /\ handled st = [] /\ workers st = []
  /\ (forall res, returned st = Some res ->
        (exists e, loop st = LoadFailed e /\ res = Some e)
        \/ (res = None /\ loop st = Closed
            /\ (emptyRange startKey endKey = true \/ ctxErr st <> None))).
Proof.
  intros Hc st.
  assert (idle_inv st) as (Hp & Hh & Hw & Hch).
  { apply run_invariant; [|apply idle_inv_enter; lia].
    intros st0 ev Hst0. apply idle_inv_step; [lia|done]. }
  do 3 (split; [done|]). intros res. unfold returned. rewrite Hw. simpl.
  destruct (loop st) as [key| |e] eqn:Hl; [done| |].
  - intros [= <-]. right. split; [done|]. split; [done|].
    pose proof (left_by_break_run s startKey endKey evs _
                  (left_by_break_enter s startKey endKey ctx0)) as Hb.
    fold st in Hb. destruct (Hb Hl) as [H|[H|H]]; [by left| |by right].
    destruct (loop_inv_run s startKey endKey evs _ (loop_inv_enter s startKey endKey ctx0))
      as [(_ & _ & _ & Hnil) _].
    fold st in Hnil. specialize (Hnil Hp). congruence.
  - intros [= <-]. left. by exists e.
Qed.

Lemma load_failed_step (st : state) (ev : event) (e : error) :
  loop st = LoadFailed e ->
  loop (step st ev) = LoadFailed e /\ pushed (step st ev) = pushed st.
Proof.
  intros Hl. destruct ev as [pickDone|i|e']; simpl.
  - unfold dispatch. by rewrite Hl.
  - unfold work. destruct (workers st !! i) as [[[] werr]|]; try done.
    destruct (taskCh st) as [|r rest].
    + by destruct (closed st).
    + destruct (ctxErr st); [done|]. by destruct (handler s r).
  - unfold ctx_done. by destruct (ctxErr st).
Qed.

Lemma load_failed_run (evs : list event) (st : state) (e : error) :
  loop st = LoadFailed e ->
  loop (run st evs) = LoadFailed e /\ pushed (run st evs) = pushed st.
Proof.
  revert st. induction evs as [|ev evs IH]; intros st Hl; [done|]. simpl.
  destruct (load_failed_step st ev e Hl) as [H1 H2].
  destruct (IH _ H1) as [H3 H4]. split; [done|]. by rewrite H4.
Qed.

Lemma some_running (ws : list rangeTaskWorker) :
  forallb (fun w => negb (running w)) ws = false ->
  exists i werr, ws !! i = Some {| running := true; err := werr |}.
Proof.
  induction ws as [|[[] werr] ws IH]; simpl; [done| |].
  - intros _. by exists 0%nat, werr.
  - intros Hall. destruct (IH Hall) as (i & werr' & Hi). by exists (S i), werr'.
Qed.

(** Once the channel is closed, the workers can all be let run until they
    have returned. *)
Lemma closed_drains (n : nat) :
  forall st, length (taskCh st) = n -> closed st = true ->
    exists evs, forallb (fun w => negb (running w)) (workers (run st evs)) = true.
Proof.
  induction n as [n IH] using lt_wf_ind. intros st Hn Hcl.
  destruct (decide (taskCh st = [] \/ ctxErr st <> None)) as [Hd|Hnd].
  - exists (EvWorker <$> seq 0 (length (workers st))).
    destruct (drain_workers s endKey (length (workers st)) st)
      as (_ & _ & _ & _ & _ & Hlen & _ & Hs); [by split|].
    apply all_stopped. intros j w Hj. apply Hs. by rewrite Hlen in Hj.
  - destruct (taskCh st) as [|r rest] eqn:Hch; [by destruct Hnd; left|].
    destruct (ctxErr st) as [e|] eqn:Hctx; [by destruct Hnd; right|].
    destruct (forallb (fun w => negb (running w)) (workers st)) eqn:Hall.
    + by exists [].
    + assert (exists i werr, workers st !! i = Some {| running := true; err := werr |})
        as (i & werr & Hw).
      { by apply some_running. }
      set (st1 := step st (EvWorker i)).
      assert (taskCh st1 = rest /\ closed st1 = true) as [Hch1 Hcl1].
      { unfold st1. simpl. unfold work. rewrite Hw, Hch, Hctx.
        destruct (handler s r) as [stat herr]. split; [done|].
        unfold closed in *. simpl. done. }
      destruct (IH (length rest) ltac:(simpl in Hn; lia) st1) as [evs Hevs];
        [by rewrite Hch1|done|].
      by exists (EvWorker i :: evs).
Qed.

(** X14.  Once a region load has failed, nothing more is pushed, and what
    [RunOnRange] returns is that error itself, not wrapped, whatever the
    workers have recorded.  It does return: the workers can always be run
    until each has returned. *)
Theorem load_error_is_returned (ctx0 : option error) (evs : list event) (e : error) :
  let st := run (enter s startKey endKey ctx0) evs in
  loop st = LoadFailed e ->
  (forall evs',
      loop (run st evs') = LoadFailed e
      /\ pushed (run st evs') = pushed st
      /\ (forall res, returned (run st evs') = Some res -> res = Some e))
  /\ exists evs', returned (run st evs') = Some (Some e).
Proof.
  intros st Hl. split.
  - intros evs'. destruct (load_failed_run evs' st e Hl) as [H1 H2].
    split; [done|]. split; [done|]. intros res. unfold returned.
    destruct (forallb _ _); [|done]. rewrite H1. by intros [= <-].
  - destruct (closed_drains (length (taskCh st)) st eq_refl) as [evs' Hevs'].
    { unfold closed. by rewrite Hl. }
    exists evs'. unfold returned. rewrite Hevs'.
    destruct (load_failed_run evs' st e Hl) as [-> _]. done.
Qed.

(** *** A context that is done from the start *)

Lemma ctx_held_step (e : error) (st : state) (ev : event) :
  ctx_held e st -> ctx_held e (step st ev).
Proof.
  intros (Hctx & Hh & Hc & Hw). destruct ev as [pickDone|i|e']; simpl.
  - unfold dispatch. destruct (loop st); try done.
    destruct (load key (regionsPerTask s)) as [b [e0|]]; [done|].
    destruct (_ && negb _); [done|]. by destruct (bool_decide _).
  - unfold work. destruct (workers st !! i) as [[[] werr]|] eqn:Hi; try done.
    destruct (taskCh st) as [|r rest].
    + destruct (closed st); [|done]. split; [done|]. split; [done|]. split; [done|].
      simpl. apply Forall_insert; [done|].
      by apply (Forall_lookup_1 _ _ _ _ Hw Hi).
    + rewrite Hctx. split; [done|]. split; [done|]. split; [done|].
      simpl. apply Forall_insert; [done|]. by right.
  - unfold ctx_done. by rewrite Hctx.
Qed.

Lemma ctx_held_enter (e : error) : ctx_held e (enter s startKey endKey (Some e)).
Proof.
  unfold ctx_held, enter. destruct (emptyRange _ _); simpl; [done|].
  repeat split; try done. apply Forall_replicate. by left.
Qed.

Lemma first_err_held (e : error) (ws : list rangeTaskWorker) :
  Forall (fun w => err w = None \/ err w = Some e) ws ->
  first_err ws = None \/ first_err ws = Some e.
Proof.
  induction 1 as [|w ws [Hw|Hw] _ IH]; simpl; [by left| |].
  - by rewrite Hw.
  - rewrite Hw. by right.
Qed.

(** X16.  When the caller's context is done before [RunOnRange] is called,
    the handler is never called and the completed-regions counter stays 0.
    What [RunOnRange] returns is then the error of a failed region load,
    the context's error wrapped by [errors.WithStack] (some worker took a
    task out of the channel), or nil: it returns nil when the loop sees the
    context done before it pushes a task. *)
Theorem done_context_handles_nothing (e : error) (evs : list event) :
  let st := run (enter s startKey endKey (Some e)) evs in
  handled st = [] /\ completed st = 0
  /\ (forall res, returned st = Some res ->
        (exists e', loop st = LoadFailed e' /\ res = Some e')
        \/ res = None \/ res = Some (WithStack e))
  /\ (forall b,
        emptyRange startKey endKey = false -> 0 <= concurrency s ->
        load startKey (regionsPerTask s) = (b, None) ->
        RunOnRange s startKey endKey (Some e)
          (EvDispatch true :: (EvWorker <$> seq 0 (Z.to_nat (concurrency s))))
        = Returns (Some None)).
Proof.
  intros st.
  assert (ctx_held e st) as (Hctx & Hh & Hc & Hw).
  { apply run_invariant; [apply ctx_held_step|apply ctx_held_enter]. }
  split; [exact Hh|]. split; [exact Hc|]. split.
  - intros res. unfold returned. destruct (forallb _ _); [|done].
    destruct (loop st) as [key| |e']; [done| |].
    + destruct (first_err_held e _ Hw) as [->| ->]; intros [= <-]; auto.
    + intros [= <-]. left. by exists e'.
  - intros b He Hconc Hload. unfold RunOnRange. rewrite He.
    destruct (Z.ltb_spec (concurrency s) 0); [lia|]. f_equal. simpl.
    set (st0 := enter s startKey endKey (Some e)).
    assert (loop st0 = Dispatching startKey /\ taskCh st0 = [] /\ ctxErr st0 = Some e
            /\ workers st0
               = replicate (Z.to_nat (concurrency s)) {| running := true; err := None |})
      as (Hl0 & Hch0 & Hctx0 & Hw0).
    { unfold st0, enter. by rewrite He. }
    assert (dispatch s endKey st0 true = set_loop st0 Closed) as ->.
    { unfold dispatch. rewrite Hl0, Hload, Hctx0.
      rewrite bool_decide_true by done. rewrite andb_true_l, andb_false_r. done. }
    destruct (drain_workers s endKey (Z.to_nat (concurrency s)) (set_loop st0 Closed))
      as (_ & Hl & _ & _ & _ & Hlen & Hq & Hs).
    { by split; [|left]. }
    destruct (Hq Hch0) as [_ Herr].
    unfold returned. rewrite all_stopped, Hl.
    + simpl. rewrite first_err_None; [done|].
      rewrite Herr. simpl. rewrite Hw0, fmap_replicate. by apply Forall_replicate.
    + intros j w Hj. apply Hs. rewrite Hlen in Hj. simpl in Hj.
      by rewrite Hw0, length_replicate in Hj.
Qed.

End RangeTaskInvariants.

(** ** The range-task runner: the tasks partition the range *)

Section Partition.
Import rangetask.
Variable s : Runner.
Variable endKey : bytes.

Local Abbreviation tiles := (tiles endKey).

Lemma bytes_Compare_lt_le (a b c : bytes) :
  bytes_Compare a b = Lt -> bytes_Compare c b ≠ Lt -> bytes_Compare a c = Lt.
Proof.
  intros Hab Hcb. rewrite (bytes_Compare_antisym b c) in Hcb.
  destruct (bytes_Compare b c) eqn:Hbc; simpl in Hcb; [| |done].
  - apply bytes_Compare_eq in Hbc as <-. done.
  - by apply (bytes_Compare_trans a b c).
Qed.

Lemma bytes_Compare_le_trans (a b c : bytes) :
  bytes_Compare c b ≠ Lt -> bytes_Compare b a ≠ Lt -> bytes_Compare c a ≠ Lt.
Proof.
  intros Hcb Hba Hca. apply Hcb. by apply (bytes_Compare_lt_le c a b).
Qed.

Lemma bytes_Compare_lt_irrefl (a : bytes) : bytes_Compare a a ≠ Lt.
Proof. by rewrite bytes_Compare_refl. Qed.

Lemma isLast_false (b : bytes) :
  isLast endKey b = false ->
  b ≠ [] /\ (endKey = [] \/ bytes_Compare b endKey = Lt).
Proof.
  unfold isLast. intros [H1 H2]%orb_false_iff. split.
  - intros ->. done.
  - destruct endKey as [|x e]; [by left|]. right. simpl in H2.
    apply negb_false_iff, bool_decide_eq_true in H2. done.
Qed.

Lemma chain_tail (a : bytes) (t t' : KeyRange) (ts : list KeyRange) (fin : bool) :
  chain s a endKey (t :: t' :: ts) fin -> chain s (EndKey t) endKey (t' :: ts) fin.
Proof.
  intros (H0 & Hstep & Hlast & Hnil). split; [|split; [|split]].
  - intros t0 [= <-]. by destruct (Hstep 0%nat t t' eq_refl eq_refl).
  - intros i x y Hi HSi. by apply (Hstep (S i) x y).
  - intros x Hx. apply Hlast. by rewrite last_cons_cons.
  - done.
Qed.

Lemma chain_tiles (ts : list KeyRange) :
  progresses s ->
  forall a, chain s a endKey ts true -> tiles a ts.
Proof.
  intros Hprog. induction ts as [|t ts IH]; intros a Hc.
  - destruct Hc as (_ & _ & _ & Hnil). by specialize (Hnil eq_refl).
  - pose proof Hc as (H0 & Hstep & Hlast & _). simpl.
    split; [by apply H0|]. destruct ts as [|t' ts].
    + destruct (Hlast t eq_refl) as (b & _ & Hfin & Hend). by rewrite <- Hfin in Hend.
    + destruct (Hstep 0%nat t t' eq_refl eq_refl) as (_ & b & Hload & Hb & Hend).
      destruct (isLast_false b Hb) as [Hne Hlt]. rewrite Hend.
      split; [done|]. split; [|split; [done|]].
      * destruct (Hprog _ _ Hload) as [->|Hlt']; [done|]. by rewrite <- (H0 t eq_refl).
      * rewrite <- Hend. apply IH. by apply (chain_tail a).
Qed.

Lemma tiles_start_ge (ts : list KeyRange) :
  forall a j t, tiles a ts -> ts !! j = Some t -> bytes_Compare (StartKey t) a ≠ Lt.
Proof.
  induction ts as [|t0 ts IH]; intros a j t Ht Hj; [done|].
  destruct Ht as [Hs Ht]. destruct j as [|j]; simpl in Hj.
  - injection Hj as <-. rewrite Hs. apply bytes_Compare_lt_irrefl.
  - destruct ts as [|t1 ts]; [done|]. destruct Ht as (_ & Hlt & _ & Ht).
    specialize (IH _ _ _ Ht Hj). intros Hc.
    apply (bytes_Compare_lt_irrefl (StartKey t)).
    apply (bytes_Compare_trans _ a); [done|]. by apply (bytes_Compare_lt_le _ (EndKey t0)).
Qed.

Lemma tiles_cover (ts : list KeyRange) (k : bytes) :
  forall a, tiles a ts ->
    bytes_Compare k a ≠ Lt -> (endKey = [] \/ bytes_Compare k endKey = Lt) ->
    exists i t, ts !! i = Some t /\ covers t k.
Proof.
  induction ts as [|t ts IH]; intros a Ht Hge Hlt; [done|].
  destruct Ht as [Hs Ht]. destruct ts as [|t' ts].
  - exists 0%nat, t. split; [done|]. unfold covers. rewrite Hs, Ht.
    split; [done|]. destruct Hlt; [by left|by right].
  - destruct Ht as (Hne & Hlt' & Hend & Ht).
    destruct (bytes_Compare k (EndKey t)) eqn:Hk.
    + destruct (IH (EndKey t) Ht) as (i & x & Hi & Hx); [by rewrite Hk|done|].
      by exists (S i), x.
    + exists 0%nat, t. split; [done|]. unfold covers. rewrite Hs. split; [done|by right].
    + destruct (IH (EndKey t) Ht) as (i & x & Hi & Hx); [by rewrite Hk|done|].
      by exists (S i), x.
Qed.

Lemma tiles_within (ts : list KeyRange) (k : bytes) :
  forall a i t, tiles a ts -> ts !! i = Some t -> covers t k ->
    bytes_Compare k a ≠ Lt /\ (endKey = [] \/ bytes_Compare k endKey = Lt).
Proof.
  induction ts as [|t0 ts IH]; intros a i t Ht Hi [Hge Hlt]; [done|].
  split.
  { apply (bytes_Compare_le_trans _ (StartKey t)); [done|].
    by apply (tiles_start_ge (t0 :: ts) a i). }
  destruct Ht as [Hs Ht]. destruct i as [|i]; simpl in Hi.
  - injection Hi as <-. destruct ts as [|t1 ts].
    + rewrite Ht in Hlt. destruct Hlt; [by left|by right].
    + destruct Ht as (Hne & _ & Hend & _). destruct Hlt as [?|Hlt]; [done|].
      destruct Hend as [?|Hend]; [by left|right].
      by apply (bytes_Compare_trans _ (EndKey t0)).
  - destruct ts as [|t1 ts]; [done|]. destruct Ht as (_ & _ & _ & Ht).
    by apply (IH (EndKey t0) i t).
Qed.

Lemma tiles_first_unique (t0 : KeyRange) (ts : list KeyRange) (k : bytes) :
  forall a j t, tiles a (t0 :: ts) -> ts !! j = Some t ->
    covers t0 k -> covers t k -> False.
Proof.
  intros a j t [Hs Ht] Hj [_ Hlt0] [Hge _].
  destruct ts as [|t1 ts]; [done|]. destruct Ht as (Hne & _ & _ & Ht).
  destruct Hlt0 as [?|Hlt0]; [done|].
  pose proof (tiles_start_ge _ _ _ _ Ht Hj) as Hst.
  apply Hge. by apply (bytes_Compare_lt_le _ (EndKey t0)).
Qed.

Lemma tiles_unique (ts : list KeyRange) (k : bytes) :
  forall a i j t t', tiles a ts ->
    ts !! i = Some t -> ts !! j = Some t' -> covers t k -> covers t' k -> i = j.
Proof.
  induction ts as [|t0 ts IH]; intros a i j t t' Ht Hi Hj Hc Hc'; [done|].
  destruct i as [|i], j as [|j]; simpl in Hi, Hj; [done| | |].
  - injection Hi as <-. by destruct (tiles_first_unique t0 ts k a j t' Ht Hj).
  - injection Hj as <-. by destruct (tiles_first_unique t0 ts k a i t Ht Hi).
  - f_equal. destruct Ht as [_ Ht]. destruct ts as [|t1 ts]; [done|].
    destruct Ht as (_ & _ & _ & Ht). by apply (IH (EndKey t0) i j t t').
Qed.

Lemma tiles_nonempty (ts : list KeyRange) :
  forall a i t, tiles a ts -> (endKey = [] \/ bytes_Compare a endKey = Lt) ->
    ts !! i = Some t -> EndKey t = [] \/ bytes_Compare (StartKey t) (EndKey t) = Lt.
Proof.
  induction ts as [|t0 ts IH]; intros a i t Ht Ha Hi; [done|].
  destruct Ht as [Hs Ht]. destruct i as [|i]; simpl in Hi.
  - injection Hi as <-. rewrite Hs. destruct ts as [|t1 ts].
    + by rewrite Ht.
    + destruct Ht as (_ & Hlt & _). by right.
  - destruct ts as [|t1 ts]; [done|]. destruct Ht as (_ & _ & Hend & Ht).
    by apply (IH (EndKey t0) i t).
Qed.

Lemma emptyRange_false (startKey : bytes) :
  emptyRange startKey endKey = false ->
  endKey = [] \/ bytes_Compare startKey endKey = Lt.
Proof.
  unfold emptyRange. intros [H|H]%andb_false_iff.
  - left. apply negb_false_iff, Nat.eqb_eq in H. by destruct endKey.
  - right. by apply negb_false_iff, bool_decide_eq_true in H.
Qed.

End Partition.

Section PartitionRun.
Import rangetask.
Variable s : Runner.
Variables startKey endKey : bytes.

(** X15.  When the region cache makes progress and the last task of the
    range has been pushed, the tasks pushed partition the range: a key lies
    in the range of some task exactly when it lies in
    [[startKey, endKey)], no key lies in the ranges of two tasks, and no
    task has an empty range. *)
Theorem tasks_partition_range (ctx0 : option error) (evs : list event) :
  progresses s ->
  let st := run s endKey (enter s startKey endKey ctx0) evs in
  lastPushed st = true ->
  (forall k,
      (bytes_Compare k startKey ≠ Lt /\ (endKey = [] \/ bytes_Compare k endKey = Lt))
      <-> exists i t, pushed st !! i = Some t /\ covers t k)
  /\ (forall k i j t t',
        pushed st !! i = Some t -> pushed st !! j = Some t' ->
        covers t k -> covers t' k -> i = j)
  /\ (forall i t, pushed st !! i = Some t ->
        EndKey t = [] \/ bytes_Compare (StartKey t) (EndKey t) = Lt).
Proof.
  intros Hprog st Hfin.
  destruct (loop_inv_run s startKey endKey evs _ (loop_inv_enter s startKey endKey ctx0))
    as [Hc _].
  fold st in Hc. rewrite Hfin in Hc.
  pose proof (chain_tiles s endKey (pushed st) Hprog startKey Hc) as Ht.
  split; [|split].
  - intros k. split.
    + intros [Hge Hlt]. by apply (tiles_cover endKey (pushed st) k startKey).
    + intros (i & t & Hi & Hcov). by apply (tiles_within endKey (pushed st) k startKey i t).
  - intros k i j t t'. by apply (tiles_unique endKey (pushed st) k startKey).
  - intros i t Hi. apply (tiles_nonempty endKey (pushed st) startKey i t); [done| |done].
    apply emptyRange_false. destruct (emptyRange startKey endKey) eqn:He; [|done].
    destruct (empty_range_run s startKey endKey ctx0 evs He) as (Hp & _).
    fold st in Hp. rewrite Hp in Ht. done.
Qed.

End PartitionRun.

(** ** The further properties on the scenarios *)

Section FurtherScenarios.
Import rangetask scenario.

Lemma prefix_codec_round_trips : apicodec.round_trips prefix_codec.
Proof. intros k Hk. by split. Qed.

(** A range with an unbounded end, encoded and decoded again. *)
Lemma DecodeRegionRange_round_trip_and_errors_witness :
  apicodec.DecodeRegionRange the_codec
    (apicodec.EncodeRegionRange the_codec ["a"%byte] []).1
    (apicodec.EncodeRegionRange the_codec ["a"%byte] []).2
  = (["a"%byte], [], None).
Proof.
  apply (proj1 (DecodeRegionRange_round_trip_and_errors the_codec ["a"%byte] [] [] [])).
  exact prefix_codec_round_trips.
Defined.

(** An end key the codec cannot decode: both keys come back nil. *)
Example DecodeRegionRange_undecodable_end :
  apicodec.DecodeRegionRange the_codec ["x"%byte; "a"%byte] ["g"%byte]
  = ([], [], Some (ErrorString 0)).
Proof. reflexivity. Qed.

Lemma decodeRegionError_round_trip_witness :
  apicodec.decodeRegionError the_codec
    (Some (apicodec.encodeRegionError the_codec the_region_error))
  = Returns (Some the_region_error, (Some the_region_error, None)).
Proof.
  apply (decodeRegionError_round_trip the_codec the_region_error).
  - exact prefix_codec_round_trips.
  - intros errInfo [= <-]. repeat constructor; discriminate.
Defined.

(** The second region's end key does not decode: [decodeRegionError]
    returns nil and the error; the first region is decoded by then, the
    second has lost both keys, the third is as it was. *)
Example decodeRegionError_undecodable :
  apicodec.decodeRegionError the_codec (Some the_undecodable_region_error)
  = Returns
      (Some {| errorpb.Message := [];
               errorpb.KeyNotInRegion_ := None;
               errorpb.EpochNotMatch_ :=
                 Some {| errorpb.CurrentRegions :=
                           [ Some {| metapb.Id := 2; metapb.StartKey := ["a"%byte];
                                     metapb.EndKey := ["g"%byte] |};
                             Some {| metapb.Id := 3; metapb.StartKey := [];
                                     metapb.EndKey := [] |};
                             Some {| metapb.Id := 4;
                                     metapb.StartKey := ["x"%byte; "n"%byte];
                                     metapb.EndKey := [] |} ] |} |},
       (None, Some (ErrorString 0))).
Proof. reflexivity. Qed.

(** The node of the scenario freed twice: the next two allocations return
    the same address. *)
Lemma free_list_is_a_stack_witness :
  exists f',
    art.allocs (art.allocNode4 52) 2
      (foldl art.freeNode4_ the_node_allocator [the_node; the_node])
    = Some ([the_node; the_node], f')
    /\ art.freeNode4 (art.nodeAllocator f') = [].
Proof.
  apply (proj1 (free_list_is_a_stack 52 168 656 the_node_allocator [the_node; the_node])).
  assert (art.holds_node (art.MemdbArena_ (art.nodeAllocator the_node_allocator)) 52 the_node)
    as H.
  { eexists. split; [vm_compute; reflexivity|]. split; [lia|]. vm_compute. lia. }
  repeat constructor; exact H.
Defined.

(** A second leaf allocated after the leaf of the scenario. *)
Lemma allocation_keeps_memory_witness :
  exists addr f',
    art.allocLeaf the_allocator ["k"%byte; "2"%byte] = Some (addr, f')
    /\ arena.fresh (art.MemdbArena_ (art.nodeAllocator the_allocator)) addr
    /\ (forall addr0 R,
          arena.GetData (art.MemdbArena_ (art.nodeAllocator the_allocator)) addr0 = Some R ->
          exists R', arena.GetData (art.MemdbArena_ (art.nodeAllocator f')) addr0
                     = Some (R ++ R'))
    /\ (forall addr0 n bs,
          arena.load (art.MemdbArena_ (art.nodeAllocator the_allocator)) addr0 n = Some bs ->
          arena.load (art.MemdbArena_ (art.nodeAllocator f')) addr0 n = Some bs).
Proof.
  eexists _, _. split; [vm_compute; reflexivity|].
  apply (allocation_keeps_memory 52 168 656 2096 the_allocator _ ["k"%byte; "2"%byte] _).
  left. vm_compute. reflexivity.
Defined.

(** The key of the first leaf is still read after the second allocation. *)
Example first_leaf_kept :
  match art.allocLeaf the_allocator ["k"%byte; "2"%byte] with
  | Some (addr, f') =>
      art.key_bytes (art.MemdbArena_ (art.nodeAllocator f'))
                    {| arena.idx := 0; arena.off := 0 |} 3
      = Some ["k"%byte; "e"%byte; "y"%byte]
      /\ art.key_bytes (art.MemdbArena_ (art.nodeAllocator f')) addr 2
         = Some ["k"%byte; "2"%byte]
  | None => False
  end.
Proof. vm_compute. split; reflexivity. Qed.

(** The freed [node4] is allocated again: the leaf before it is not
    touched. *)
Lemma reused_node_init_touches_only_the_node_witness :
  exists addr f',
    art.allocNode4 52 the_freed_allocator = Some (addr, f')
    /\ forall addr0 n bs,
         arena.load (art.MemdbArena_ (art.nodeAllocator the_freed_allocator)) addr0 n = Some bs ->
         arena.idx addr0 ≠ arena.idx addr
         \/ arena.off addr0 + Z.of_nat n <= arena.off addr
         \/ arena.off addr + 52 <= arena.off addr0 ->
         arena.load (art.MemdbArena_ (art.nodeAllocator f')) addr0 n = Some bs.
Proof.
  eexists _, _. split; [vm_compute; reflexivity|].
  apply (reused_node_init_touches_only_the_node 52 168 656 52 the_freed_allocator _ _).
  - left. split; [vm_compute; discriminate|]. split; [reflexivity|]. vm_compute. reflexivity.
  - lia.
Defined.

Example leaf_kept_by_reuse :
  match art.allocNode4 52 the_freed_allocator with
  | Some (addr, f') =>
      addr = {| arena.idx := 0; arena.off := 16 |}
      /\ art.key_bytes (art.MemdbArena_ (art.nodeAllocator f'))
                       {| arena.idx := 0; arena.off := 0 |} 3
         = Some ["k"%byte; "e"%byte; "y"%byte]
  | None => False
  end.
Proof. vm_compute. split; reflexivity. Qed.

Lemma allocLeaf_then_getLeaf_witness :
  exists addr f',
    art.allocLeaf (art.init {| arena.blocks := [] |}) ["k"%byte; "e"%byte; "y"%byte]
    = Some (addr, f')
    /\ addr <> arena.NullAddr
    /\ art.getLeaf f' addr = Returns (Some addr)
    /\ art.capped (art.MemdbArena_ (art.nodeAllocator f')).
Proof.
  apply (allocLeaf_then_getLeaf (art.init {| arena.blocks := [] |})
           ["k"%byte; "e"%byte; "y"%byte]).
  - constructor.
  - vm_compute. discriminate.
Defined.


(** After that run the counters hold three completed regions. *)
Example counters_after_range_a_p :
  completed (run the_runner ["p"%byte] (enter the_runner ["a"%byte] ["p"%byte] None)
                 (in_turn the_runner 3)) = 3
  /\ failed (run the_runner ["p"%byte] (enter the_runner ["a"%byte] ["p"%byte] None)
                 (in_turn the_runner 3)) = 0.
Proof. vm_compute. split; reflexivity. Qed.

(** No worker: the loop waits until the caller cancels, and [RunOnRange]
    returns nil. *)
Lemma zero_concurrency_handles_nothing_witness :
  let st := run the_idle_runner ["p"%byte]
                (enter the_idle_runner ["a"%byte] ["p"%byte] None)
                [EvDispatch false; EvCtxDone ContextCanceled; EvDispatch true] in
  pushed st = [] /\ handled st = [] /\ workers st = []
  /\ (forall res, returned st = Some res ->
        (exists e, loop st = LoadFailed e /\ res = Some e)
        \/ (res = None /\ loop st = Closed
            /\ (emptyRange ["a"%byte] ["p"%byte] = true \/ ctxErr st <> None))).
Proof.
  apply (zero_concurrency_handles_nothing the_idle_runner ["a"%byte] ["p"%byte] None
           [EvDispatch false; EvCtxDone ContextCanceled; EvDispatch true]).
  reflexivity.
Defined.

Example zero_concurrency_run :
  RunOnRange the_idle_runner ["a"%byte] ["p"%byte] None
    [EvDispatch false; EvDispatch false] = Returns None
  /\ RunOnRange the_idle_runner ["a"%byte] ["p"%byte] None
       [EvDispatch false; EvCtxDone ContextCanceled; EvDispatch true]
     = Returns (Some None).
Proof. vm_compute. split; reflexivity. Qed.

(** The region load from [g] fails after the first task was pushed. *)
Lemma load_error_is_returned_witness :
  let st := run the_broken_runner ["p"%byte]
                (enter the_broken_runner ["a"%byte] ["p"%byte] None)
                [EvDispatch false; EvDispatch false] in
  (forall evs',
      loop (run the_broken_runner ["p"%byte] st evs') = LoadFailed (ErrorString 1)
      /\ pushed (run the_broken_runner ["p"%byte] st evs') = pushed st
      /\ (forall res, returned (run the_broken_runner ["p"%byte] st evs') = Some res ->
            res = Some (ErrorString 1)))
  /\ exists evs', returned (run the_broken_runner ["p"%byte] st evs')
                  = Some (Some (ErrorString 1)).
Proof.
  apply (load_error_is_returned the_broken_runner ["a"%byte] ["p"%byte] None
           [EvDispatch false; EvDispatch false] (ErrorString 1)).
  vm_compute. reflexivity.
Defined.

Example load_error_run :
  RunOnRange the_broken_runner ["a"%byte] ["p"%byte] None
    [EvDispatch false; EvDispatch false; EvWorker 0; EvWorker 0; EvWorker 1]
  = Returns (Some (Some (ErrorString 1)))
  /\ handled (run the_broken_runner ["p"%byte]
                  (enter the_broken_runner ["a"%byte] ["p"%byte] None)
                  [EvDispatch false; EvDispatch false; EvWorker 0; EvWorker 0; EvWorker 1])
     = [ ({| StartKey := ["a"%byte]; EndKey := ["g"%byte] |}, None) ].
Proof. vm_compute. split; reflexivity. Qed.

(** A region cache over split keys makes progress. *)
Lemma splitRegions_progresses (splits : list bytes) (s : Runner) :
  store s = splitRegions splits -> progresses s.
Proof.
  intros Hs key b. rewrite Hs. unfold splitRegions. simpl.
  destruct (filter _ splits !! _) as [b0|] eqn:Hb; intros [= <-]; [|by left].
  right. apply list_elem_of_lookup_2, list_elem_of_filter in Hb as [Hlt _]. exact Hlt.
Qed.

Lemma tasks_partition_range_witness :
  let st := run the_runner ["p"%byte] (enter the_runner ["a"%byte] ["p"%byte] None)
                (in_turn the_runner 3) in
  (forall k,
      (bytes_Compare k ["a"%byte] ≠ Lt
       /\ (["p"%byte] = [] \/ bytes_Compare k ["p"%byte] = Lt))
      <-> exists i t, pushed st !! i = Some t /\ covers t k)
  /\ (forall k i j t t',
        pushed st !! i = Some t -> pushed st !! j = Some t' ->
        covers t k -> covers t' k -> i = j)
  /\ (forall i t, pushed st !! i = Some t ->
        EndKey t = [] \/ bytes_Compare (StartKey t) (EndKey t) = Lt).
Proof.
  apply (tasks_partition_range the_runner ["a"%byte] ["p"%byte] None (in_turn the_runner 3)).
  - by apply (splitRegions_progresses [["g"%byte]; ["n"%byte]; ["t"%byte]]).
  - vm_compute. reflexivity.
Defined.

End FurtherScenarios.
